(** * Sort-Comparer: a shallow embedding of sortcomparer.cc

    The program reads integer datasets from standard input, runs seven
    sorting algorithms on a private copy of every dataset, measures each
    run with a clock and prints a summary and/or per-dataset ranking.

    The embedding follows the C++ source function by function:
    - [std::vector<int>] is a [list Z] indexed by [int] values ([Z]);
      every element access is bounds-checked and an access outside the
      vector (undefined behaviour in C++) is the error [OutOfBounds];
    - [int n = v.size()] is the conversion of a [size_t] to a 32-bit
      [int], written out as [to_int]; [v.size() - 1] is unsigned 64-bit
      arithmetic followed by the same conversion;
    - [int] index arithmetic is exact arithmetic on [Z]; the products
      [2 * i + 1] and [2 * i + 2] of [max_heapify], the only index
      computations that can leave the [int] range while the size of the
      vector still fits in an [int], are checked ([Overflow]);
    - loops whose trip count is not fixed on entry, and recursive
      functions, take a [fuel] argument and return [OutOfFuel] when it
      runs out; the theorems show which fuel is enough. *)

From Stdlib Require Import ZArith Lia List Permutation Sorted Ascii String.
From stdpp Require Import base tactics option list strings gmap sorting.

Local Open Scope Z_scope.

(** ** Results of running a piece of code *)

Inductive error : Type :=
  | OutOfBounds   (* v[i] with i outside the vector: undefined behaviour *)
  | Overflow      (* signed int arithmetic leaving the int range: undefined behaviour *)
  | OutOfFuel.    (* the fuel of the model ran out; not an event of the program *)

Inductive result (A : Type) : Type :=
  | Ok (a : A)
  | Err (e : error).
Arguments Ok {A} a.
Arguments Err {A} e.

#[global] Instance result_ret : MRet result := fun A a => Ok a.
#[global] Instance result_bind : MBind result := fun A B f m =>
  match m with
  | Ok a => f a
  | Err e => Err e
  end.

Lemma bind_Ok {A B} (f : A -> result B) (a : A) : (Ok a ≫= f) = f a.
Proof. reflexivity. Qed.

Lemma bind_Err {A B} (f : A -> result B) (e : error) : (Err e ≫= f) = Err e.
Proof. reflexivity. Qed.

(** ** Machine integers *)

Definition INT_MIN : Z := - 2 ^ 31.
Definition INT_MAX : Z := 2 ^ 31 - 1.
Definition SIZE_MODULUS : Z := 2 ^ 64.

(** Conversion of an unsigned value to [int]: reduction modulo 2^32 into
    the signed range. *)
Definition to_int (z : Z) : Z := (z + 2 ^ 31) mod 2 ^ 32 - 2 ^ 31.

(** Subtraction on [size_t], as in [v.size() - 1]. *)
Definition size_sub (a b : Z) : Z := (a - b) mod SIZE_MODULUS.

(** A signed [int] computation: leaving the range is undefined. *)
Definition int_check (z : Z) : result Z :=
  if (INT_MIN <=? z) && (z <=? INT_MAX) then Ok z else Err Overflow.

(** ** Vectors *)

Abbreviation vec := (list Z).

Definition vsize (v : vec) : Z := Z.of_nat (length v).

(** Total read used in specifications; [get] is the read of the code. *)
Definition at_ (v : vec) (i : Z) : Z := nth (Z.to_nat i) v 0.

Definition in_bounds (v : vec) (i : Z) : bool := (0 <=? i) && (i <? vsize v).

Definition get (v : vec) (i : Z) : result Z :=
  if in_bounds v i then Ok (at_ v i) else Err OutOfBounds.

Definition put (v : vec) (i : Z) (x : Z) : result vec :=
  if in_bounds v i then Ok (<[Z.to_nat i := x]> v) else Err OutOfBounds.

(** [std::swap(v[i], v[j])] *)
Definition swap (v : vec) (i j : Z) : result vec :=
  a ← get v i;
  b ← get v j;
  v1 ← put v i b;
  put v1 j a.

(** ** Loops *)

(** [for (i = lo; i < hi; ++i) body], where the body changes neither [i]
    nor [hi]: the trip count is fixed on entry. *)
Fixpoint for_count {S : Type} (cnt : nat) (i : Z) (body : Z -> S -> result S) (s : S)
  : result S :=
  match cnt with
  | O => Ok s
  | Datatypes.S c => s' ← body i s; for_count c (i + 1) body s'
  end.

Definition for_range {S : Type} (lo hi : Z) (body : Z -> S -> result S) (s : S)
  : result S :=
  for_count (Z.to_nat (hi - lo)) lo body s.

(** [for (i = hi; i >= lo; --i) body] *)
Fixpoint for_count_down {S : Type} (cnt : nat) (i : Z) (body : Z -> S -> result S) (s : S)
  : result S :=
  match cnt with
  | O => Ok s
  | Datatypes.S c => s' ← body i s; for_count_down c (i - 1) body s'
  end.

Definition for_down {S : Type} (hi lo : Z) (body : Z -> S -> result S) (s : S)
  : result S :=
  for_count_down (Z.to_nat (hi - lo + 1)) hi body s.

(** [while (cond) body] *)
Fixpoint while_loop {S : Type} (fuel : nat) (cond : S -> result bool)
    (body : S -> result S) (s : S) : result S :=
  match fuel with
  | O => Err OutOfFuel
  | Datatypes.S f =>
      b ← cond s;
      if b : bool then s' ← body s; while_loop f cond body s' else Ok s
  end.

(** ** The sorting algorithms

    Every algorithm takes its vector by value; the function of the model
    returns the final contents of that private copy, which the C++
    function drops at return. *)

(** [while (j > 0 && v[j - 1] > v[j]) { std::swap(v[j], v[j - 1]); --j; }] *)
Definition insertion_cond (s : vec * Z) : result bool :=
  let '(v, j) := s in
  if j >? 0 then a ← get v (j - 1); b ← get v j; mret (a >? b) else mret false.

Definition insertion_body (s : vec * Z) : result (vec * Z) :=
  let '(v, j) := s in
  v' ← swap v j (j - 1); mret (v', j - 1).

Definition insertion_sort (fuel : nat) (v : vec) : result vec :=
  let n := to_int (vsize v) in
  for_range 1 n (fun i v =>
    s ← while_loop fuel insertion_cond insertion_body (v, i);
    mret (fst s)) v.

Definition selection_min (v : vec) (j : Z) (min : Z) : result Z :=
  a ← get v j; b ← get v min; mret (if a <? b then j else min).

Definition selection_sort (fuel : nat) (v : vec) : result vec :=
  let n := to_int (vsize v) in
  for_range 0 (n - 1) (fun i v =>
    min ← for_range (i + 1) n (selection_min v) i;
    if negb (min =? i) then swap v i min else mret v) v.

(** One pass [for (i = 1; i < n; ++i)] of bubble sort over [(v, swapped)]. *)
Definition bubble_step (i : Z) (s : vec * bool) : result (vec * bool) :=
  let '(v, swapped) := s in
  a ← get v (i - 1); b ← get v i;
  if a >? b then v' ← swap v (i - 1) i; mret (v', true) else mret (v, swapped).

Definition bubble_pass (n : Z) (s : vec * bool) : result (vec * bool) :=
  for_range 1 n bubble_step (fst s, false).

Definition bubble_sort (fuel : nat) (v : vec) : result vec :=
  let n := to_int (vsize v) in
  s ← while_loop fuel (fun s => mret (snd s)) (bubble_pass n) (v, true);
  mret (fst s).

Fixpoint max_heapify (fuel : nat) (v : vec) (n i : Z) : result vec :=
  match fuel with
  | O => Err OutOfFuel
  | Datatypes.S f =>
      left ← int_check (2 * i + 1);
      right ← int_check (2 * i + 2);
      largest ← (if left <? n
                 then a ← get v left; b ← get v i; mret (if a >? b then left else i)
                 else mret i);
      largest ← (if right <? n
                 then a ← get v right; b ← get v largest;
                      mret (if a >? b then right else largest)
                 else mret largest);
      if negb (largest =? i)
      then v' ← swap v i largest; max_heapify f v' n largest
      else mret v
  end.

Definition heap_sort (fuel : nat) (v : vec) : result vec :=
  let n := to_int (vsize v) in
  v1 ← for_down (n ÷ 2 - 1) 0 (fun i v => max_heapify fuel v n i) v;
  for_down (n - 1) 0 (fun i v => v' ← swap v 0 i; max_heapify fuel v' i 0) v1.

(** State of the merging loops: the vector and the indices [i], [j], [k]. *)
Definition merge_both (n1 n2 : Z) (l r : vec) (s : vec * Z * Z * Z)
  : result (vec * Z * Z * Z) :=
  let '(v, i, j, k) := s in
  a ← get l i; b ← get r j;
  if a <=? b
  then v' ← put v k a; mret (v', i + 1, j, k + 1)
  else v' ← put v k b; mret (v', i, j + 1, k + 1).

Definition merge_left (l : vec) (s : vec * Z * Z * Z) : result (vec * Z * Z * Z) :=
  let '(v, i, j, k) := s in
  a ← get l i; v' ← put v k a; mret (v', i + 1, j, k + 1).

Definition merge_right (r : vec) (s : vec * Z * Z * Z) : result (vec * Z * Z * Z) :=
  let '(v, i, j, k) := s in
  b ← get r j; v' ← put v k b; mret (v', i, j + 1, k + 1).

(** The arrays [int left_sublist[n1]] and [int right_sublist[n2]] start
    with unspecified contents, taken as zeros; every cell is written
    before it is read. *)
Definition merge_sublists (fuel : nat) (v : vec) (start middle end_ : Z) : result vec :=
  let n1 := middle - start + 1 in
  let n2 := end_ - middle in
  l ← for_range 0 n1 (fun i l => x ← get v (start + i); put l i x)
        (repeat 0 (Z.to_nat n1));
  r ← for_range 0 n2 (fun j r => x ← get v (middle + 1 + j); put r j x)
        (repeat 0 (Z.to_nat n2));
  s ← while_loop fuel
        (fun '(v, i, j, k) => mret ((i <? n1) && (j <? n2)))
        (merge_both n1 n2 l r) (v, 0, 0, start);
  s ← while_loop fuel (fun '(v, i, j, k) => mret (i <? n1)) (merge_left l) s;
  s ← while_loop fuel (fun '(v, i, j, k) => mret (j <? n2)) (merge_right r) s;
  let '(v', _, _, _) := s in mret v'.

Fixpoint merge_sort_sublist (fuel : nat) (v : vec) (start end_ : Z) : result vec :=
  match fuel with
  | O => Err OutOfFuel
  | Datatypes.S f =>
      if start <? end_ then
        let middle := start + (end_ - start) ÷ 2 in
        v1 ← merge_sort_sublist f v start middle;
        v2 ← merge_sort_sublist f v1 (middle + 1) end_;
        merge_sublists fuel v2 start middle end_
      else mret v
  end.

Definition merge_sort (fuel : nat) (v : vec) : result vec :=
  merge_sort_sublist fuel v 0 (to_int (size_sub (vsize v) 1)).

(** [if (v[j] <= v[end]) std::swap(v[++i], v[j]);] over [(v, i)]. *)
Definition partition_step (end_ : Z) (j : Z) (s : vec * Z) : result (vec * Z) :=
  let '(v, i) := s in
  a ← get v j; p ← get v end_;
  if a <=? p then v' ← swap v (i + 1) j; mret (v', i + 1) else mret (v, i).

Definition partition_sublist (v : vec) (start end_ : Z) : result (vec * Z) :=
  s ← for_range start end_ (partition_step end_) (v, start - 1);
  let '(v1, i) := s in
  v2 ← swap v1 (i + 1) end_;
  mret (v2, i + 1).

Fixpoint quick_sort_sublist (fuel : nat) (v : vec) (start end_ : Z) : result vec :=
  match fuel with
  | O => Err OutOfFuel
  | Datatypes.S f =>
      if start <? end_ then
        s ← partition_sublist v start end_;
        let '(v1, middle) := s in
        v2 ← quick_sort_sublist f v1 start (middle - 1);
        quick_sort_sublist f v2 (middle + 1) end_
      else mret v
  end.

Definition quick_sort (fuel : nat) (v : vec) : result vec :=
  quick_sort_sublist fuel v 0 (to_int (size_sub (vsize v) 1)).

(** [for (j = i; j >= gap && v[j - gap] > v[j]; j -= gap) std::swap(v[j], v[j - gap]);] *)
Definition shell_cond (gap : Z) (s : vec * Z) : result bool :=
  let '(v, j) := s in
  if j >=? gap then a ← get v (j - gap); b ← get v j; mret (a >? b) else mret false.

Definition shell_body (gap : Z) (s : vec * Z) : result (vec * Z) :=
  let '(v, j) := s in
  v' ← swap v j (j - gap); mret (v', j - gap).

(** The body of [for (gap = n / 2; gap > 0; gap /= 2)] over [(v, gap)]. *)
Definition shell_pass (fuel : nat) (n : Z) (s : vec * Z) : result (vec * Z) :=
  let '(v, gap) := s in
  v' ← for_range gap n (fun i v =>
          s ← while_loop fuel (shell_cond gap) (shell_body gap) (v, i);
          mret (fst s)) v;
  mret (v', gap ÷ 2).

Definition shell_sort (fuel : nat) (v : vec) : result vec :=
  let n := to_int (vsize v) in
  s ← while_loop fuel (fun s => mret (snd s >? 0)) (shell_pass fuel n) (v, n ÷ 2);
  mret (fst s).

(** A pointer to a function taking a [std::vector<int>] by value and
    returning nothing: the fuel of the model, the argument, and the final
    contents of the private copy. *)
Definition SortFunction : Type := nat -> vec -> result vec.

(** The table [sort_algos] of [main].  The source iterates over a
    [std::unordered_map], in an order the language leaves open; the model
    takes the order of registration, and the states of its timing loop
    follow this order.  The theorems on the timing loop and on the output
    of a run are stated so that they hold for every order: they speak of
    the measurements of each dataset and of the durations and totals of
    each algorithm, not of which algorithm of a dataset is timed before
    which, and of rankings by time, not of the place of algorithms with
    equal times. *)
Definition sort_algos : list (string * SortFunction) :=
  [ ("Insertion Sort", insertion_sort);
    ("Selection Sort", selection_sort);
    ("Bubble Sort", bubble_sort);
    ("Heap Sort", heap_sort);
    ("Merge Sort", merge_sort);
    ("Quick Sort", quick_sort);
    ("Shell Sort", shell_sort) ]%string.

(** ** Input streams

    The part of [std::istream] that [read_in_datasets] uses, for
    [std::cin] and for the [std::stringstream] of a line: the characters
    not yet read and the state bits [eofbit] and [failbit]. *)

Record istream : Type := mk_istream {
  buf : list ascii;
  eofbit : bool;
  failbit : bool
}.

Definition open_stream (l : list ascii) : istream :=
  {| buf := l; eofbit := false; failbit := false |}.

Definition good (s : istream) : bool := negb (eofbit s) && negb (failbit s).

Definition set_fail (s : istream) : istream :=
  {| buf := buf s; eofbit := eofbit s; failbit := true |}.

(** [ss.clear()] *)
Definition clear (s : istream) : istream :=
  {| buf := buf s; eofbit := false; failbit := false |}.

(** [std::isspace] in the classic locale: space, and tab to carriage return. *)
Definition is_space (c : ascii) : bool :=
  let n := nat_of_ascii c in
  Nat.eqb n 32 || (Nat.leb 9 n && Nat.leb n 13).

Definition is_digit (c : ascii) : bool :=
  let n := nat_of_ascii c in
  Nat.leb 48 n && Nat.leb n 57.

Definition digit_value (c : ascii) : Z := Z.of_nat (nat_of_ascii c) - 48.

Definition newline : ascii := ascii_of_nat 10.

Definition is_nil {A : Type} (l : list A) : bool :=
  match l with
  | [] => true
  | _ => false
  end.

Fixpoint skip_ws (l : list ascii) : list ascii :=
  match l with
  | c :: r => if is_space c then skip_ws r else l
  | [] => []
  end.

(** The longest run of digits at the front, and what follows it. *)
Fixpoint take_digits (l : list ascii) : list ascii * list ascii :=
  match l with
  | c :: r =>
      if is_digit c then let '(d, rest) := take_digits r in (c :: d, rest) else ([], l)
  | [] => ([], [])
  end.

(** The longest run of characters other than whitespace at the front. *)
Fixpoint take_word (l : list ascii) : list ascii * list ascii :=
  match l with
  | c :: r =>
      if is_space c then ([], l) else let '(w, rest) := take_word r in (c :: w, rest)
  | [] => ([], [])
  end.

Definition digits_value (ds : list ascii) : Z :=
  fold_left (fun acc c => 10 * acc + digit_value c) ds 0.

(** [std::getline(is, str)]: when the stream is not good only [failbit]
    is set and [str] is kept; otherwise the characters up to the next
    newline are moved into [str] and the newline is dropped; reaching the
    end of input sets [eofbit], and [failbit] too when nothing was read. *)
Fixpoint split_line (l : list ascii) : list ascii * option (list ascii) :=
  match l with
  | [] => ([], None)
  | c :: r =>
      if Ascii.eqb c newline then ([], Some r)
      else let '(line, rest) := split_line r in (c :: line, rest)
  end.

Definition getline (s : istream) (str : list ascii) : istream * list ascii :=
  if good s then
    match split_line (buf s) with
    | (line, Some rest) => ({| buf := rest; eofbit := false; failbit := false |}, line)
    | (line, None) => ({| buf := []; eofbit := true; failbit := is_nil line |}, line)
    end
  else (set_fail s, str).

(** [ss >> elem] for [int elem]: whitespace is skipped, then an optional
    sign and the longest run of digits are read.  With no digit the
    extraction fails and stores 0; a value outside [int] fails and stores
    the nearest bound; [eofbit] is set when the characters run out. *)
Definition extract_int (s : istream) (elem : Z) : istream * Z :=
  if good s then
    match skip_ws (buf s) with
    | [] => ({| buf := []; eofbit := true; failbit := true |}, elem)
    | c :: r =>
        let negative := Ascii.eqb c "-" in
        let signed := negative || Ascii.eqb c "+" in
        let '(digits, rest) := take_digits (if signed then r else c :: r) in
        let value := if negative then - digits_value digits else digits_value digits in
        if is_nil digits then
          ({| buf := rest; eofbit := is_nil rest; failbit := true |}, 0)
        else if value <? INT_MIN then
          ({| buf := rest; eofbit := is_nil rest; failbit := true |}, INT_MIN)
        else if INT_MAX <? value then
          ({| buf := rest; eofbit := is_nil rest; failbit := true |}, INT_MAX)
        else
          ({| buf := rest; eofbit := is_nil rest; failbit := false |}, value)
    end
  else (set_fail s, elem).

(** [ss >> temp] for [std::string temp] *)
Definition extract_word (s : istream) : istream * list ascii :=
  if good s then
    match skip_ws (buf s) with
    | [] => ({| buf := []; eofbit := true; failbit := true |}, [])
    | l =>
        let '(w, rest) := take_word l in
        ({| buf := rest; eofbit := is_nil rest; failbit := false |}, w)
    end
  else (set_fail s, []).

(** ** Output *)

(** A line written to [std::cerr]. *)
Inductive diagnostic : Type :=
  | Usage                              (* USAGE: ./sortcomparer [results OR summary] *)
  | InvalidArgument                    (* ERROR: Invalid program argument, ... *)
  | ConvertError (line position : Z)   (* ERROR: Failed to convert element at line .. *)
  | ErrBlank.                          (* std::cerr << std::endl *)

(** ** read_in_datasets *)

(** State of the loop over one line: the stream of the line, [elem],
    [position], the dataset, what was written to [std::cerr], and
    [errors_occured]. *)
Record line_state : Type := mk_line_state {
  ls_ss : istream;
  ls_elem : Z;
  ls_position : Z;
  ls_dataset : vec;
  ls_err : list diagnostic;
  ls_errors_occured : bool
}.

(** [while (ss >> elem || !ss.eof()) { ... ++position; }] *)
Fixpoint read_elements (fuel : nat) (linecount : Z) (st : line_state) : result line_state :=
  match fuel with
  | O => Err OutOfFuel
  | Datatypes.S f =>
      let '(ss, elem) := extract_int (ls_ss st) (ls_elem st) in
      if negb (failbit ss) || negb (eofbit ss) then
        if failbit ss then
          let err := ls_err st ++ [ConvertError linecount (ls_position st)] in
          let '(ss', _) := extract_word (clear ss) in
          read_elements f linecount
            {| ls_ss := ss'; ls_elem := elem; ls_position := ls_position st + 1;
               ls_dataset := ls_dataset st; ls_err := err; ls_errors_occured := true |}
        else
          read_elements f linecount
            {| ls_ss := ss; ls_elem := elem; ls_position := ls_position st + 1;
               ls_dataset := ls_dataset st ++ [elem]; ls_err := ls_err st;
               ls_errors_occured := ls_errors_occured st |}
      else
        Ok {| ls_ss := ss; ls_elem := elem; ls_position := ls_position st;
              ls_dataset := ls_dataset st; ls_err := ls_err st;
              ls_errors_occured := ls_errors_occured st |}
  end.

(** State of [read_in_datasets]: [std::cin], the list [datasets], the
    locals that live across lines, and what was written to [std::cerr]. *)
Record reader_state : Type := mk_reader_state {
  rs_cin : istream;
  rs_datasets : list vec;
  rs_data_str : list ascii;
  rs_elem : Z;
  rs_linecount : Z;
  rs_err : list diagnostic;
  rs_errors_occured : bool
}.

(** [while (!std::cin.eof() && !data_str.empty()) { ... }] *)
Fixpoint read_lines (fuel : nat) (st : reader_state) : result reader_state :=
  match fuel with
  | O => Err OutOfFuel
  | Datatypes.S f =>
      if negb (eofbit (rs_cin st)) && negb (is_nil (rs_data_str st)) then
        ls ← read_elements fuel (rs_linecount st)
               {| ls_ss := open_stream (rs_data_str st); ls_elem := rs_elem st;
                  ls_position := 1; ls_dataset := []; ls_err := rs_err st;
                  ls_errors_occured := rs_errors_occured st |};
        let '(cin, data_str) := getline (rs_cin st) (rs_data_str st) in
        read_lines f
          {| rs_cin := cin; rs_datasets := rs_datasets st ++ [ls_dataset ls];
             rs_data_str := data_str; rs_elem := ls_elem ls;
             rs_linecount := rs_linecount st + 1; rs_err := ls_err ls;
             rs_errors_occured := ls_errors_occured ls |}
      else Ok st
  end.

(** The result of [read_in_datasets]: [std::cin] as it is left, the
    datasets, and the lines written to [std::cerr]. *)
Definition read_in_datasets (fuel : nat) (cin : istream) (datasets : list vec)
  : result (istream * list vec * list diagnostic) :=
  let '(cin1, data_str) := getline cin [] in
  st ← read_lines fuel
         {| rs_cin := cin1; rs_datasets := datasets; rs_data_str := data_str;
            rs_elem := 0; rs_linecount := 1; rs_err := []; rs_errors_occured := false |};
  mret (rs_cin st, rs_datasets st,
        if rs_errors_occured st then rs_err st ++ [ErrBlank] else rs_err st).

(** The characters of a literal, and a literal followed by a newline. *)
Definition chars (s : string) : list ascii := list_ascii_of_string s.
Definition line (s : string) : list ascii := chars s ++ [newline].

(** ** main *)

(** A line written to [std::cout].  The average of a summary line is the
    quotient of its last two fields, printed as a [double] with three
    decimals. *)
Inductive out_line : Type :=
  | Progress (k : Z)        (* Running sort algorithms on dataset k... *)
  | OutBlank
  | SummaryBanner
  | SummaryLine (rank : Z) (algo : string) (total_time num_datasets : Z)
  | ResultsBanner
  | DatasetHeader (k : Z)   (* DATASET k: *)
  | ResultLine (rank : Z) (algo : string) (result_time : Z).

(** The clock: [now k] is the reading of the [k]-th call of
    [Clock::now()], and [to_microseconds d] the count of
    [duration_cast<microseconds>] for a difference [d] of two readings.
    Durations are [long long] values, taken as exact integers. *)
Record clock_model : Type := mk_clock {
  now : nat -> Z;
  to_microseconds : Z -> Z
}.

(** [l[i]] of a vector or array of any element type, bounds-checked. *)
Definition index {A : Type} (l : list A) (i : Z) : result A :=
  if 0 <=? i then
    match l !! Z.to_nat i with
    | Some a => Ok a
    | None => Err OutOfBounds
    end
  else Err OutOfBounds.

(** [for (auto iter = m.begin(); iter != m.end(); ++iter) body] *)
Fixpoint for_each {A S : Type} (l : list A) (body : A -> S -> result S) (s : S)
  : result S :=
  match l with
  | [] => Ok s
  | a :: r => s' ← body a s; for_each r body s'
  end.

Definition compare_times (pair1 pair2 : string * Z) : bool := pair1.2 <? pair2.2.

(** [std::sort(first, last, compare_times)], given by an insertion sort;
    the order of entries with equal times, which [std::sort] leaves open,
    is the one this sort gives. *)
Fixpoint sort_insert (p : string * Z) (l : list (string * Z)) : list (string * Z) :=
  match l with
  | [] => [p]
  | q :: r => if compare_times q p then q :: sort_insert p r else p :: q :: r
  end.

Definition std_sort (l : list (string * Z)) : list (string * Z) :=
  fold_right sort_insert [] l.

(** The variables of [main] that the timing loop reads and writes, and
    [bs_measured], an auxiliary log of every duration measured, which no
    code reads. *)
Record bench_state : Type := mk_bench_state {
  bs_datasets : list vec;
  bs_total_times : gmap string Z;
  bs_result_times : gmap string (list Z);
  bs_clock : nat;
  bs_cout : list out_line;
  bs_measured : list (string * Z)
}.

(** The body of the loop over [sort_algos] for dataset [i].  The call
    [iter->second(datasets[i])] copies [datasets[i]] into the parameter of
    the algorithm; what the algorithm leaves in its copy is dropped. *)
Definition bench_algo (clk : clock_model) (fuel : nat)
    (summary_needed results_needed : bool) (i : Z)
    (entry : string * SortFunction) (st : bench_state) : result bench_state :=
  let algo := entry.1 in
  let start_time := now clk (bs_clock st) in
  dataset ← index (bs_datasets st) i;
  _ ← entry.2 fuel dataset;
  let end_time := now clk (Datatypes.S (bs_clock st)) in
  let duration := to_microseconds clk (end_time - start_time) in
  mret {| bs_datasets := bs_datasets st;
          bs_total_times :=
            if summary_needed then
              match bs_total_times st !! algo with
              | None => <[algo := duration]> (bs_total_times st)
              | Some total => <[algo := total + duration]> (bs_total_times st)
              end
            else bs_total_times st;
          bs_result_times :=
            if results_needed then
              <[algo := default [] (bs_result_times st !! algo) ++ [duration]]>
                (bs_result_times st)
            else bs_result_times st;
          bs_clock := Datatypes.S (Datatypes.S (bs_clock st));
          bs_cout := bs_cout st;
          bs_measured := bs_measured st ++ [(algo, duration)] |}.

(** The body of [for (int i = 0; i < num_datasets; ++i)]. *)
Definition bench_dataset (clk : clock_model) (fuel : nat)
    (summary_needed results_needed : bool) (i : Z) (st : bench_state)
  : result bench_state :=
  for_each sort_algos (bench_algo clk fuel summary_needed results_needed i)
    {| bs_datasets := bs_datasets st; bs_total_times := bs_total_times st;
       bs_result_times := bs_result_times st; bs_clock := bs_clock st;
       bs_cout := bs_cout st ++ [Progress (i + 1)];
       bs_measured := bs_measured st |}.

(** [result_times[iter->first].reserve(num_datasets)] for every
    algorithm: [operator[]] creates the entry, with an empty vector. *)
Definition reserve_result_times (results_needed : bool) : gmap string (list Z) :=
  if results_needed then
    fold_left (fun m (entry : string * SortFunction) =>
                 <[entry.1 := default [] (m !! entry.1)]> m) sort_algos ∅
  else ∅.

Definition render_summary (total_times : gmap string Z) (num_algos num_datasets : Z)
    (cout : list out_line) : result (list out_line) :=
  let fast_to_slow := std_sort (map_to_list total_times) in
  cout1 ← for_range 0 num_algos (fun i cout =>
             p ← index fast_to_slow i;
             mret (cout ++ [SummaryLine (i + 1) p.1 p.2 num_datasets]))
           (cout ++ [SummaryBanner]);
  mret (cout1 ++ [OutBlank]).

Definition render_results (result_times : gmap string (list Z))
    (num_algos num_datasets : Z) (cout : list out_line) : result (list out_line) :=
  for_range 0 num_datasets (fun i cout =>
      pairs ← for_each (map_to_list result_times) (fun entry fast_to_slow =>
                 t ← index entry.2 i; mret (fast_to_slow ++ [(entry.1, t)])) [];
      let fast_to_slow := std_sort pairs in
      cout1 ← for_range 0 num_algos (fun j cout =>
                 p ← index fast_to_slow j;
                 mret (cout ++ [ResultLine (j + 1) p.1 p.2]))
               (cout ++ [DatasetHeader (i + 1)]);
      mret (cout1 ++ [OutBlank]))
    (cout ++ [ResultsBanner]).

(** [argv[1]], read only when [argc == 2]. *)
Definition arg1 (argv : list string) : string := nth 1 argv ""%string.

Definition argc_of (argv : list string) : Z := Z.of_nat (length argv).

Definition summary_needed (argv : list string) : bool :=
  (argc_of argv =? 1) || ((argc_of argv =? 2) && String.eqb (arg1 argv) "summary").

Definition results_needed (argv : list string) : bool :=
  (argc_of argv =? 1) || ((argc_of argv =? 2) && String.eqb (arg1 argv) "results").

(** What a run of the program leaves: the value returned by [main], the
    two output streams, and [std::cin]. *)
Record run : Type := mk_run {
  ret : Z;
  cout : list out_line;
  cerr : list diagnostic;
  cin_after : istream
}.

Definition main (clk : clock_model) (fuel : nat) (argv : list string) (cin : istream)
  : result run :=
  let argc := argc_of argv in
  if (argc <? 1) || (argc >? 2) then
    mret {| ret := -1; cout := []; cerr := [Usage]; cin_after := cin |}
  else if (argc =? 2) && negb (String.eqb (arg1 argv) "results")
                      && negb (String.eqb (arg1 argv) "summary") then
    mret {| ret := -2; cout := []; cerr := [InvalidArgument]; cin_after := cin |}
  else
    let num_algos := to_int (Z.of_nat (length sort_algos)) in
    r ← read_in_datasets fuel cin [];
    let '(cin1, datasets, err) := r in
    let num_datasets := to_int (Z.of_nat (length datasets)) in
    st ← for_range 0 num_datasets
           (bench_dataset clk fuel (summary_needed argv) (results_needed argv))
           {| bs_datasets := datasets; bs_total_times := ∅;
              bs_result_times := reserve_result_times (results_needed argv);
              bs_clock := O; bs_cout := []; bs_measured := [] |};
    let out := bs_cout st ++ [OutBlank] in
    out1 ← (if summary_needed argv
            then render_summary (bs_total_times st) num_algos num_datasets out
            else mret out);
    out2 ← (if results_needed argv
            then render_results (bs_result_times st) num_algos num_datasets out1
            else mret out1);
    mret {| ret := 0; cout := out2; cerr := err; cin_after := cin1 |}.

(** The exit status a POSIX parent sees: the low eight bits of the value
    returned by [main]. *)
Definition exit_status (r : Z) : Z := r mod 256.

(** * Specification *)

(** The predicates, measures and auxiliary functions in which the
    properties of the program are stated. *)

(** ** Vectors *)

(** The vector after [v[i] = x], and after [std::swap(v[i], v[j])], for
    indices within the bounds. *)
Definition upd (v : vec) (i : Z) (x : Z) : vec := <[Z.to_nat i := x]> v.

Definition swapz (v : vec) (i j : Z) : vec := upd (upd v i (at_ v j)) j (at_ v i).

(** [v[lo..hi]] (both ends included) is in non-decreasing order. *)
Definition sorted_seg (v : vec) (lo hi : Z) : Prop :=
  forall i j, lo <= i -> i <= j -> j <= hi -> at_ v i <= at_ v j.

(** The whole vector is in non-decreasing order. *)
Definition sorted_vec (v : vec) : Prop := sorted_seg v 0 (vsize v - 1).

(** Number of elements of [l] below [x], and number of inversions of a
    list: the variant of the [while (swapped)] loop. *)
Fixpoint count_below (x : Z) (l : list Z) : nat :=
  match l with
  | [] => O
  | y :: r => ((if (y <? x)%Z then 1 else 0) + count_below x r)%nat
  end.

(** The pairs of positions of [l] that are out of order. *)
Fixpoint inversions (l : list Z) : nat :=
  match l with
  | [] => O
  | x :: r => (count_below x r + inversions r)%nat
  end.

(** [v[lo..hi]], both ends included. *)
Definition slice (v : vec) (lo hi : Z) : vec :=
  take (Z.to_nat (hi - lo + 1)) (drop (Z.to_nat lo) v).

(** Two vectors agree outside [lo..hi]. *)
Definition same_outside (v w : vec) (lo hi : Z) : Prop :=
  forall k, 0 <= k < vsize v -> k < lo \/ hi < k -> at_ w k = at_ v k.

(** State of the scan of [partition_sublist] once [v[start..j-1]] has been
    examined: [w[start..i]] holds the elements known to be at most the
    pivot and [w[i+1..j-1]] those above it. *)
Definition partition_inv (v : vec) (start end_ : Z) (j : Z) (s : vec * Z) : Prop :=
  let '(w, i) := s in
  vsize w = vsize v /\ Permutation v w /\ same_outside v w start (end_ - 1) /\
  start - 1 <= i < j /\
  (forall k, start <= k -> k <= i -> at_ w k <= at_ v end_) /\
  (forall k, i < k -> k < j -> at_ v end_ < at_ w k).

(** In [v[0..n-1]] every node [p >= lo] is at least as large as its
    children [2p+1] and [2p+2]. *)
Definition heap_from (v : vec) (n lo : Z) : Prop :=
  forall p c, lo <= p -> c = 2 * p + 1 \/ c = 2 * p + 2 -> c < n -> at_ v c <= at_ v p.

(** The same except at node [i], whose children are still below the
    parent of [i]: the state in which [max_heapify] is entered. *)
Definition heap_except (v : vec) (n lo i : Z) : Prop :=
  (forall p c, lo <= p -> p <> i -> c = 2 * p + 1 \/ c = 2 * p + 2 -> c < n ->
               at_ v c <= at_ v p) /\
  (forall p c, lo <= p -> i = 2 * p + 1 \/ i = 2 * p + 2 ->
               c = 2 * i + 1 \/ c = 2 * i + 2 -> c < n -> at_ v c <= at_ v p).

(** ** Sizes and termination *)

(** Largest vector each algorithm handles: its size must fit in the [int]
    the code converts it to; heap sort also computes the child index
    [2 * i + 2] for every [i] below the size. *)
Definition size_limit (name : string) : Z :=
  if String.eqb name "Heap Sort" then 2 ^ 30 - 1 else INT_MAX.

(** [run] returns [a]: every fuel from some point on gives [Ok a]. *)
Definition returns {A : Type} (run : nat -> result A) (a : A) : Prop :=
  exists fuel0 : nat, forall fuel : nat, (fuel0 <= fuel)%nat -> run fuel = Ok a.

(** Fuel that is enough for every algorithm on [S]. *)
Definition sort_fuel (S : vec) : nat := (Z.to_nat (vsize S) + inversions S + 2)%nat.

(** 2^31 elements: a one followed by zeros. *)
Definition oversized : vec := 1 :: repeat 0 (Z.to_nat (2 ^ 31 - 1)).

(** 2^30 elements: zeros followed by a one. *)
Definition heap_oversized : vec := repeat 0 (Z.to_nat (2 ^ 30 - 1)) ++ [1].

(** ** Lines and tokens *)

(** What [skip_ws] leaves is empty or starts with a character that is
    not whitespace. *)
Definition starts_word (l : list ascii) : Prop :=
  match l with
  | [] => True
  | c :: _ => is_space c = false
  end.

(** What follows a word is empty or starts with whitespace. *)
Definition ends_word (l : list ascii) : Prop :=
  match l with
  | [] => True
  | c :: _ => is_space c = true
  end.

(** Between two extractions the stream of a line is good, or it has
    reached its end. *)
Definition wf_stream (s : istream) : Prop :=
  (failbit s = true -> eofbit s = true) /\ (eofbit s = true -> buf s = []).

(** The whitespace-delimited tokens of a line, at most [n] of them. *)
Fixpoint spec_tokens_upto (n : nat) (l : list ascii) : list (list ascii) :=
  match n with
  | O => []
  | Datatypes.S n' =>
      match skip_ws l with
      | [] => []
      | l' => let '(w, rest) := take_word l' in w :: spec_tokens_upto n' rest
      end
  end.

(** The whitespace-delimited tokens of a line. *)
Definition spec_tokens (l : list ascii) : list (list ascii) :=
  spec_tokens_upto (length l) l.

(** A token as a signed integer: an optional sign and one or more digits,
    with a value that an [int] holds. *)
Definition spec_parse_int (tok : list ascii) : option Z :=
  let negative := match tok with c :: _ => Ascii.eqb c "-" | [] => false end in
  let signed := match tok with c :: _ => Ascii.eqb c "-" || Ascii.eqb c "+" | [] => false end in
  let body := if signed then tl tok else tok in
  let value := if negative then - digits_value body else digits_value body in
  if negb (is_nil body) && forallb is_digit body && (INT_MIN <=? value) && (value <=? INT_MAX)
  then Some value
  else None.

(** Every token in turn: its value is appended when it parses, and a
    diagnostic with its position is written when it does not. *)
Fixpoint spec_scan (linecount position : Z) (toks : list (list ascii))
  : vec * list diagnostic :=
  match toks with
  | [] => ([], [])
  | t :: r =>
      let '(d, e) := spec_scan linecount (position + 1) r in
      match spec_parse_int t with
      | Some value => (value :: d, e)
      | None => (d, ConvertError linecount position :: e)
      end
  end.

(** The dataset and the diagnostics of a line, as the specification has them. *)
Definition spec_read_line (linecount : Z) (l : list ascii) : vec * list diagnostic :=
  spec_scan linecount 1 (spec_tokens l).


(** The simplest of the tokens on which the extraction of the code and
    the reading of the specification agree: integers that an [int] holds,
    and tokens whose first character is neither a sign nor a digit. *)
Definition clean_token (tok : list ascii) : bool :=
  match spec_parse_int tok with
  | Some _ => true
  | None =>
      match tok with
      | c :: _ => negb (is_digit c) && negb (Ascii.eqb c "-") && negb (Ascii.eqb c "+")
      | [] => false
      end
  end.


(** ** The harness *)

(** The duration measured by two readings of the clock, the first of
    which is reading [c]. *)
Definition duration_at (clk : clock_model) (c : nat) : Z :=
  to_microseconds clk (now clk (Datatypes.S c) - now clk c).

(** What [bench_algo] leaves when the algorithm has returned. *)
Definition bench_record (clk : clock_model) (summary_needed results_needed : bool)
    (algo : string) (st : bench_state) : bench_state :=
  let duration := duration_at clk (bs_clock st) in
  {| bs_datasets := bs_datasets st;
     bs_total_times :=
       if summary_needed then
         match bs_total_times st !! algo with
         | None => <[algo := duration]> (bs_total_times st)
         | Some total => <[algo := total + duration]> (bs_total_times st)
         end
       else bs_total_times st;
     bs_result_times :=
       if results_needed then
         <[algo := default [] (bs_result_times st !! algo) ++ [duration]]>
           (bs_result_times st)
       else bs_result_times st;
     bs_clock := Datatypes.S (Datatypes.S (bs_clock st));
     bs_cout := bs_cout st;
     bs_measured := bs_measured st ++ [(algo, duration)] |}.

(** The names under which the algorithms are registered. *)
Definition algo_names : list string := map fst sort_algos.

(** Sum of the durations measured for [name]. *)
Fixpoint sum_for (name : string) (log : list (string * Z)) : Z :=
  match log with
  | [] => 0
  | (algo, duration) :: r =>
      (if String.eqb algo name then duration else 0) + sum_for name r
  end.

(** The invariant of the specification, between two datasets: every
    duration sequence has one entry per dataset processed, and every total
    is the sum of the durations measured for its algorithm. *)
Definition harness_inv (processed : Z) (st : bench_state) : Prop :=
  (forall name ts, bs_result_times st !! name = Some ts ->
                   Z.of_nat (length ts) = processed) /\
  (forall name total, bs_total_times st !! name = Some total ->
                      total = sum_for name (bs_measured st)).

(** The same with what makes it inductive, while the algorithms named in
    [todo] still have to run on the current dataset. *)
Definition times_inv (sn rn : bool) (processed : Z) (todo : list string)
    (st : bench_state) : Prop :=
  (forall name, is_Some (bs_result_times st !! name) -> name ∈ algo_names) /\
  (if rn then
     forall name, name ∈ algo_names ->
       exists ts, bs_result_times st !! name = Some ts /\
                  (name ∈ todo -> Z.of_nat (length ts) = processed) /\
                  (name ∉ todo -> Z.of_nat (length ts) = processed + 1)
   else bs_result_times st = ∅) /\
  (forall name, is_Some (bs_total_times st !! name) -> name ∈ algo_names) /\
  (if sn then
     (forall name, default 0 (bs_total_times st !! name) = sum_for name (bs_measured st)) /\
     (forall name, name ∈ algo_names -> name ∉ todo \/ 0 < processed ->
                   is_Some (bs_total_times st !! name))
   else bs_total_times st = ∅).

(** The banners in the output, in order: the reports that were begun. *)
Definition is_banner (o : out_line) : bool :=
  match o with
  | SummaryBanner | ResultsBanner => true
  | _ => false
  end.

(** The banners of an output. *)
Definition reports (out : list out_line) : list out_line := List.filter is_banner out.

(** Fuel that is enough for every algorithm on every dataset. *)
Definition datasets_fuel (ds : list vec) : nat :=
  fold_right (fun d acc => Nat.max (sort_fuel d) acc) O ds.

(** Every dataset is within the size limit of every algorithm. *)
Definition within_limits (ds : list vec) : Prop :=
  Forall (fun d => vsize d <= 2 ^ 30 - 1) ds.

(** The state after the algorithms of [l] have been timed. *)
Definition bench_entries_pure (clk : clock_model) (sn rn : bool)
    (l : list (string * SortFunction)) (st : bench_state) : bench_state :=
  fold_left (fun st (e : string * SortFunction) => bench_record clk sn rn e.1 st) l st.

(** The state after dataset [i] has been processed. *)
Definition bench_dataset_pure (clk : clock_model) (sn rn : bool) (i : Z)
    (st : bench_state) : bench_state :=
  bench_entries_pure clk sn rn sort_algos
    {| bs_datasets := bs_datasets st; bs_total_times := bs_total_times st;
       bs_result_times := bs_result_times st; bs_clock := bs_clock st;
       bs_cout := bs_cout st ++ [Progress (i + 1)];
       bs_measured := bs_measured st |}.

(** The state after [cnt] datasets have been processed, from dataset [i] on. *)
Fixpoint bench_count_pure (clk : clock_model) (sn rn : bool) (cnt : nat) (i : Z)
    (st : bench_state) : bench_state :=
  match cnt with
  | O => st
  | Datatypes.S c => bench_count_pure clk sn rn c (i + 1) (bench_dataset_pure clk sn rn i st)
  end.

(** The command lines that pass the two checks of [main]. *)
Definition accepted (argv : list string) : Prop :=
  argc_of argv = 1 \/
  (argc_of argv = 2 /\ (arg1 argv = "results"%string \/ arg1 argv = "summary"%string)).

(** The reports a command line asks for. *)
Definition reports_of (argv : list string) : list out_line :=
  (if summary_needed argv then [SummaryBanner] else []) ++
  (if results_needed argv then [ResultsBanner] else []).

(** What a run that timed every algorithm on every dataset prints. *)
Definition run_output (clk : clock_model) (sn rn : bool) (datasets : list vec)
  : result (list out_line) :=
  let num_datasets := Z.of_nat (length datasets) in
  let st := bench_count_pure clk sn rn (Z.to_nat (num_datasets - 0)) 0
              {| bs_datasets := datasets; bs_total_times := ∅;
                 bs_result_times := reserve_result_times rn;
                 bs_clock := O; bs_cout := []; bs_measured := [] |} in
  let out := bs_cout st ++ [OutBlank] in
  out1 ← (if sn then render_summary (bs_total_times st) 7 num_datasets out
          else mret out);
  (if rn then render_results (bs_result_times st) 7 num_datasets out1 else mret out1).

(** The variables of [main] when the timing loop is entered. *)
Definition bench_init (rn : bool) (datasets : list vec) : bench_state :=
  {| bs_datasets := datasets; bs_total_times := ∅;
     bs_result_times := reserve_result_times rn;
     bs_clock := O; bs_cout := []; bs_measured := [] |}.

(** [loop_state clk fuel sn rn datasets i st]: the timing loop of [main]
    reaches the test [i < num_datasets] in state [st], datasets [0 .. i-1]
    having been processed. *)
Inductive loop_state (clk : clock_model) (fuel : nat) (sn rn : bool)
    (datasets : list vec) : Z -> bench_state -> Prop :=
| loop_enter : loop_state clk fuel sn rn datasets 0 (bench_init rn datasets)
| loop_next (i : Z) (st st' : bench_state) :
    loop_state clk fuel sn rn datasets i st ->
    bench_dataset clk fuel sn rn i st = Ok st' ->
    loop_state clk fuel sn rn datasets (i + 1) st'.

(** A clock for examples: reading [k] is at [1000 * k * k] nanoseconds, so
    that no two measurements are equal. *)
Definition example_clock : clock_model :=
  {| now := fun k => 1000 * Z.of_nat k * Z.of_nat k;
     to_microseconds := fun d => Z.quot d 1000 |}.

(** ** Rankings *)

(** The lines of a ranking, the first of them with index [i]. *)
Fixpoint rank_from (mk : Z -> string * Z -> out_line) (i : Z) (l : list (string * Z))
  : list out_line :=
  match l with
  | [] => []
  | p :: r => mk i p :: rank_from mk (i + 1) r
  end.

(** The order of a ranking: times do not decrease. *)
Definition by_time (p q : string * Z) : Prop := p.2 <= q.2.

(** The summary as it is printed when it is printed whole. *)
Definition summary_block (total_times : gmap string Z) (num_algos num_datasets : Z)
  : list out_line :=
  [SummaryBanner] ++
  rank_from (fun i p => SummaryLine (i + 1) p.1 p.2 num_datasets) 0
    (take (Z.to_nat num_algos) (std_sort (map_to_list total_times))) ++
  [OutBlank].

(** The pairs of algorithm and duration on dataset [i], in the order in
    which the map of the durations is traversed. *)
Definition times_at (result_times : gmap string (list Z)) (i : Z) : list (string * Z) :=
  map (fun e : string * list Z => (e.1, nth (Z.to_nat i) e.2 0)) (map_to_list result_times).

(** The block of dataset [i] in the results, and the results. *)
Definition dataset_block (result_times : gmap string (list Z)) (num_algos i : Z)
  : list out_line :=
  [DatasetHeader (i + 1)] ++
  rank_from (fun j p => ResultLine (j + 1) p.1 p.2) 0
    (take (Z.to_nat num_algos) (std_sort (times_at result_times i))) ++
  [OutBlank].

Definition results_block (result_times : gmap string (list Z)) (num_algos num_datasets : Z)
  : list out_line :=
  [ResultsBanner] ++
  flat_map (fun k => dataset_block result_times num_algos (Z.of_nat k))
    (seq 0 (Z.to_nat num_datasets)).

(** ** The log of the timing loop *)

(** The durations measured for [name], in the order of measurement. *)
Fixpoint times_for (name : string) (log : list (string * Z)) : list Z :=
  match log with
  | [] => []
  | (algo, duration) :: r =>
      if String.eqb algo name then duration :: times_for name r else times_for name r
  end.

(** The measurements of the algorithms of [l] on one dataset, the first
    of them begun at reading [c] of the clock: every algorithm takes two
    readings. *)
Fixpoint measure_from (clk : clock_model) (c : nat) (l : list (string * SortFunction))
  : list (string * Z) :=
  match l with
  | [] => []
  | e :: r => (e.1, duration_at clk c) :: measure_from clk (Datatypes.S (Datatypes.S c)) r
  end.

(** The durations of the [n] first measurements of a run, in the order in
    which they are made: measurement [j] lies between the readings [2 * j]
    and [2 * j + 1] of the clock. *)
Definition durations (clk : clock_model) (n : nat) : list Z :=
  map (fun j => duration_at clk (2 * j)) (seq 0 n).

(** The measurements of dataset [k] in a log. *)
Definition log_of_dataset (log : list (string * Z)) (k : nat) : list (string * Z) :=
  take (length algo_names) (drop (length algo_names * k) log).

(** [log] is what a timing loop measures on [n] datasets, whatever the
    order in which it traverses the table of the algorithms: the durations
    are those that the clock gives, in order, and the measurements of each
    dataset are one for each registered algorithm. *)
Definition timing_log (clk : clock_model) (n : nat) (log : list (string * Z)) : Prop :=
  map snd log = durations clk (length algo_names * n) /\
  forall k, (k < n)%nat -> Permutation (map fst (log_of_dataset log k)) algo_names.

(** The progress lines of [n] datasets. *)
Definition progress_lines (n : nat) : list out_line :=
  map (fun k => Progress (Z.of_nat k + 1)) (seq 0 n).

(** What a run prints on [std::cout] when the timing loop has ended in
    state [st]: the progress lines, a blank line, and the reports that the
    command line selects. *)
Definition output_of (argv : list string) (num_datasets : nat) (st : bench_state)
  : list out_line :=
  progress_lines num_datasets ++ [OutBlank] ++
  (if summary_needed argv
   then summary_block (bs_total_times st) 7 (Z.of_nat num_datasets) else []) ++
  (if results_needed argv
   then results_block (bs_result_times st) 7 (Z.of_nat num_datasets) else []).

(** [ranking] ranks the registered algorithms by [time]: it holds each of
    them once, with its time, and the times do not decrease.  Nothing is
    said of the order of algorithms with equal times. *)
Definition ranks (time : string -> Z) (ranking : list (string * Z)) : Prop :=
  Permutation ranking (map (fun name => (name, time name)) algo_names) /\
  StronglySorted by_time ranking.

(** The lines of the summary for a ranking of the totals. *)
Definition summary_lines (ranking : list (string * Z)) (num_datasets : Z)
  : list out_line :=
  [SummaryBanner] ++
  rank_from (fun i p => SummaryLine (i + 1) p.1 p.2 num_datasets) 0 ranking ++
  [OutBlank].

(** The lines of the results for the rankings of the datasets, the first
    of which is dataset [k], counted from 0. *)
Fixpoint dataset_lines (k : nat) (rankings : list (list (string * Z))) : list out_line :=
  match rankings with
  | [] => []
  | ranking :: r =>
      [DatasetHeader (Z.of_nat k + 1)] ++
      rank_from (fun j p => ResultLine (j + 1) p.1 p.2) 0 ranking ++
      [OutBlank] ++ dataset_lines (Datatypes.S k) r
  end.

Definition results_lines (rankings : list (list (string * Z))) : list out_line :=
  [ResultsBanner] ++ dataset_lines 0 rankings.

(** A token on which the extraction of an [int] fails after it has read
    the token to its end: a sign alone, or a number that an [int] does not
    hold. *)
Definition swallowing (tok : list ascii) : bool :=
  match tok with
  | [] => false
  | c :: r =>
      let negative := Ascii.eqb c "-" in
      let signed := negative || Ascii.eqb c "+" in
      let body := if signed then r else tok in
      let value := if negative then - digits_value body else digits_value body in
      forallb is_digit body &&
      (if is_nil body then signed else (value <? INT_MIN) || (INT_MAX <? value))
  end.

(** A run of characters without whitespace, and a run of whitespace. *)
Definition is_word (w : list ascii) : Prop :=
  w <> [] /\ forallb (fun c => negb (is_space c)) w = true.

Definition is_blank (ws : list ascii) : Prop :=
  ws <> [] /\ forallb is_space ws = true.



(** ** Whole inputs *)

(** The diagnostic [x] names a line from [lo] to [hi] and a position
    from 1. *)
Definition names_line (lo hi : Z) (x : diagnostic) : Prop :=
  exists l p, x = ConvertError l p /\ lo <= l <= hi /\ 1 <= p.

(** What [read_in_datasets] writes to [std::cerr] when the diagnostics of
    its lines are [e]: a blank line follows them when there is one. *)
Definition with_blank (e : list diagnostic) : list diagnostic :=
  if is_nil e then [] else e ++ [ErrBlank].

(** Lines, each followed by a newline. *)
Definition input_of (lines : list (list ascii)) : list ascii :=
  flat_map (fun l => l ++ [newline]) lines.

(** The datasets and the diagnostics of lines, the first of which is line
    [linecount], as the specification has them. *)
Fixpoint spec_read_lines (linecount : Z) (lines : list (list ascii))
  : list vec * list diagnostic :=
  match lines with
  | [] => ([], [])
  | l :: r =>
      let '(d, e) := spec_read_line linecount l in
      let '(ds, es) := spec_read_lines (linecount + 1) r in
      (d :: ds, e ++ es)
  end.

(** A line that [read_in_datasets] reads as the specification says: not
    empty, without a newline, made of clean tokens. *)
Definition clean_line (l : list ascii) : Prop :=
  l <> [] /\ forallb (fun c => negb (Ascii.eqb c newline)) l = true /\
  Forall (fun t => clean_token t = true) (spec_tokens l).

(** * Verification *)

(** ** Machine integers *)

Lemma to_int_small (z : Z) : INT_MIN <= z <= INT_MAX -> to_int z = z.
Proof.
  unfold INT_MIN, INT_MAX, to_int. intros H.
  rewrite Z.mod_small by lia. lia.
Qed.

Lemma to_int_range (z : Z) : INT_MIN <= to_int z <= INT_MAX.
Proof.
  unfold INT_MIN, INT_MAX, to_int.
  pose proof (Z.mod_pos_bound (z + 2 ^ 31) (2 ^ 32)). lia.
Qed.

Lemma int_check_ok (z : Z) : INT_MIN <= z <= INT_MAX -> int_check z = Ok z.
Proof.
  unfold int_check. intros H.
  destruct (Z.leb_spec INT_MIN z), (Z.leb_spec z INT_MAX); simpl; auto; lia.
Qed.

Lemma int_check_overflow (z : Z) : INT_MAX < z -> int_check z = Err Overflow.
Proof.
  unfold int_check. intros H.
  destruct (Z.leb_spec z INT_MAX); [lia|]. now rewrite andb_false_r.
Qed.

(** ** Vectors *)

Lemma vsize_nonneg (v : vec) : 0 <= vsize v.
Proof. unfold vsize. lia. Qed.

Lemma in_bounds_true (v : vec) (i : Z) : 0 <= i < vsize v -> in_bounds v i = true.
Proof.
  unfold in_bounds. intros H.
  destruct (Z.leb_spec 0 i), (Z.ltb_spec i (vsize v)); simpl; auto; lia.
Qed.

Lemma in_bounds_false (v : vec) (i : Z) : ~ (0 <= i < vsize v) -> in_bounds v i = false.
Proof.
  unfold in_bounds. intros H.
  destruct (Z.leb_spec 0 i), (Z.ltb_spec i (vsize v)); simpl; auto; lia.
Qed.

Lemma get_ok (v : vec) (i : Z) : 0 <= i < vsize v -> get v i = Ok (at_ v i).
Proof. intros H. unfold get. now rewrite in_bounds_true. Qed.

Lemma put_ok (v : vec) (i x : Z) : 0 <= i < vsize v -> put v i x = Ok (upd v i x).
Proof. intros H. unfold put. now rewrite in_bounds_true. Qed.

Lemma vsize_upd (v : vec) (i x : Z) : vsize (upd v i x) = vsize v.
Proof. unfold vsize, upd. now rewrite length_insert. Qed.

Lemma at_upd_eq (v : vec) (i x : Z) : 0 <= i < vsize v -> at_ (upd v i x) i = x.
Proof.
  unfold at_, upd, vsize. intros H.
  rewrite nth_lookup, list_lookup_insert_eq; [reflexivity | lia].
Qed.

Lemma at_upd_ne (v : vec) (i k x : Z) :
  0 <= i -> 0 <= k -> k <> i -> at_ (upd v i x) k = at_ v k.
Proof.
  unfold at_, upd. intros Hi Hk Hne.
  rewrite !nth_lookup, list_lookup_insert_ne; [reflexivity | lia].
Qed.

Lemma swap_ok (v : vec) (i j : Z) :
  0 <= i < vsize v -> 0 <= j < vsize v -> swap v i j = Ok (swapz v i j).
Proof.
  intros Hi Hj. unfold swap.
  rewrite (get_ok v i), bind_Ok, (get_ok v j), bind_Ok by assumption.
  rewrite put_ok, bind_Ok by assumption.
  rewrite put_ok by (rewrite vsize_upd; assumption).
  reflexivity.
Qed.

Lemma vsize_swapz (v : vec) (i j : Z) : vsize (swapz v i j) = vsize v.
Proof. unfold swapz. now rewrite !vsize_upd. Qed.

Lemma at_swapz_l (v : vec) (i j : Z) :
  0 <= i < vsize v -> 0 <= j < vsize v -> at_ (swapz v i j) i = at_ v j.
Proof.
  intros Hi Hj. unfold swapz.
  destruct (Z.eq_dec i j) as [->|Hne].
  - rewrite at_upd_eq; [reflexivity | now rewrite vsize_upd].
  - rewrite at_upd_ne by lia. now rewrite at_upd_eq.
Qed.

Lemma at_swapz_r (v : vec) (i j : Z) :
  0 <= i < vsize v -> 0 <= j < vsize v -> at_ (swapz v i j) j = at_ v i.
Proof.
  intros Hi Hj. unfold swapz.
  rewrite at_upd_eq; [reflexivity | now rewrite vsize_upd].
Qed.

Lemma at_swapz_other (v : vec) (i j k : Z) :
  0 <= i -> 0 <= j -> 0 <= k -> k <> i -> k <> j -> at_ (swapz v i j) k = at_ v k.
Proof.
  intros Hi Hj Hk Hki Hkj. unfold swapz.
  now rewrite !at_upd_ne by lia.
Qed.

Lemma swapz_same (v : vec) (i : Z) : swapz v i i = v.
Proof.
  unfold swapz, upd, at_.
  rewrite list_insert_insert_eq.
  apply list_eq. intros k.
  destruct (decide (k = Z.to_nat i)) as [->|Hne].
  - destruct (v !! Z.to_nat i) eqn:E.
    + rewrite list_lookup_insert_eq by (eapply lookup_lt_Some; eauto).
      rewrite nth_lookup, E. reflexivity.
    + rewrite list_insert_ge; [assumption|]. now apply lookup_ge_None.
  - now rewrite list_lookup_insert_ne by congruence.
Qed.

Lemma insert_head_perm (l : list Z) (a : Z) (j : nat) :
  (j < length l)%nat -> Permutation (a :: l) (nth j l 0 :: <[j := a]> l).
Proof.
  revert j. induction l as [|b l IH]; intros j Hj; simpl in Hj; [lia|].
  destruct j as [|j]; simpl.
  - apply perm_swap.
  - etransitivity; [apply perm_swap|].
    etransitivity; [apply perm_skip, (IH j); lia|].
    apply perm_swap.
Qed.

Lemma swap_perm_nat (l : list Z) (i j : nat) :
  (i < length l)%nat -> (j < length l)%nat ->
  Permutation l (<[j := nth i l 0]> (<[i := nth j l 0]> l)).
Proof.
  revert i j. induction l as [|a l IH]; intros i j Hi Hj; simpl in *; [lia|].
  destruct i as [|i], j as [|j]; simpl.
  - reflexivity.
  - apply insert_head_perm. lia.
  - symmetry. etransitivity; [|symmetry; apply (insert_head_perm l a i); lia].
    reflexivity.
  - apply perm_skip, IH; lia.
Qed.

Lemma swapz_perm (v : vec) (i j : Z) :
  0 <= i < vsize v -> 0 <= j < vsize v -> Permutation v (swapz v i j).
Proof.
  unfold vsize, swapz, upd, at_. intros Hi Hj.
  apply swap_perm_nat; lia.
Qed.

Lemma vec_ext (v w : vec) :
  vsize v = vsize w -> (forall k, 0 <= k < vsize v -> at_ v k = at_ w k) -> v = w.
Proof.
  unfold vsize, at_. intros Hlen H.
  apply (nth_ext v w 0 0); [lia|].
  intros n Hn. specialize (H (Z.of_nat n)).
  rewrite Nat2Z.id in H. apply H. lia.
Qed.

(** ** Loop rules *)

Lemma for_count_rule {S : Type} (I : Z -> S -> Prop) (body : Z -> S -> result S) :
  forall (cnt : nat) (i : Z) (s : S),
    I i s ->
    (forall k s, i <= k < i + Z.of_nat cnt -> I k s ->
                 exists s', body k s = Ok s' /\ I (k + 1) s') ->
    exists s', for_count cnt i body s = Ok s' /\ I (i + Z.of_nat cnt) s'.
Proof.
  induction cnt as [|cnt IH]; intros i s Hi Hstep.
  - exists s. simpl. rewrite Z.add_0_r. auto.
  - destruct (Hstep i s ltac:(lia) Hi) as (s1 & Hb & H1).
    destruct (IH (i + 1) s1 H1) as (s2 & Hf & H2).
    { intros k s0 Hk. apply Hstep. lia. }
    exists s2. split.
    + simpl. rewrite Hb. exact Hf.
    + replace (i + Z.of_nat (Datatypes.S cnt)) with (i + 1 + Z.of_nat cnt) by lia.
      exact H2.
Qed.

Lemma for_range_rule {S : Type} (I : Z -> S -> Prop) (lo hi : Z)
    (body : Z -> S -> result S) (s : S) :
  lo <= hi ->
  I lo s ->
  (forall k s, lo <= k < hi -> I k s -> exists s', body k s = Ok s' /\ I (k + 1) s') ->
  exists s', for_range lo hi body s = Ok s' /\ I hi s'.
Proof.
  intros Hle Hi Hstep. unfold for_range.
  destruct (for_count_rule I body (Z.to_nat (hi - lo)) lo s Hi) as (s' & Hf & H').
  - intros k s0 Hk. apply Hstep. lia.
  - exists s'. split; [exact Hf|].
    replace hi with (lo + Z.of_nat (Z.to_nat (hi - lo))) by lia. exact H'.
Qed.

Lemma for_range_empty {S : Type} (lo hi : Z) (body : Z -> S -> result S) (s : S) :
  hi <= lo -> for_range lo hi body s = Ok s.
Proof.
  intros H. unfold for_range.
  replace (Z.to_nat (hi - lo)) with O by lia. reflexivity.
Qed.

Lemma for_count_down_rule {S : Type} (I : Z -> S -> Prop) (body : Z -> S -> result S) :
  forall (cnt : nat) (i : Z) (s : S),
    I i s ->
    (forall k s, i - Z.of_nat cnt < k <= i -> I k s ->
                 exists s', body k s = Ok s' /\ I (k - 1) s') ->
    exists s', for_count_down cnt i body s = Ok s' /\ I (i - Z.of_nat cnt) s'.
Proof.
  induction cnt as [|cnt IH]; intros i s Hi Hstep.
  - exists s. simpl. rewrite Z.sub_0_r. auto.
  - destruct (Hstep i s ltac:(lia) Hi) as (s1 & Hb & H1).
    destruct (IH (i - 1) s1 H1) as (s2 & Hf & H2).
    { intros k s0 Hk. apply Hstep. lia. }
    exists s2. split.
    + simpl. rewrite Hb. exact Hf.
    + replace (i - Z.of_nat (Datatypes.S cnt)) with (i - 1 - Z.of_nat cnt) by lia.
      exact H2.
Qed.

Lemma for_down_rule {S : Type} (I : Z -> S -> Prop) (hi lo : Z)
    (body : Z -> S -> result S) (s : S) :
  lo - 1 <= hi ->
  I hi s ->
  (forall k s, lo <= k <= hi -> I k s -> exists s', body k s = Ok s' /\ I (k - 1) s') ->
  exists s', for_down hi lo body s = Ok s' /\ I (lo - 1) s'.
Proof.
  intros Hle Hi Hstep. unfold for_down.
  destruct (for_count_down_rule I body (Z.to_nat (hi - lo + 1)) hi s Hi) as (s' & Hf & H').
  - intros k s0 Hk. apply Hstep. lia.
  - exists s'. split; [exact Hf|].
    replace (lo - 1) with (hi - Z.of_nat (Z.to_nat (hi - lo + 1))) by lia. exact H'.
Qed.

Lemma for_down_empty {S : Type} (hi lo : Z) (body : Z -> S -> result S) (s : S) :
  hi < lo -> for_down hi lo body s = Ok s.
Proof.
  intros H. unfold for_down.
  replace (Z.to_nat (hi - lo + 1)) with O by lia. reflexivity.
Qed.

(** Total correctness of a [while] loop: an invariant [I] and a variant
    [m] that is non-negative on the invariant and decreases with every
    iteration; any fuel above the variant is enough. *)
Lemma while_rule {S : Type} (I : S -> Prop) (m : S -> Z)
    (cond : S -> result bool) (body : S -> result S) :
  (forall s, I s ->
     0 <= m s /\
     exists b, cond s = Ok b /\
       (b = true -> exists s', body s = Ok s' /\ I s' /\ m s' < m s)) ->
  forall (fuel : nat) (s : S),
    I s -> m s < Z.of_nat fuel ->
    exists s', while_loop fuel cond body s = Ok s' /\ I s' /\ cond s' = Ok false.
Proof.
  intros Hstep. induction fuel as [|fuel IH]; intros s Hi Hm.
  - destruct (Hstep s Hi) as (H0 & _). lia.
  - destruct (Hstep s Hi) as (H0 & b & Hc & Hb). simpl. rewrite Hc, bind_Ok.
    destruct b.
    + destruct (Hb eq_refl) as (s1 & Hbody & Hi1 & Hm1).
      rewrite Hbody, bind_Ok. apply IH; [exact Hi1 | lia].
    + exists s. auto.
Qed.

Lemma while_loop_ext {S : Type} (cond cond' : S -> result bool)
    (body body' : S -> result S) :
  (forall s, cond s = cond' s) -> (forall s, body s = body' s) ->
  forall fuel s, while_loop fuel cond body s = while_loop fuel cond' body' s.
Proof.
  intros Hc Hb. induction fuel as [|fuel IH]; intros s; simpl; [reflexivity|].
  rewrite Hc. destruct (cond' s) as [[|]|e]; simpl; try reflexivity.
  rewrite Hb. destruct (body' s) as [s'|e]; simpl; [apply IH | reflexivity].
Qed.

Lemma for_count_ext {S : Type} (body body' : Z -> S -> result S) :
  (forall i s, body i s = body' i s) ->
  forall cnt i s, for_count cnt i body s = for_count cnt i body' s.
Proof.
  intros Hb. induction cnt as [|cnt IH]; intros i s; simpl; [reflexivity|].
  rewrite Hb. destruct (body' i s) as [s'|e]; simpl; [apply IH | reflexivity].
Qed.

(** ** Sortedness *)

Lemma at_cons_succ (a : Z) (l : vec) (k : Z) : 0 <= k -> at_ (a :: l) (k + 1) = at_ l k.
Proof.
  intros Hk. unfold at_.
  replace (Z.to_nat (k + 1)) with (Datatypes.S (Z.to_nat k)) by lia. reflexivity.
Qed.

Lemma at_In (v : vec) (x : Z) : In x v -> exists k, 0 <= k < vsize v /\ at_ v k = x.
Proof.
  intros Hin. destruct (In_nth v x 0 Hin) as (n & Hn & Hx).
  exists (Z.of_nat n). unfold vsize, at_. rewrite Nat2Z.id. split; [lia | exact Hx].
Qed.

Lemma In_at (v : vec) (k : Z) : 0 <= k < vsize v -> In (at_ v k) v.
Proof. unfold vsize, at_. intros H. apply nth_In. lia. Qed.

Lemma sorted_vec_StronglySorted (v : vec) : sorted_vec v -> StronglySorted Z.le v.
Proof.
  unfold sorted_vec. induction v as [|a l IH]; intros Hs; constructor.
  - apply IH. intros i j Hi Hij Hj.
    rewrite <- (at_cons_succ a l i), <- (at_cons_succ a l j) by lia.
    apply Hs; unfold vsize in *; simpl length in *; lia.
  - apply List.Forall_forall. intros x Hx.
    destruct (at_In l x Hx) as (k & Hk & <-).
    rewrite <- (at_cons_succ a l k) by lia.
    change a with (at_ (a :: l) 0) at 1.
    apply Hs; unfold vsize in *; simpl length in *; lia.
Qed.

Lemma sorted_vec_Sorted (v : vec) : sorted_vec v -> Sorted Z.le v.
Proof. intros H. apply StronglySorted_Sorted, sorted_vec_StronglySorted, H. Qed.

Lemma Permutation_vsize (v w : vec) : Permutation v w -> vsize v = vsize w.
Proof. intros H. unfold vsize. now rewrite (Permutation_length H). Qed.

Lemma at_swapz (v : vec) (i j k : Z) :
  0 <= i < vsize v -> 0 <= j < vsize v -> 0 <= k ->
  at_ (swapz v i j) k =
    if k =? j then at_ v i else if k =? i then at_ v j else at_ v k.
Proof.
  intros Hi Hj Hk.
  destruct (Z.eqb_spec k j) as [->|Hkj]; [now apply at_swapz_r|].
  destruct (Z.eqb_spec k i) as [->|Hki]; [now apply at_swapz_l|].
  apply at_swapz_other; lia.
Qed.

(** Rewrites every read of a swapped vector and splits on the index. *)
Ltac swap_cases :=
  rewrite ?at_swapz by lia;
  repeat match goal with
         | |- context [Z.eqb ?a ?b] => destruct (Z.eqb_spec a b); try subst
         end.

(** Identifies index variables that the context forces to be equal. *)
Ltac merge_idx :=
  repeat match goal with
         | x : Z, y : Z |- _ =>
             tryif constr_eq x y then fail
             else (assert (x = y) by lia; subst x)
         end.

(** Closes an inequality between two reads with one of the hypotheses. *)
Ltac hyp_le :=
  solve [ lia
        | match goal with H : _ |- _ <= _ => apply H; lia end
        | merge_idx; match goal with H : _ |- _ <= _ => apply H; lia end ].

(** ** Insertion sort *)

Section InsertionInner.
Variables (v0 : vec) (i : Z).
Hypothesis Hi : 0 <= i < vsize v0.

(** Invariant of the inner loop while [v[i]] sinks to its place. *)
Definition insertion_inv (s : vec * Z) : Prop :=
  let '(w, j) := s in
  vsize w = vsize v0 /\ Permutation v0 w /\ 0 <= j <= i /\
  sorted_seg w 0 (j - 1) /\ sorted_seg w j i /\
  (forall a b, 0 <= a -> a < j -> j < b -> b <= i -> at_ w a <= at_ w b).

Lemma insertion_inv_step (s : vec * Z) :
  insertion_inv s ->
  0 <= snd s /\
  exists b, insertion_cond s = Ok b /\
    (b = true ->
     exists s', insertion_body s = Ok s' /\ insertion_inv s' /\ snd s' < snd s).
Proof.
  destruct s as [w j]. intros (Hsz & Hperm & Hj & Hlo & Hhi & Hcross). simpl.
  split; [lia|].
  destruct (Z.gtb_spec j 0) as [Hpos|Hnp].
  - rewrite (get_ok w (j - 1)), bind_Ok, (get_ok w j), bind_Ok by lia.
    eexists. split; [reflexivity|]. intros Hgt.
    change (mret (at_ w (j - 1) >? at_ w j)) with (Ok (at_ w (j - 1) >? at_ w j)) in Hgt.
    assert (Hlt : at_ w j < at_ w (j - 1)).
    { destruct (Z.gtb_spec (at_ w (j - 1)) (at_ w j)); [lia | discriminate]. }
    rewrite swap_ok, bind_Ok by lia.
    eexists. split; [reflexivity|]. split; [|simpl; lia].
    unfold insertion_inv. rewrite vsize_swapz.
    split; [exact Hsz|]. split.
    { etransitivity; [exact Hperm|]. apply swapz_perm; lia. }
    split; [lia|]. split; [|split].
    + intros a b Ha Hab Hb.
      rewrite (at_swapz_other w j (j - 1) a), (at_swapz_other w j (j - 1) b) by lia.
      apply Hlo; lia.
    + intros a b Ha Hab Hb. swap_cases; try lia.
      * pose proof (Hhi j b). lia.
      * pose proof (Hcross (j - 1) b). lia.
      * apply Hhi; lia.
    + intros a b Ha Haj Hjb Hb. swap_cases; try lia.
      * apply Hlo; lia.
      * apply Hcross; lia.
  - exists false. split; [reflexivity | discriminate].
Qed.

Lemma insertion_inv_exit (w : vec) (j : Z) :
  insertion_inv (w, j) -> insertion_cond (w, j) = Ok false -> sorted_seg w 0 i.
Proof.
  intros (Hsz & Hperm & Hj & Hlo & Hhi & Hcross) Hc. simpl in Hc.
  intros a b Ha Hab Hb.
  destruct (Z.gtb_spec j 0) as [Hpos|Hnp].
  - rewrite (get_ok w (j - 1)), bind_Ok, (get_ok w j), bind_Ok in Hc by lia.
    assert (Hle : at_ w (j - 1) <= at_ w j).
    { destruct (Z.gtb_spec (at_ w (j - 1)) (at_ w j)); [discriminate | lia]. }
    destruct (Z_lt_le_dec b j) as [Hbj|Hbj]; [apply Hlo; lia|].
    destruct (Z_lt_le_dec a j) as [Haj|Haj]; [|apply Hhi; lia].
    pose proof (Hlo a (j - 1)). pose proof (Hhi j b). lia.
  - apply Hhi; lia.
Qed.
End InsertionInner.

Lemma insertion_inner_correct (fuel : nat) (v0 w : vec) (i : Z) :
  0 <= i < vsize v0 -> i < Z.of_nat fuel ->
  vsize w = vsize v0 -> Permutation v0 w -> sorted_seg w 0 (i - 1) ->
  exists s', while_loop fuel insertion_cond insertion_body (w, i) = Ok s' /\
             vsize (fst s') = vsize v0 /\ Permutation v0 (fst s') /\
             sorted_seg (fst s') 0 i.
Proof.
  intros Hi Hfuel Hsz Hperm Hsorted.
  destruct (while_rule (insertion_inv v0 i) snd insertion_cond insertion_body
              (insertion_inv_step v0 i Hi) fuel (w, i)) as ([w' j] & Hrun & Hinv & Hc).
  - unfold insertion_inv. repeat split; auto; try lia.
    intros a b Ha Hab Hb. assert (a = b) as -> by lia. lia.
  - simpl. lia.
  - exists (w', j). split; [exact Hrun|].
    pose proof Hinv as (Hsz' & Hperm' & _). simpl. repeat split; auto.
    eapply insertion_inv_exit; eauto.
Qed.

Lemma insertion_sort_correct (fuel : nat) (v : vec) :
  vsize v <= INT_MAX -> vsize v < Z.of_nat fuel ->
  exists w, insertion_sort fuel v = Ok w /\ Permutation v w /\ sorted_vec w.
Proof.
  intros Hmax Hfuel. unfold insertion_sort.
  rewrite to_int_small by (pose proof (vsize_nonneg v); unfold INT_MIN; lia).
  destruct (Z_le_gt_dec (vsize v) 1) as [Hsmall|Hbig].
  - rewrite for_range_empty by lia. exists v. repeat split; auto.
    intros i j Hi Hij Hj. assert (i = j) as -> by lia. lia.
  - destruct (for_range_rule
      (fun i w => vsize w = vsize v /\ Permutation v w /\ sorted_seg w 0 (i - 1))
      1 (vsize v)
      (fun i v => s ← while_loop fuel insertion_cond insertion_body (v, i); mret (fst s))
      v) as (w & Hrun & Hsz & Hperm & Hsorted).
    + lia.
    + repeat split; auto. intros i j Hi Hij Hj. assert (i = j) as -> by lia. lia.
    + intros k w Hk (Hsz & Hperm & Hsorted).
      destruct (insertion_inner_correct fuel v w k) as (s' & Hrun & Hsz' & Hperm' & Hs');
        auto; try lia.
      rewrite Hrun, bind_Ok. exists (fst s'). split; [reflexivity|].
      replace (k + 1 - 1) with k by lia. auto.
    + exists w. repeat split; auto. unfold sorted_vec. now rewrite Hsz.
Qed.

(** ** Selection sort *)

Lemma selection_min_correct (w : vec) (i : Z) :
  0 <= i < vsize w ->
  exists m, for_range (i + 1) (vsize w) (selection_min w) i = Ok m /\
            i <= m < vsize w /\
            (forall k, i <= k < vsize w -> at_ w m <= at_ w k).
Proof.
  intros Hi.
  destruct (for_range_rule
    (fun j m => i <= m < j /\ forall k, i <= k < j -> at_ w m <= at_ w k)
    (i + 1) (vsize w) (selection_min w) i) as (m & Hrun & Hm & Hmin).
  - lia.
  - split; [lia|]. intros k Hk. assert (k = i) as -> by lia. lia.
  - intros j m Hj (Hm & Hmin). unfold selection_min.
    rewrite (get_ok w j), bind_Ok, (get_ok w m), bind_Ok by lia.
    eexists. split; [reflexivity|].
    destruct (Z.ltb_spec (at_ w j) (at_ w m)) as [Hlt|Hge].
    + split; [lia|]. intros k Hk.
      destruct (Z.eq_dec k j) as [->|Hne]; [lia|].
      pose proof (Hmin k). lia.
    + split; [lia|]. intros k Hk.
      destruct (Z.eq_dec k j) as [->|Hne]; [lia|].
      apply Hmin. lia.
  - exists m. split; [exact Hrun|]. split; [lia | exact Hmin].
Qed.

Lemma selection_sort_correct (fuel : nat) (v : vec) :
  vsize v <= INT_MAX ->
  exists w, selection_sort fuel v = Ok w /\ Permutation v w /\ sorted_vec w.
Proof.
  intros Hmax. unfold selection_sort.
  rewrite to_int_small by (pose proof (vsize_nonneg v); unfold INT_MIN; lia).
  destruct (Z_le_gt_dec (vsize v) 1) as [Hsmall|Hbig].
  - rewrite for_range_empty by lia. exists v. repeat split; auto.
    intros i j Hi Hij Hj. assert (i = j) as -> by lia. lia.
  - destruct (for_range_rule
      (fun i w => vsize w = vsize v /\ Permutation v w /\ sorted_seg w 0 (i - 1) /\
                  forall a b, 0 <= a -> a < i -> i <= b -> b < vsize v ->
                              at_ w a <= at_ w b)
      0 (vsize v - 1)
      (fun i w => min ← for_range (i + 1) (vsize v) (selection_min w) i;
                  if negb (min =? i) then swap w i min else mret w)
      v) as (w & Hrun & Hsz & Hperm & Hsorted & Hcross).
    + lia.
    + repeat split; auto; try lia. intros i j Hi Hij Hj. lia.
    + intros i w Hi (Hsz & Hperm & Hsorted & Hcross).
      destruct (selection_min_correct w i) as (m & Hrun & Hm & Hmin); [lia|].
      rewrite Hsz in Hrun, Hm, Hmin. rewrite Hrun, bind_Ok.
      exists (swapz w i m). split.
      { destruct (Z.eqb_spec m i) as [->|Hne]; simpl.
        - now rewrite swapz_same.
        - apply swap_ok; lia. }
      rewrite vsize_swapz. split; [exact Hsz|]. split.
      { etransitivity; [exact Hperm|]. apply swapz_perm; lia. }
      split.
      * intros a b Ha Hab Hb. swap_cases; hyp_le.
      * intros a b Ha Hai Hib Hb. swap_cases; hyp_le.
    + exists w. split; [exact Hrun|]. split; [exact Hperm|].
      unfold sorted_vec. rewrite Hsz. intros a b Ha Hab Hb.
      destruct (Z_lt_le_dec b (vsize v - 1)); [apply Hsorted; lia|].
      destruct (Z.eq_dec a b) as [->|Hne]; [lia|].
      apply Hcross; lia.
Qed.

(** ** Bubble sort *)

Lemma count_below_app (x : Z) (l1 l2 : list Z) :
  count_below x (l1 ++ l2) = (count_below x l1 + count_below x l2)%nat.
Proof. induction l1 as [|y l1 IH]; simpl; [reflexivity | rewrite IH; lia]. Qed.

Lemma inversions_adjacent (l1 l2 : list Z) (a b : Z) :
  b < a ->
  inversions (l1 ++ a :: b :: l2) = Datatypes.S (inversions (l1 ++ b :: a :: l2)).
Proof.
  intros Hlt. induction l1 as [|x l1 IH]; simpl.
  - destruct (Z.ltb_spec b a), (Z.ltb_spec a b); lia.
  - rewrite IH, !count_below_app. simpl. lia.
Qed.

Lemma adjacent_split (l : list Z) (k : nat) :
  (Datatypes.S k < length l)%nat ->
  exists l1 l2,
    l = l1 ++ nth k l 0 :: nth (Datatypes.S k) l 0 :: l2 /\
    <[Datatypes.S k := nth k l 0]> (<[k := nth (Datatypes.S k) l 0]> l)
      = l1 ++ nth (Datatypes.S k) l 0 :: nth k l 0 :: l2.
Proof.
  revert l. induction k as [|k IH]; intros l Hk.
  - destruct l as [|a [|b l]]; simpl in Hk; try lia.
    exists [], l. split; reflexivity.
  - destruct l as [|a l]; simpl in Hk; [lia|].
    destruct (IH l ltac:(lia)) as (l1 & l2 & H1 & H2).
    exists (a :: l1), l2. split.
    + simpl. f_equal. exact H1.
    + change (nth (Datatypes.S k) (a :: l) 0) with (nth k l 0).
      change (nth (Datatypes.S (Datatypes.S k)) (a :: l) 0) with (nth (Datatypes.S k) l 0).
      simpl. f_equal. exact H2.
Qed.

Lemma inversions_swap_adjacent (w : vec) (i : Z) :
  1 <= i < vsize w -> at_ w i < at_ w (i - 1) ->
  inversions w = Datatypes.S (inversions (swapz w (i - 1) i)).
Proof.
  unfold vsize, swapz, upd, at_. intros Hi Hlt.
  replace (Z.to_nat i) with (Datatypes.S (Z.to_nat (i - 1))) in * by lia.
  destruct (adjacent_split w (Z.to_nat (i - 1))) as (l1 & l2 & H1 & H2); [lia|].
  rewrite H2. rewrite H1 at 1. now apply inversions_adjacent.
Qed.

Lemma adjacent_sorted (w : vec) (hi : Z) :
  (forall k, 1 <= k -> k <= hi -> at_ w (k - 1) <= at_ w k) -> sorted_seg w 0 hi.
Proof.
  intros Hadj i j Hi Hij Hj.
  assert (Hd : forall d : nat, i + Z.of_nat d <= hi -> at_ w i <= at_ w (i + Z.of_nat d)).
  { induction d as [|d IH]; intros Hd.
    - rewrite Z.add_0_r. lia.
    - etransitivity; [apply IH; lia|].
      pose proof (Hadj (i + Z.of_nat (Datatypes.S d)) ltac:(lia) Hd) as H.
      replace (i + Z.of_nat (Datatypes.S d) - 1) with (i + Z.of_nat d) in H by lia.
      exact H. }
  replace j with (i + Z.of_nat (Z.to_nat (j - i))) by lia.
  apply Hd. lia.
Qed.

Lemma bubble_pass_correct (w : vec) (sw0 : bool) :
  exists w' sw,
    bubble_pass (vsize w) (w, sw0) = Ok (w', sw) /\
    vsize w' = vsize w /\ Permutation w w' /\
    (sw = false -> w' = w /\ sorted_vec w) /\
    (sw = true -> (inversions w' < inversions w)%nat).
Proof.
  unfold bubble_pass. simpl fst.
  destruct (Z_le_gt_dec (vsize w) 1) as [Hsmall|Hbig].
  - rewrite for_range_empty by lia. exists w, false.
    repeat split; auto; try discriminate.
    intros i j Hi Hij Hj. assert (i = j) as -> by lia. lia.
  - destruct (for_range_rule
      (fun i (s : vec * bool) =>
         vsize (fst s) = vsize w /\ Permutation w (fst s) /\
         (snd s = false ->
          fst s = w /\ forall k, 1 <= k -> k <= i - 1 -> at_ w (k - 1) <= at_ w k) /\
         (snd s = true -> (inversions (fst s) < inversions w)%nat))
      1 (vsize w) bubble_step (w, false))
      as ([w' sw] & Hrun & Hsz & Hperm & Hfalse & Htrue).
    + lia.
    + simpl. repeat split; auto; try discriminate. intros k Hk1 Hk2. lia.
    + intros i [u sw] Hi (Hsz & Hperm & Hfalse & Htrue). simpl in *.
      rewrite (get_ok u (i - 1)), bind_Ok, (get_ok u i), bind_Ok by lia.
      destruct (Z.gtb_spec (at_ u (i - 1)) (at_ u i)) as [Hgt|Hle].
      * rewrite swap_ok, bind_Ok by lia.
        eexists. split; [reflexivity|]. simpl. rewrite vsize_swapz.
        split; [exact Hsz|]. split.
        { etransitivity; [exact Hperm|]. apply swapz_perm; lia. }
        split; [discriminate|]. intros _.
        pose proof (inversions_swap_adjacent u i ltac:(lia) ltac:(lia)) as Hinv.
        destruct sw.
        -- specialize (Htrue eq_refl). lia.
        -- destruct (Hfalse eq_refl) as (-> & _). lia.
      * eexists. split; [reflexivity|]. simpl.
        split; [exact Hsz|]. split; [exact Hperm|]. split; [|exact Htrue].
        intros ->. destruct (Hfalse eq_refl) as (-> & Hadj). split; [reflexivity|].
        intros k Hk1 Hk2. destruct (Z.eq_dec k i) as [->|Hne]; [lia|].
        apply Hadj; lia.
    + exists w', sw. simpl in *. split; [exact Hrun|].
      split; [exact Hsz|]. split; [exact Hperm|]. split; [|exact Htrue].
      intros ->. destruct (Hfalse eq_refl) as (-> & Hadj). split; [reflexivity|].
      apply adjacent_sorted. intros k Hk1 Hk2. apply Hadj; lia.
Qed.

Lemma bubble_sort_correct (fuel : nat) (v : vec) :
  vsize v <= INT_MAX -> (Datatypes.S (inversions v) < fuel)%nat ->
  exists w, bubble_sort fuel v = Ok w /\ Permutation v w /\ sorted_vec w.
Proof.
  intros Hmax Hfuel. unfold bubble_sort.
  rewrite to_int_small by (pose proof (vsize_nonneg v); unfold INT_MIN; lia).
  destruct (while_rule
    (fun s : vec * bool =>
       vsize (fst s) = vsize v /\ Permutation v (fst s) /\
       (snd s = false -> sorted_vec (fst s)))
    (fun s => Z.of_nat (inversions (fst s)) + (if snd s then 1 else 0))
    (fun s => mret (snd s)) (bubble_pass (vsize v))) with (fuel := fuel) (s := (v, true))
    as ([w sw] & Hrun & (Hsz & Hperm & Hsorted) & Hc).
  - intros [u sw] (Hsz & Hperm & Hsorted). simpl in *.
    split; [destruct sw; lia|].
    exists sw. split; [reflexivity|]. intros ->.
    destruct (bubble_pass_correct u true) as (w' & sw' & Hrun & Hsz' & Hperm' & Hf & Ht).
    rewrite Hsz in Hrun. rewrite Hrun.
    eexists. split; [reflexivity|]. simpl. split; [|destruct sw'].
    + split; [lia|]. split; [etransitivity; eauto|].
      intros ->. destruct (Hf eq_refl) as (-> & Hs). exact Hs.
    + specialize (Ht eq_refl). lia.
    + destruct (Hf eq_refl) as (-> & _). lia.
  - simpl. repeat split; auto. discriminate.
  - simpl. lia.
  - rewrite Hrun, bind_Ok. exists w. simpl in *.
    split; [reflexivity|]. split; [exact Hperm|].
    apply Hsorted. now inversion Hc.
Qed.

(** ** Shell sort *)

Lemma shell_cond_one (s : vec * Z) : shell_cond 1 s = insertion_cond s.
Proof.
  destruct s as [v j]. simpl.
  destruct (Z.geb_spec j 1), (Z.gtb_spec j 0); try lia; reflexivity.
Qed.

Lemma shell_body_one (s : vec * Z) : shell_body 1 s = insertion_body s.
Proof. destruct s as [v j]. reflexivity. Qed.

(** The pass with gap 1 is insertion sort. *)
Lemma shell_pass_one (fuel : nat) (w : vec) :
  vsize w <= INT_MAX ->
  shell_pass fuel (vsize w) (w, 1) = (w' ← insertion_sort fuel w; mret (w', 0)).
Proof.
  intros Hmax. unfold shell_pass, insertion_sort.
  rewrite to_int_small by (pose proof (vsize_nonneg w); unfold INT_MIN; lia).
  unfold for_range. f_equal.
  apply for_count_ext. intros i u.
  now rewrite (while_loop_ext _ insertion_cond _ insertion_body shell_cond_one shell_body_one).
Qed.

Lemma shell_inner_perm (fuel : nat) (gap : Z) (v0 w : vec) (i : Z) :
  1 <= gap -> 0 <= i < vsize v0 -> i < Z.of_nat fuel ->
  vsize w = vsize v0 -> Permutation v0 w ->
  exists s', while_loop fuel (shell_cond gap) (shell_body gap) (w, i) = Ok s' /\
             vsize (fst s') = vsize v0 /\ Permutation v0 (fst s').
Proof.
  intros Hgap Hi Hfuel Hsz Hperm.
  destruct (while_rule
    (fun s : vec * Z => vsize (fst s) = vsize v0 /\ Permutation v0 (fst s) /\ 0 <= snd s <= i)
    snd (shell_cond gap) (shell_body gap)) with (fuel := fuel) (s := (w, i))
    as (s' & Hrun & (Hsz' & Hperm' & _) & _).
  - intros [u j] (Hsz' & Hperm' & Hj). simpl in *. split; [lia|].
    destruct (Z.geb_spec j gap) as [Hge|Hlt].
    + rewrite (get_ok u (j - gap)), bind_Ok, (get_ok u j), bind_Ok by lia.
      eexists. split; [reflexivity|]. intros _.
      rewrite swap_ok, bind_Ok by lia.
      eexists. split; [reflexivity|]. simpl. rewrite vsize_swapz.
      repeat split; auto; try lia.
      etransitivity; [exact Hperm'|]. apply swapz_perm; lia.
    + exists false. split; [reflexivity | discriminate].
  - simpl. repeat split; auto; lia.
  - simpl. lia.
  - exists s'. auto.
Qed.

Lemma shell_pass_perm (fuel : nat) (w : vec) (gap : Z) :
  1 <= gap -> vsize w < Z.of_nat fuel ->
  exists w', shell_pass fuel (vsize w) (w, gap) = Ok (w', gap ÷ 2) /\
             vsize w' = vsize w /\ Permutation w w'.
Proof.
  intros Hgap Hfuel. unfold shell_pass.
  destruct (Z_le_gt_dec (vsize w) gap) as [Hsmall|Hbig].
  - rewrite for_range_empty by lia. exists w. auto.
  - destruct (for_range_rule
      (fun (_ : Z) (u : vec) => vsize u = vsize w /\ Permutation w u)
      gap (vsize w)
      (fun i u => s ← while_loop fuel (shell_cond gap) (shell_body gap) (u, i);
                  mret (fst s))
      w) as (w' & Hrun & Hsz & Hperm).
    + lia.
    + auto.
    + intros i u Hi (Hsz & Hperm).
      destruct (shell_inner_perm fuel gap w u i) as (s' & Hrun & Hsz' & Hperm');
        auto; try lia.
      rewrite Hrun, bind_Ok. exists (fst s'). auto.
    + rewrite Hrun, bind_Ok. exists w'. auto.
Qed.

Lemma shell_sort_correct (fuel : nat) (v : vec) :
  vsize v <= INT_MAX -> vsize v < Z.of_nat fuel ->
  exists w, shell_sort fuel v = Ok w /\ Permutation v w /\ sorted_vec w.
Proof.
  intros Hmax Hfuel. unfold shell_sort.
  pose proof (vsize_nonneg v) as Hnn.
  rewrite to_int_small by (unfold INT_MIN; lia).
  assert (Hhalf : 0 <= vsize v ÷ 2 <= vsize v).
  { rewrite Z.quot_div_nonneg by lia. split; [apply Z.div_pos; lia|].
    apply Z.div_le_upper_bound; lia. }
  destruct (while_rule
    (fun s : vec * Z =>
       vsize (fst s) = vsize v /\ Permutation v (fst s) /\ 0 <= snd s <= vsize v /\
       (snd s = 0 -> sorted_vec (fst s)))
    snd (fun s => mret (snd s >? 0)) (shell_pass fuel (vsize v)))
    with (fuel := fuel) (s := (v, vsize v ÷ 2))
    as ([w g] & Hrun & (Hsz & Hperm & Hg & Hsorted) & Hc).
  - intros [u gap] (Hsz & Hperm & Hg & Hsorted). cbn [fst snd] in *. split; [lia|].
    eexists. split; [reflexivity|]. intros Hpos.
    assert (Hgap : 1 <= gap) by (destruct (Z.gtb_spec gap 0); [lia | discriminate]).
    assert (Hq : 0 <= gap ÷ 2 < gap).
    { rewrite Z.quot_div_nonneg by lia. split; [apply Z.div_pos; lia|].
      apply Z.div_lt_upper_bound; lia. }
    destruct (shell_pass_perm fuel u gap Hgap ltac:(lia)) as (w' & Hrun & Hsz' & Hperm').
    rewrite Hsz in Hrun. rewrite Hrun.
    eexists. split; [reflexivity|]. simpl.
    split; [|lia]. split; [lia|]. split; [etransitivity; eauto|]. split; [lia|].
    intros Hzero.
    assert (gap = 1) as ->.
    { rewrite Z.quot_div_nonneg in Hzero by lia.
      destruct (Z_le_gt_dec 2 gap) as [H2|H2]; [|lia].
      pose proof (Z.div_le_lower_bound gap 2 1 ltac:(lia) ltac:(lia)). lia. }
    rewrite <- Hsz in Hrun. rewrite shell_pass_one in Hrun by lia.
    destruct (insertion_sort_correct fuel u) as (w'' & Hins & _ & Hs); try lia.
    rewrite Hins, bind_Ok in Hrun. inversion Hrun. subst. exact Hs.
  - simpl. repeat split; auto; try lia.
    intros Hzero. intros i j Hi Hij Hj.
    assert (vsize v <= 1).
    { rewrite Z.quot_div_nonneg in Hzero by lia.
      destruct (Z_le_gt_dec 2 (vsize v)) as [H2|H2]; [|lia].
      pose proof (Z.div_le_lower_bound (vsize v) 2 1 ltac:(lia) ltac:(lia)). lia. }
    assert (i = j) as -> by lia. lia.
  - simpl. lia.
  - rewrite Hrun, bind_Ok. exists w. simpl in *.
    split; [reflexivity|]. split; [exact Hperm|].
    apply Hsorted. inversion Hc as [Hgt].
    destruct (Z.gtb_spec g 0); [discriminate | lia].
Qed.

(** ** Slices *)

Lemma slice_split (v : vec) (lo hi : Z) :
  0 <= lo -> lo <= hi + 1 ->
  v = take (Z.to_nat lo) v ++ slice v lo hi ++ drop (Z.to_nat (hi + 1)) v.
Proof.
  intros Hlo Hhi. unfold slice.
  rewrite <- (take_drop (Z.to_nat lo) v) at 1. f_equal.
  rewrite <- (take_drop (Z.to_nat (hi - lo + 1)) (drop (Z.to_nat lo) v)) at 1. f_equal.
  rewrite drop_drop. f_equal. lia.
Qed.

Lemma vsize_slice (v : vec) (lo hi : Z) :
  0 <= lo -> lo <= hi + 1 -> hi < vsize v -> vsize (slice v lo hi) = hi - lo + 1.
Proof.
  unfold vsize, slice. intros Hlo Hhi Hsz.
  rewrite length_take, length_drop. lia.
Qed.

Lemma at_slice (v : vec) (lo hi k : Z) :
  0 <= lo -> 0 <= k -> k <= hi - lo -> at_ (slice v lo hi) k = at_ v (lo + k).
Proof.
  unfold at_, slice. intros Hlo Hk Hhi.
  rewrite !nth_lookup, lookup_take_lt by lia.
  rewrite lookup_drop. do 2 f_equal. lia.
Qed.

Lemma take_same (v w : vec) (n : Z) :
  vsize v = vsize w -> (forall k, 0 <= k < n -> k < vsize v -> at_ w k = at_ v k) ->
  take (Z.to_nat n) v = take (Z.to_nat n) w.
Proof.
  unfold vsize, at_. intros Hsz H.
  apply (nth_ext _ _ 0 0).
  - rewrite !length_take. lia.
  - intros i Hi. rewrite length_take in Hi.
    rewrite !nth_lookup, !lookup_take_lt, <- !nth_lookup by lia.
    specialize (H (Z.of_nat i)). rewrite Nat2Z.id in H. symmetry. apply H; lia.
Qed.

Lemma drop_same (v w : vec) (n : Z) :
  0 <= n -> vsize v = vsize w ->
  (forall k, n <= k < vsize v -> at_ w k = at_ v k) ->
  drop (Z.to_nat n) v = drop (Z.to_nat n) w.
Proof.
  unfold vsize, at_. intros Hn Hsz H.
  apply (nth_ext _ _ 0 0).
  - rewrite !length_drop. lia.
  - intros i Hi. rewrite length_drop in Hi.
    rewrite !nth_lookup, !lookup_drop, <- !nth_lookup.
    specialize (H (n + Z.of_nat i)).
    replace (Z.to_nat (n + Z.of_nat i)) with (Z.to_nat n + i)%nat in H by lia.
    symmetry. apply H. lia.
Qed.

(** A permutation of the whole vector that leaves everything outside
    [lo..hi] in place is a permutation of the slice. *)
Lemma slice_perm (v w : vec) (lo hi : Z) :
  0 <= lo -> lo <= hi + 1 -> hi < vsize v ->
  vsize v = vsize w -> same_outside v w lo hi -> Permutation v w ->
  Permutation (slice v lo hi) (slice w lo hi).
Proof.
  intros Hlo Hhi Hsz Heq Hout Hperm.
  rewrite (slice_split v lo hi Hlo Hhi) in Hperm.
  rewrite (slice_split w lo hi Hlo Hhi) in Hperm at 1.
  rewrite <- (take_same v w lo) in Hperm by (auto; intros; apply Hout; lia).
  rewrite <- (drop_same v w (hi + 1)) in Hperm by (auto; try lia; intros; apply Hout; lia).
  apply Permutation_app_inv_l in Hperm.
  now apply Permutation_app_inv_r in Hperm.
Qed.

Lemma slice_forall (P : Z -> Prop) (v : vec) (lo hi : Z) :
  0 <= lo -> lo <= hi + 1 -> hi < vsize v ->
  (Forall P (slice v lo hi) <-> forall k, lo <= k <= hi -> P (at_ v k)).
Proof.
  intros Hlo Hhi Hsz. rewrite List.Forall_forall. split.
  - intros H k Hk. replace k with (lo + (k - lo)) by lia.
    rewrite <- (at_slice v lo hi) by lia.
    apply H, In_at. rewrite vsize_slice by lia. lia.
  - intros H x Hx. destruct (at_In _ _ Hx) as (k & Hk & <-).
    rewrite vsize_slice in Hk by lia.
    rewrite at_slice by lia. apply H. lia.
Qed.

(** A property of all elements of [v[lo..hi]] survives a permutation
    confined to that range. *)
Lemma seg_forall_transfer (P : Z -> Prop) (v w : vec) (lo hi : Z) :
  0 <= lo -> hi < vsize v ->
  vsize v = vsize w -> same_outside v w lo hi -> Permutation v w ->
  (forall k, lo <= k <= hi -> P (at_ v k)) ->
  forall k, lo <= k <= hi -> P (at_ w k).
Proof.
  intros Hlo Hsz Heq Hout Hperm HP k Hk.
  assert (Hhi : lo <= hi + 1) by lia.
  apply (slice_forall P w lo hi); try lia.
  eapply Permutation_Forall; [apply (slice_perm v w lo hi); auto|].
  now apply slice_forall.
Qed.

(** ** Quick sort *)

Lemma partition_scan (v : vec) (start end_ j : Z) :
  0 <= start -> start <= j -> j <= end_ -> end_ < vsize v ->
  exists s, for_range start j (partition_step end_) (v, start - 1) = Ok s /\
            partition_inv v start end_ j s.
Proof.
  intros Hstart Hj Hend Hsz.
  apply (for_range_rule (partition_inv v start end_)); [lia | |].
  - unfold partition_inv. repeat split; auto; try lia.
  - intros k [w i] Hk (Hsz' & Hperm & Hout & Hi & Hle & Hgt). simpl.
    assert (Hpivot : at_ w end_ = at_ v end_) by (apply Hout; lia).
    rewrite (get_ok w k), bind_Ok, (get_ok w end_), bind_Ok, Hpivot by lia.
    destruct (Z.leb_spec (at_ w k) (at_ v end_)) as [Hsmall|Hlarge].
    + rewrite swap_ok, bind_Ok by lia.
      eexists. split; [reflexivity|].
      unfold partition_inv. rewrite vsize_swapz.
      split; [exact Hsz'|]. split.
      { etransitivity; [exact Hperm|]. apply swapz_perm; lia. }
      split.
      { intros x Hx Hx'. rewrite at_swapz_other by lia. apply Hout; lia. }
      split; [lia|]. split.
      * intros x Hx1 Hx2. swap_cases; try hyp_le.
        replace (i + 1) with k by lia. exact Hsmall.
      * intros x Hx1 Hx2. swap_cases; try lia; apply Hgt; lia.
    + eexists. split; [reflexivity|].
      unfold partition_inv. repeat split; auto; try lia.
      intros x Hx1 Hx2. destruct (Z.eq_dec x k) as [->|Hne]; [lia|].
      apply Hgt; lia.
Qed.

Lemma partition_sublist_spec (v : vec) (start end_ : Z) :
  0 <= start -> start <= end_ -> end_ < vsize v ->
  exists v' p,
    partition_sublist v start end_ = Ok (v', p) /\
    start <= p <= end_ /\
    vsize v' = vsize v /\ Permutation v v' /\ same_outside v v' start end_ /\
    at_ v' p = at_ v end_ /\
    (forall k, start <= k -> k < p -> at_ v' k <= at_ v' p) /\
    (forall k, p < k -> k <= end_ -> at_ v' p < at_ v' k).
Proof.
  intros Hstart Hle Hsz.
  destruct (partition_scan v start end_ end_) as ([w i] & Hrun & Hinv); try lia.
  destruct Hinv as (Hsz' & Hperm & Hout & Hi & Hsmall & Hlarge).
  unfold partition_sublist. rewrite Hrun, bind_Ok.
  assert (Hpivot : at_ w end_ = at_ v end_) by (apply Hout; lia).
  rewrite swap_ok, bind_Ok by lia.
  exists (swapz w (i + 1) end_), (i + 1). split; [reflexivity|].
  rewrite vsize_swapz.
  assert (Hp : at_ (swapz w (i + 1) end_) (i + 1) = at_ v end_).
  { rewrite at_swapz_l by lia. exact Hpivot. }
  split; [lia|]. split; [exact Hsz'|]. split.
  { etransitivity; [exact Hperm|]. apply swapz_perm; lia. }
  split.
  { intros x Hx Hx'. rewrite at_swapz_other by lia. apply Hout; lia. }
  split; [exact Hp|]. rewrite Hp. split.
  - intros k Hk1 Hk2. rewrite at_swapz_other by lia. apply Hsmall; lia.
  - intros k Hk1 Hk2. swap_cases; try lia; apply Hlarge; lia.
Qed.

Lemma sorted_seg_empty (v : vec) (lo hi : Z) : hi <= lo -> sorted_seg v lo hi.
Proof. intros H i j Hi Hij Hj. assert (i = j) as -> by lia. lia. Qed.

Lemma same_outside_refl (v : vec) (lo hi : Z) : same_outside v v lo hi.
Proof. intros k _ _. reflexivity. Qed.

Lemma same_outside_trans (u v w : vec) (lo hi lo' hi' : Z) :
  vsize u = vsize v -> lo <= lo' -> hi' <= hi ->
  same_outside u v lo hi -> same_outside v w lo' hi' -> same_outside u w lo hi.
Proof.
  intros Hsz Hlo Hhi H1 H2 k Hk Hout.
  rewrite H2 by lia. apply H1; lia.
Qed.

Lemma quick_sort_sublist_correct (fuel : nat) :
  forall (v : vec) (start end_ : Z),
    0 <= start -> end_ < vsize v -> Z.max 0 (end_ - start + 1) < Z.of_nat fuel ->
    exists w, quick_sort_sublist fuel v start end_ = Ok w /\
              vsize w = vsize v /\ Permutation v w /\
              same_outside v w start end_ /\ sorted_seg w start end_.
Proof.
  induction fuel as [|fuel IH]; intros v start end_ Hstart Hend Hfuel; [lia|].
  simpl. destruct (Z.ltb_spec start end_) as [Hlt|Hge].
  - destruct (partition_sublist_spec v start end_)
      as (v1 & p & Hpart & Hp & Hsz1 & Hperm1 & Hout1 & Hpiv & Hsmall & Hlarge); try lia.
    rewrite Hpart, bind_Ok.
    destruct (IH v1 start (p - 1))
      as (v2 & Hrun2 & Hsz2 & Hperm2 & Hout2 & Hsorted2); try lia.
    rewrite Hrun2, bind_Ok.
    destruct (IH v2 (p + 1) end_)
      as (v3 & Hrun3 & Hsz3 & Hperm3 & Hout3 & Hsorted3); try lia.
    exists v3. split; [exact Hrun3|].
    split; [lia|]. split; [etransitivity; [|eauto]; etransitivity; eauto|].
    split.
    { apply (same_outside_trans v v2 v3 start end_ (p + 1) end_); try lia; auto.
      apply (same_outside_trans v v1 v2 start end_ start (p - 1)); try lia; auto. }
    assert (Hp2 : at_ v2 p = at_ v1 p) by (apply Hout2; lia).
    assert (Hp3 : at_ v3 p = at_ v1 p) by (rewrite Hout3 by lia; exact Hp2).
    assert (Hsmall2 : forall k, start <= k <= p - 1 -> at_ v2 k <= at_ v1 p).
    { apply (seg_forall_transfer (fun x => x <= at_ v1 p) v1 v2 start (p - 1));
        auto; try lia.
      intros k Hk. apply Hsmall; lia. }
    assert (Hlarge3 : forall k, p + 1 <= k <= end_ -> at_ v1 p < at_ v3 k).
    { apply (seg_forall_transfer (fun x => at_ v1 p < x) v2 v3 (p + 1) end_);
        auto; try lia.
      intros k Hk. rewrite Hout2 by lia. apply Hlarge; lia. }
    assert (Hleft3 : forall k, start <= k <= p - 1 -> at_ v3 k = at_ v2 k).
    { intros k Hk. apply Hout3; lia. }
    intros i j Hi Hij Hj.
    destruct (Z_lt_le_dec j p) as [Hjp|Hjp].
    + rewrite !Hleft3 by lia. apply Hsorted2; lia.
    + destruct (Z_lt_le_dec p i) as [Hip|Hip]; [apply Hsorted3; lia|].
      assert (Hi_le : at_ v3 i <= at_ v1 p).
      { destruct (Z.eq_dec i p) as [->|Hne]; [lia|].
        rewrite Hleft3 by lia. apply Hsmall2; lia. }
      assert (Hj_ge : at_ v1 p <= at_ v3 j).
      { destruct (Z.eq_dec j p) as [->|Hne]; [lia|].
        apply Z.lt_le_incl, Hlarge3. lia. }
      lia.
  - exists v. split; [reflexivity|]. split; [reflexivity|]. split; [reflexivity|].
    split; [apply same_outside_refl | apply sorted_seg_empty; lia].
Qed.

Lemma to_int_size_pred (n : Z) : 0 <= n <= INT_MAX -> to_int (size_sub n 1) = n - 1.
Proof.
  unfold INT_MAX. intros Hn. destruct (Z.eq_dec n 0) as [->|Hne]; [reflexivity|].
  unfold size_sub, SIZE_MODULUS. rewrite Z.mod_small by lia.
  apply to_int_small. unfold INT_MIN, INT_MAX. lia.
Qed.

Lemma quick_sort_correct (fuel : nat) (v : vec) :
  vsize v <= INT_MAX -> vsize v < Z.of_nat fuel ->
  exists w, quick_sort fuel v = Ok w /\ Permutation v w /\ sorted_vec w.
Proof.
  intros Hmax Hfuel. unfold quick_sort.
  pose proof (vsize_nonneg v) as Hnn.
  rewrite to_int_size_pred by lia.
  destruct (quick_sort_sublist_correct fuel v 0 (vsize v - 1))
    as (w & Hrun & Hsz & Hperm & _ & Hsorted); try lia.
  exists w. repeat split; auto. unfold sorted_vec. now rewrite Hsz.
Qed.

(** ** Merge sort *)

Lemma vsize_repeat (n : Z) : 0 <= n -> vsize (repeat 0 (Z.to_nat n)) = n.
Proof. intros H. unfold vsize. rewrite repeat_length. lia. Qed.

(** The loops that fill [left_sublist] and [right_sublist]. *)
Lemma copy_loop (v : vec) (off n : Z) :
  0 <= off -> 0 <= n -> off + n <= vsize v ->
  for_range 0 n (fun i l => x ← get v (off + i); put l i x) (repeat 0 (Z.to_nat n))
    = Ok (slice v off (off + n - 1)).
Proof.
  intros Hoff Hn Hsz.
  destruct (for_range_rule
    (fun i (l : vec) => vsize l = n /\ forall k, 0 <= k -> k < i -> at_ l k = at_ v (off + k))
    0 n (fun i l => x ← get v (off + i); put l i x) (repeat 0 (Z.to_nat n)))
    as (l & Hrun & Hlen & Hl).
  - lia.
  - split; [now apply vsize_repeat | intros; lia].
  - intros i l Hi (Hlen & Hl).
    rewrite get_ok, bind_Ok, put_ok by lia.
    eexists. split; [reflexivity|]. rewrite vsize_upd. split; [exact Hlen|].
    intros k Hk1 Hk2. destruct (Z.eq_dec k i) as [->|Hne].
    + now rewrite at_upd_eq by lia.
    + rewrite at_upd_ne by lia. apply Hl; lia.
  - rewrite Hrun. f_equal. apply vec_ext.
    + rewrite vsize_slice by lia. lia.
    + intros k Hk. rewrite at_slice by lia. apply Hl; lia.
Qed.

Lemma slice_snoc (w : vec) (lo k a : Z) :
  0 <= lo -> lo <= k -> k < vsize w ->
  slice (upd w k a) lo k = slice w lo (k - 1) ++ [a].
Proof.
  unfold vsize, slice, upd. intros Hlo Hk Hsz.
  rewrite drop_insert_ge by lia.
  replace (Z.to_nat (k - lo + 1)) with (Datatypes.S (Z.to_nat (k - 1 - lo + 1))) by lia.
  replace (Z.to_nat k - Z.to_nat lo)%nat with (Z.to_nat (k - 1 - lo + 1)) by lia.
  erewrite take_S_r.
  - now rewrite take_insert_ge by lia.
  - apply list_lookup_insert_eq. rewrite length_drop. lia.
Qed.

Lemma slice_upd_above (w : vec) (lo hi k a : Z) :
  0 <= lo -> hi < k -> slice (upd w k a) lo hi = slice w lo hi.
Proof.
  unfold slice, upd. intros Hlo Hk.
  destruct (Z_lt_le_dec hi lo) as [Hempty|Hne].
  - replace (Z.to_nat (hi - lo + 1)) with O by lia. reflexivity.
  - rewrite drop_insert_ge by lia. apply take_insert_ge. lia.
Qed.

Lemma take_succ_at (l : vec) (i : Z) :
  0 <= i < vsize l -> take (Z.to_nat (i + 1)) l = take (Z.to_nat i) l ++ [at_ l i].
Proof.
  unfold vsize, at_. intros Hi.
  replace (Z.to_nat (i + 1)) with (Datatypes.S (Z.to_nat i)) by lia.
  apply take_S_r. rewrite nth_lookup.
  destruct (l !! Z.to_nat i) eqn:E; [reflexivity|].
  apply lookup_ge_None in E. lia.
Qed.

Section Merge.
Variables (v l r : vec) (start : Z).
Let n1 := vsize l.
Let n2 := vsize r.
Hypothesis Hstart : 0 <= start.
Hypothesis Hfit : start + n1 + n2 <= vsize v.
Hypothesis Hl : sorted_vec l.
Hypothesis Hr : sorted_vec r.

(** Invariant of the three merging loops: [w[start..k-1]] holds the
    first [i] elements of [l] and the first [j] elements of [r], merged. *)
Definition merge_inv (s : vec * Z * Z * Z) : Prop :=
  let '(w, i, j, k) := s in
  k = start + i + j /\ 0 <= i <= n1 /\ 0 <= j <= n2 /\ vsize w = vsize v /\
  (forall x, 0 <= x < vsize v -> x < start \/ k <= x -> at_ w x = at_ v x) /\
  Permutation (slice w start (k - 1)) (take (Z.to_nat i) l ++ take (Z.to_nat j) r) /\
  sorted_seg w start (k - 1) /\
  (forall x, start <= x -> x < k ->
             (i < n1 -> at_ w x <= at_ l i) /\ (j < n2 -> at_ w x <= at_ r j)).

Lemma merge_inv_init : merge_inv (v, 0, 0, start).
Proof.
  pose proof (vsize_nonneg l). pose proof (vsize_nonneg r).
  unfold merge_inv. repeat split; auto; try lia.
  - unfold slice. replace (Z.to_nat (start - 1 - start + 1)) with O by lia.
    reflexivity.
  - apply sorted_seg_empty. lia.
Qed.

Lemma merge_inv_left (w : vec) (i j k : Z) :
  merge_inv (w, i, j, k) -> i < n1 -> (j < n2 -> at_ l i <= at_ r j) ->
  merge_inv (upd w k (at_ l i), i + 1, j, k + 1).
Proof.
  intros (Hk & Hi & Hj & Hsz & Hout & Hperm & Hsorted & Hbound) Hlt Hle.
  assert (Hread : forall x, 0 <= x -> x <> k -> at_ (upd w k (at_ l i)) x = at_ w x).
  { intros x Hx Hne. apply at_upd_ne; lia. }
  assert (Hnew : at_ (upd w k (at_ l i)) k = at_ l i) by (apply at_upd_eq; lia).
  unfold merge_inv. rewrite vsize_upd.
  split; [lia|]. split; [lia|]. split; [lia|]. split; [exact Hsz|]. split; [|split; [|split]].
  - intros x Hx Hx'. rewrite Hread by lia. apply Hout; lia.
  - replace (k + 1 - 1) with k by lia.
    rewrite slice_snoc, take_succ_at by (fold n1; lia).
    rewrite <- app_assoc. simpl.
    etransitivity; [|apply Permutation_middle].
    etransitivity; [symmetry; apply Permutation_cons_append|].
    now apply perm_skip.
  - intros x y Hx Hxy Hy.
    destruct (Z.eq_dec y k) as [->|Hyk].
    + rewrite Hnew. destruct (Z.eq_dec x k) as [->|Hxk]; [rewrite Hnew; lia|].
      rewrite Hread by lia. apply Hbound; lia.
    + rewrite !Hread by lia. apply Hsorted; lia.
  - intros x Hx1 Hx2. split.
    + intros Hi'. assert (Hstep : at_ l i <= at_ l (i + 1)) by (apply Hl; fold n1; lia).
      destruct (Z.eq_dec x k) as [->|Hxk]; [rewrite Hnew; lia|].
      rewrite Hread by lia. pose proof (Hbound x ltac:(lia) ltac:(lia)) as [Hb _].
      specialize (Hb Hlt). lia.
    + intros Hj'.
      destruct (Z.eq_dec x k) as [->|Hxk]; [rewrite Hnew; auto|].
      rewrite Hread by lia. apply Hbound; lia.
Qed.

Lemma merge_inv_right (w : vec) (i j k : Z) :
  merge_inv (w, i, j, k) -> j < n2 -> (i < n1 -> at_ r j <= at_ l i) ->
  merge_inv (upd w k (at_ r j), i, j + 1, k + 1).
Proof.
  intros (Hk & Hi & Hj & Hsz & Hout & Hperm & Hsorted & Hbound) Hlt Hle.
  assert (Hread : forall x, 0 <= x -> x <> k -> at_ (upd w k (at_ r j)) x = at_ w x).
  { intros x Hx Hne. apply at_upd_ne; lia. }
  assert (Hnew : at_ (upd w k (at_ r j)) k = at_ r j) by (apply at_upd_eq; lia).
  unfold merge_inv. rewrite vsize_upd.
  split; [lia|]. split; [lia|]. split; [lia|]. split; [exact Hsz|]. split; [|split; [|split]].
  - intros x Hx Hx'. rewrite Hread by lia. apply Hout; lia.
  - replace (k + 1 - 1) with k by lia.
    rewrite slice_snoc, take_succ_at by (fold n2; lia).
    rewrite app_assoc.
    now apply Permutation_app_tail.
  - intros x y Hx Hxy Hy.
    destruct (Z.eq_dec y k) as [->|Hyk].
    + rewrite Hnew. destruct (Z.eq_dec x k) as [->|Hxk]; [rewrite Hnew; lia|].
      rewrite Hread by lia. apply Hbound; lia.
    + rewrite !Hread by lia. apply Hsorted; lia.
  - intros x Hx1 Hx2. split.
    + intros Hi'.
      destruct (Z.eq_dec x k) as [->|Hxk]; [rewrite Hnew; auto|].
      rewrite Hread by lia. apply Hbound; lia.
    + intros Hj'. assert (Hstep : at_ r j <= at_ r (j + 1)) by (apply Hr; fold n2; lia).
      destruct (Z.eq_dec x k) as [->|Hxk]; [rewrite Hnew; lia|].
      rewrite Hread by lia. pose proof (Hbound x ltac:(lia) ltac:(lia)) as [_ Hb].
      specialize (Hb Hlt). lia.
Qed.
End Merge.

Lemma slice_app (v : vec) (a b c : Z) :
  0 <= a -> a <= b + 1 -> b <= c ->
  slice v a b ++ slice v (b + 1) c = slice v a c.
Proof.
  unfold slice. intros Ha Hb Hc.
  replace (Z.to_nat (b + 1)) with (Z.to_nat a + Z.to_nat (b - a + 1))%nat by lia.
  rewrite <- drop_drop, take_take_drop. f_equal. lia.
Qed.

Lemma perm_of_slice_perm (v w : vec) (lo hi : Z) :
  0 <= lo -> lo <= hi + 1 -> vsize v = vsize w -> same_outside v w lo hi ->
  Permutation (slice v lo hi) (slice w lo hi) -> Permutation v w.
Proof.
  intros Hlo Hhi Heq Hout Hperm.
  rewrite (slice_split v lo hi Hlo Hhi).
  rewrite (slice_split w lo hi Hlo Hhi) at 1.
  rewrite <- (take_same v w lo) by (auto; intros; apply Hout; lia).
  rewrite <- (drop_same v w (hi + 1)) by (auto; try lia; intros; apply Hout; lia).
  apply Permutation_app_head, Permutation_app_tail, Hperm.
Qed.

Lemma sorted_slice (v : vec) (lo hi : Z) :
  0 <= lo -> lo <= hi + 1 -> hi < vsize v ->
  sorted_seg v lo hi -> sorted_vec (slice v lo hi).
Proof.
  intros Hlo Hhi Hsz Hs. unfold sorted_vec. rewrite vsize_slice by lia.
  intros i j Hi Hij Hj. rewrite !at_slice by lia. apply Hs; lia.
Qed.

Lemma merge_sublists_correct (fuel : nat) (v : vec) (start middle end_ : Z) :
  0 <= start -> start <= middle -> middle < end_ -> end_ < vsize v ->
  sorted_seg v start middle -> sorted_seg v (middle + 1) end_ ->
  end_ - start + 1 < Z.of_nat fuel ->
  exists w, merge_sublists fuel v start middle end_ = Ok w /\
            vsize w = vsize v /\ Permutation v w /\
            same_outside v w start end_ /\ sorted_seg w start end_.
Proof.
  intros Hstart Hmid Hend Hsz Hs1 Hs2 Hfuel. unfold merge_sublists.
  rewrite (copy_loop v start) by lia. rewrite bind_Ok.
  rewrite (copy_loop v (middle + 1)) by lia. rewrite bind_Ok.
  replace (start + (middle - start + 1) - 1) with middle by lia.
  replace (middle + 1 + (end_ - middle) - 1) with end_ by lia.
  set (l := slice v start middle). set (r := slice v (middle + 1) end_).
  assert (Hn1 : vsize l = middle - start + 1) by (apply vsize_slice; lia).
  assert (Hn2 : vsize r = end_ - middle) by (unfold r; rewrite vsize_slice; lia).
  assert (Hl : sorted_vec l) by (apply sorted_slice; auto; lia).
  assert (Hr : sorted_vec r) by (apply sorted_slice; auto; lia).
  rewrite <- Hn1, <- Hn2.
  assert (Hfit : start + vsize l + vsize r <= vsize v) by lia.
  (* first loop: both sublists still have elements *)
  destruct (while_rule (merge_inv v l r start)
    (fun '(_, i, j, _) => (vsize l - i) + (vsize r - j))
    (fun '(_, i, j, _) => mret ((i <? vsize l) && (j <? vsize r)))
    (merge_both (vsize l) (vsize r) l r)) with (fuel := fuel) (s := (v, 0, 0, start))
    as ([[[w1 i1] j1] k1] & Hrun1 & Hinv1 & Hc1).
  { intros [[[w i] j] k] Hinv.
    pose proof Hinv as (Hk & Hi & Hj & Hsz' & _). split; [lia|].
    eexists. split; [reflexivity|]. intros Hb.
    apply andb_true_iff in Hb as [Hb1 Hb2].
    apply Z.ltb_lt in Hb1, Hb2. simpl.
    rewrite (get_ok l i), bind_Ok, (get_ok r j), bind_Ok by lia.
    destruct (Z.leb_spec (at_ l i) (at_ r j)) as [Hle|Hgt];
      rewrite put_ok, bind_Ok by lia; eexists; (split; [reflexivity|]); split; try lia.
    - apply merge_inv_left; auto.
    - apply merge_inv_right; auto; lia. }
  { apply merge_inv_init; auto. }
  { lia. }
  rewrite Hrun1, bind_Ok.
  (* second loop: the rest of the left sublist *)
  destruct (while_rule
    (fun s => merge_inv v l r start s /\
              let '(_, i, j, _) := s in i = vsize l \/ j = vsize r)
    (fun '(_, i, j, _) => (vsize l - i) + (vsize r - j))
    (fun '(_, i, j, _) => mret (i <? vsize l))
    (merge_left l)) with (fuel := fuel) (s := (w1, i1, j1, k1))
    as ([[[w2 i2] j2] k2] & Hrun2 & (Hinv2 & _) & Hc2).
  { intros [[[w i] j] k] (Hinv & Hdone).
    pose proof Hinv as (Hk & Hi & Hj & Hsz' & _). split; [lia|].
    eexists. split; [reflexivity|]. intros Hb. apply Z.ltb_lt in Hb. simpl.
    rewrite (get_ok l i), bind_Ok, put_ok, bind_Ok by lia.
    eexists. split; [reflexivity|]. split; [|lia]. split; [|lia].
    apply merge_inv_left; auto. lia. }
  { split; [exact Hinv1|].
    pose proof Hinv1 as (Hk & Hi & Hj & _).
    inversion Hc1 as [Hb]. apply andb_false_iff in Hb as [Hb|Hb];
      apply Z.ltb_ge in Hb; lia. }
  { pose proof Hinv1 as (Hk & Hi & Hj & _). lia. }
  rewrite Hrun2, bind_Ok.
  (* third loop: the rest of the right sublist *)
  destruct (while_rule
    (fun s => merge_inv v l r start s /\ let '(_, i, _, _) := s in i = vsize l)
    (fun '(_, i, j, _) => (vsize l - i) + (vsize r - j))
    (fun '(_, i, j, _) => mret (j <? vsize r))
    (merge_right r)) with (fuel := fuel) (s := (w2, i2, j2, k2))
    as ([[[w3 i3] j3] k3] & Hrun3 & (Hinv3 & Hi3) & Hc3).
  { intros [[[w i] j] k] (Hinv & Hdone).
    pose proof Hinv as (Hk & Hi & Hj & Hsz' & _). split; [lia|].
    eexists. split; [reflexivity|]. intros Hb. apply Z.ltb_lt in Hb. simpl.
    rewrite (get_ok r j), bind_Ok, put_ok, bind_Ok by lia.
    eexists. split; [reflexivity|]. split; [|lia]. split; [|lia].
    apply merge_inv_right; auto. lia. }
  { split; [exact Hinv2|].
    pose proof Hinv2 as (Hk & Hi & Hj & _).
    inversion Hc2 as [Hb]. apply Z.ltb_ge in Hb. lia. }
  { pose proof Hinv2 as (Hk & Hi & Hj & _). lia. }
  rewrite Hrun3, bind_Ok.
  destruct Hinv3 as (Hk & Hi & Hj & Hsz3 & Hout & Hperm & Hsorted & _).
  inversion Hc3 as [Hb]. apply Z.ltb_ge in Hb.
  assert (j3 = vsize r) by lia. subst i3 j3.
  replace (k3 - 1) with end_ in * by lia.
  assert (Hsame : same_outside v w3 start end_).
  { intros x Hx Hx'. apply Hout; lia. }
  exists w3. split; [reflexivity|]. split; [exact Hsz3|].
  split; [|split; [exact Hsame | exact Hsorted]].
  apply (perm_of_slice_perm v w3 start end_); auto; try lia.
  symmetry. etransitivity; [exact Hperm|].
  rewrite !take_ge by (unfold vsize; lia).
  unfold l, r. now rewrite slice_app by lia.
Qed.

Lemma merge_sort_sublist_correct (fuel : nat) :
  forall (v : vec) (start end_ : Z),
    0 <= start -> end_ < vsize v -> Z.max 0 (end_ - start + 1) < Z.of_nat fuel ->
    exists w, merge_sort_sublist fuel v start end_ = Ok w /\
              vsize w = vsize v /\ Permutation v w /\
              same_outside v w start end_ /\ sorted_seg w start end_.
Proof.
  induction fuel as [|fuel IH]; intros v start end_ Hstart Hend Hfuel; [lia|].
  cbn [merge_sort_sublist]. destruct (Z.ltb_spec start end_) as [Hlt|Hge].
  - set (middle := start + (end_ - start) ÷ 2).
    assert (Hmid : start <= middle < end_).
    { unfold middle. rewrite Z.quot_div_nonneg by lia.
      pose proof (Z.div_pos (end_ - start) 2 ltac:(lia) ltac:(lia)).
      pose proof (Z.div_lt_upper_bound (end_ - start) 2 (end_ - start) ltac:(lia) ltac:(lia)).
      lia. }
    destruct (IH v start middle)
      as (v1 & Hrun1 & Hsz1 & Hperm1 & Hout1 & Hsorted1); try lia.
    rewrite Hrun1, bind_Ok.
    destruct (IH v1 (middle + 1) end_)
      as (v2 & Hrun2 & Hsz2 & Hperm2 & Hout2 & Hsorted2); try lia.
    rewrite Hrun2, bind_Ok.
    destruct (merge_sublists_correct (Datatypes.S fuel) v2 start middle end_)
      as (v3 & Hrun3 & Hsz3 & Hperm3 & Hout3 & Hsorted3); try lia; auto.
    { intros i j Hi Hij Hj. rewrite !(Hout2 _) by lia. apply Hsorted1; lia. }
    exists v3. split; [exact Hrun3|]. split; [lia|].
    split; [etransitivity; [|eauto]; etransitivity; eauto|].
    split; [|exact Hsorted3].
    apply (same_outside_trans v v2 v3 start end_ start end_); try lia; auto.
    apply (same_outside_trans v v1 v2 start end_ (middle + 1) end_); try lia; auto.
    intros x Hx Hx'. apply Hout1; lia.
  - exists v. split; [reflexivity|]. split; [reflexivity|]. split; [reflexivity|].
    split; [apply same_outside_refl | apply sorted_seg_empty; lia].
Qed.

Lemma merge_sort_correct (fuel : nat) (v : vec) :
  vsize v <= INT_MAX -> vsize v < Z.of_nat fuel ->
  exists w, merge_sort fuel v = Ok w /\ Permutation v w /\ sorted_vec w.
Proof.
  intros Hmax Hfuel. unfold merge_sort.
  pose proof (vsize_nonneg v) as Hnn.
  rewrite to_int_size_pred by lia.
  destruct (merge_sort_sublist_correct fuel v 0 (vsize v - 1))
    as (w & Hrun & Hsz & Hperm & _ & Hsorted); try lia.
  exists w. repeat split; auto. unfold sorted_vec. now rewrite Hsz.
Qed.

(** ** Heap sort *)

Lemma heapify_stop (v : vec) (n lo i : Z) :
  heap_except v n lo i ->
  (forall c, c = 2 * i + 1 \/ c = 2 * i + 2 -> c < n -> at_ v c <= at_ v i) ->
  heap_from v n lo.
Proof.
  intros [Hother _] Hi p c Hp Hc Hn.
  destruct (Z.eq_dec p i) as [->|Hne]; [now apply Hi | now apply Hother].
Qed.

Lemma heapify_descend (v : vec) (n lo i L : Z) :
  0 <= lo -> lo <= i -> n <= vsize v ->
  heap_except v n lo i ->
  L = 2 * i + 1 \/ L = 2 * i + 2 -> L < n -> at_ v i < at_ v L ->
  (forall c, c = 2 * i + 1 \/ c = 2 * i + 2 -> c < n -> at_ v c <= at_ v L) ->
  heap_except (swapz v i L) n lo L.
Proof.
  intros Hlo Hi Hn [Hother Hgrand] HL HLn Hgt Hmax. split.
  - intros p c Hp Hne Hc Hcn.
    destruct (Z.eq_dec p i) as [->|Hpi].
    + (* the children of [i] against the new value at [i] *)
      rewrite (at_swapz_l v i L) by lia.
      destruct (Z.eq_dec c L) as [->|HcL].
      * rewrite at_swapz_r by lia. lia.
      * rewrite at_swapz_other by lia. now apply Hmax.
    + rewrite (at_swapz_other v i L p) by lia.
      destruct (Z.eq_dec c i) as [->|Hci].
      * rewrite at_swapz_l by lia.
        destruct HL as [-> | ->]; apply (Hgrand p); auto; lia.
      * rewrite at_swapz_other by lia. now apply Hother.
  - intros p c Hp HpL Hc Hcn.
    assert (p = i) as -> by lia.
    rewrite at_swapz_l, at_swapz_other by lia.
    apply Hother; auto; lia.
Qed.

Lemma max_heapify_correct (fuel : nat) :
  forall (v : vec) (n i lo : Z),
    0 <= lo -> lo <= i -> n <= vsize v -> 2 * n <= INT_MAX -> 2 * i + 2 <= INT_MAX ->
    Z.max 0 (n - i) < Z.of_nat fuel ->
    heap_except v n lo i ->
    exists w, max_heapify fuel v n i = Ok w /\
              vsize w = vsize v /\ Permutation v w /\
              same_outside v w i (n - 1) /\ heap_from w n lo.
Proof.
  induction fuel as [|fuel IH]; intros v n i lo Hlo Hi Hn Hmax Himax Hfuel Hheap; [lia|].
  assert (Hstop : (forall c, c = 2 * i + 1 \/ c = 2 * i + 2 -> c < n -> at_ v c <= at_ v i) ->
                  exists w, Ok v = Ok w /\ vsize w = vsize v /\ Permutation v w /\
                            same_outside v w i (n - 1) /\ heap_from w n lo).
  { intros Hc. exists v. split; [reflexivity|]. split; [reflexivity|].
    split; [reflexivity|]. split; [apply same_outside_refl|].
    now apply (heapify_stop v n lo i). }
  assert (Hdesc : forall L, L = 2 * i + 1 \/ L = 2 * i + 2 -> L < n -> at_ v i < at_ v L ->
                  (forall c, c = 2 * i + 1 \/ c = 2 * i + 2 -> c < n -> at_ v c <= at_ v L) ->
                  exists w, (v' ← swap v i L; max_heapify fuel v' n L) = Ok w /\
                            vsize w = vsize v /\ Permutation v w /\
                            same_outside v w i (n - 1) /\ heap_from w n lo).
  { intros L HL HLn Hgt Hc.
    rewrite swap_ok, bind_Ok by lia.
    destruct (IH (swapz v i L) n L lo) as (w & Hrun & Hsz & Hperm & Hout & Hw);
      try rewrite vsize_swapz; try lia.
    { apply heapify_descend; auto. }
    exists w. split; [exact Hrun|]. rewrite vsize_swapz in Hsz. split; [exact Hsz|].
    split; [etransitivity; [apply (swapz_perm v i L); lia | exact Hperm]|].
    split; [|exact Hw].
    intros x Hx Hx'. rewrite Hout by (rewrite ?vsize_swapz; lia).
    apply at_swapz_other; lia. }
  cbn [max_heapify]. unfold INT_MAX in *.
  rewrite !int_check_ok, !bind_Ok by (unfold INT_MIN, INT_MAX; lia).
  destruct (Z.ltb_spec (2 * i + 1) n) as [Hleft|Hleft].
  - rewrite (get_ok v (2 * i + 1)), bind_Ok, (get_ok v i), bind_Ok by lia.
    destruct (Z.gtb_spec (at_ v (2 * i + 1)) (at_ v i)) as [Hl|Hl];
      cbn [mret result_ret]; rewrite bind_Ok;
      (destruct (Z.ltb_spec (2 * i + 2) n) as [Hright|Hright];
       [ rewrite (get_ok v (2 * i + 2)), bind_Ok, (get_ok v _), bind_Ok by lia;
         match goal with
         | |- context [Z.gtb ?a ?b] => destruct (Z.gtb_spec a b) as [Hr|Hr]
         end
       | ]);
      cbn [mret result_ret]; rewrite bind_Ok;
      match goal with
      | |- context [negb (?L =? i)] => destruct (Z.eqb_spec L i) as [He|He]; try lia
      end; cbn [negb].
    + apply Hdesc; auto; try lia. intros c [-> | ->] Hc; lia.
    + apply Hdesc; auto; try lia. intros c [-> | ->] Hc; lia.
    + apply Hdesc; auto; try lia. intros c [-> | ->] Hc; lia.
    + apply Hdesc; auto; try lia. intros c [-> | ->] Hc; lia.
    + apply Hstop. intros c [-> | ->] Hc; lia.
    + apply Hstop. intros c [-> | ->] Hc; lia.
  - cbn [mret result_ret]. rewrite bind_Ok.
    destruct (Z.ltb_spec (2 * i + 2) n) as [Hright|Hright]; [lia|].
    cbn [mret result_ret]. rewrite bind_Ok.
    rewrite Z.eqb_refl. cbn [negb].
    apply Hstop. intros c [-> | ->] Hc; lia.
Qed.

(** The root of a heap is its largest element. *)
Lemma heap_root_max (v : vec) (n : Z) :
  heap_from v n 0 -> forall k, 0 <= k < n -> at_ v k <= at_ v 0.
Proof.
  intros Hheap k Hk.
  assert (H : forall m : nat, forall k, 0 <= k < n -> k <= Z.of_nat m -> at_ v k <= at_ v 0).
  { induction m as [|m IH]; intros j Hj Hm.
    - assert (j = 0) as -> by lia. lia.
    - destruct (Z.eq_dec j 0) as [->|Hne]; [lia|].
      set (p := (j - 1) / 2).
      assert (Hp : j = 2 * p + 1 \/ j = 2 * p + 2).
      { unfold p. pose proof (Z.div_mod (j - 1) 2 ltac:(lia)).
        pose proof (Z.mod_pos_bound (j - 1) 2 ltac:(lia)). lia. }
      etransitivity; [apply (Hheap p j); auto; lia|].
      apply IH; lia. }
  apply (H (Z.to_nat k)); lia.
Qed.

Lemma heap_sort_correct (fuel : nat) (v : vec) :
  2 * vsize v <= INT_MAX -> vsize v < Z.of_nat fuel ->
  exists w, heap_sort fuel v = Ok w /\ Permutation v w /\ sorted_vec w.
Proof.
  intros Hmax Hfuel. unfold heap_sort.
  pose proof (vsize_nonneg v) as Hnn.
  rewrite to_int_small by (unfold INT_MIN, INT_MAX in *; lia).
  set (n := vsize v) in *.
  assert (Hhalf : 0 <= n ÷ 2 /\ n <= 2 * (n ÷ 2) + 1 /\ 2 * (n ÷ 2) <= n).
  { rewrite Z.quot_div_nonneg by lia.
    pose proof (Z.div_mod n 2 ltac:(lia)).
    pose proof (Z.mod_pos_bound n 2 ltac:(lia)). lia. }
  (* building the heap *)
  destruct (for_down_rule
    (fun i (w : vec) => vsize w = n /\ Permutation v w /\ heap_from w n (i + 1))
    (n ÷ 2 - 1) 0 (fun i w => max_heapify fuel w n i) v)
    as (v1 & Hrun1 & Hsz1 & Hperm1 & Hheap1).
  { lia. }
  { split; [reflexivity|]. split; [reflexivity|].
    intros p c Hp Hc Hcn. lia. }
  { intros i w Hi (Hsz & Hperm & Hheap).
    destruct (max_heapify_correct fuel w n i i) as (w' & Hrun & Hsz' & Hperm' & _ & Hw');
      try lia.
    { split.
      - intros p c Hp Hne. apply Hheap. lia.
      - intros p c Hp Hc. lia. }
    exists w'. split; [exact Hrun|]. split; [lia|].
    split; [etransitivity; eauto|].
    now replace (i - 1 + 1) with i by lia. }
  rewrite Hrun1, bind_Ok. replace (0 - 1 + 1) with 0 in Hheap1 by lia.
  (* moving the maximum to the end, one element at a time *)
  destruct (for_down_rule
    (fun i (w : vec) =>
       vsize w = n /\ Permutation v w /\ heap_from w (i + 1) 0 /\
       sorted_seg w (i + 1) (n - 1) /\
       (forall a b, 0 <= a -> a <= i -> i < b -> b < n -> at_ w a <= at_ w b))
    (n - 1) 0 (fun i w => w' ← swap w 0 i; max_heapify fuel w' i 0) v1)
    as (v2 & Hrun2 & Hsz2 & Hperm2 & _ & Hsorted2 & _).
  { lia. }
  { split; [exact Hsz1|]. split; [exact Hperm1|].
    replace (n - 1 + 1) with n by lia. split; [exact Hheap1|].
    split; [apply sorted_seg_empty; lia | intros; lia]. }
  { intros i w Hi (Hsz & Hperm & Hheap & Hsorted & Hcross).
    rewrite swap_ok, bind_Ok by lia.
    pose proof (heap_root_max w (i + 1) Hheap) as Hroot.
    destruct (max_heapify_correct fuel (swapz w 0 i) i 0 0)
      as (w' & Hrun & Hsz' & Hperm' & Hout & Hw');
      try rewrite vsize_swapz; try lia.
    { split.
      - intros p c Hp Hne Hc Hci.
        rewrite !at_swapz_other by lia. apply (Hheap p c); auto; lia.
      - intros p c Hp Hc. lia. }
    rewrite vsize_swapz in Hsz'.
    assert (Hkeep : forall x, i <= x -> x < n -> at_ w' x = at_ (swapz w 0 i) x).
    { intros x Hx1 Hx2. apply Hout; rewrite ?vsize_swapz; lia. }
    assert (Htop : at_ w' i = at_ w 0).
    { rewrite Hkeep by lia. apply at_swapz_r; lia. }
    assert (Hlow : forall (P : Z -> Prop),
               (forall k, 0 <= k <= i -> P (at_ w k)) ->
               forall k, 0 <= k <= i - 1 -> P (at_ w' k)).
    { intros P HP.
      apply (seg_forall_transfer P (swapz w 0 i) w' 0 (i - 1));
        rewrite ?vsize_swapz; auto; try lia.
      intros k Hk. destruct (Z.eq_dec k 0) as [->|Hne].
      - rewrite at_swapz_l by lia. apply HP. lia.
      - rewrite at_swapz_other by lia. apply HP. lia. }
    exists w'. split; [exact Hrun|]. split; [lia|].
    split; [etransitivity; [exact Hperm|];
            etransitivity; [apply (swapz_perm w 0 i); lia | exact Hperm']|].
    replace (i - 1 + 1) with i by lia. split; [exact Hw'|]. split.
    - intros a b Ha Hab Hb.
      destruct (Z.eq_dec a i) as [->|Hai].
      + rewrite Htop. destruct (Z.eq_dec b i) as [->|Hbi]; [rewrite Htop; lia|].
        rewrite Hkeep, at_swapz_other by lia. apply Hcross; lia.
      + rewrite !Hkeep, !at_swapz_other by lia. apply Hsorted; lia.
    - intros a b Ha Hai Hib Hb.
      destruct (Z.eq_dec b i) as [->|Hbi].
      + rewrite Htop.
        apply (Hlow (fun x => x <= at_ w 0)); [|lia].
        intros k Hk. apply Hroot. lia.
      + rewrite (Hkeep b), (at_swapz_other w 0 i b) by lia.
        apply (Hlow (fun x => x <= at_ w b)); [|lia].
        intros k Hk. apply Hcross; lia. }
  exists v2. split; [exact Hrun2|]. split; [exact Hperm2|].
  unfold sorted_vec. rewrite Hsz2. now replace (0 - 1 + 1) with 0 in Hsorted2 by lia.
Qed.

(** ** The seven algorithms together *)

Lemma sorts_correct_fuel (name : string) (f : SortFunction) (S : vec) (fuel : nat) :
  In (name, f) sort_algos -> vsize S <= size_limit name -> (sort_fuel S <= fuel)%nat ->
  exists out, f fuel S = Ok out /\ Permutation S out /\ sorted_vec out.
Proof.
  intros Hin Hsize Hfuel. unfold sort_fuel in Hfuel.
  pose proof (vsize_nonneg S) as Hnn.
  assert (Hf1 : vsize S < Z.of_nat fuel) by lia.
  assert (Hf2 : (Datatypes.S (inversions S) < fuel)%nat) by lia.
  simpl in Hin.
  destruct Hin as [H|[H|[H|[H|[H|[H|[H|[]]]]]]]]; inversion H; subst name f;
    unfold size_limit in Hsize; simpl in Hsize.
  - apply insertion_sort_correct; auto.
  - apply selection_sort_correct; auto.
  - apply bubble_sort_correct; auto.
  - apply heap_sort_correct; auto. unfold INT_MAX. lia.
  - apply merge_sort_correct; auto.
  - apply quick_sort_correct; auto.
  - apply shell_sort_correct; auto.
Qed.

Lemma sorts_correct (name : string) (f : SortFunction) (S : vec) :
  In (name, f) sort_algos -> vsize S <= size_limit name ->
  exists out, returns (fun fuel => f fuel S) out /\ Permutation S out /\ sorted_vec out.
Proof.
  intros Hin Hsize.
  destruct (sorts_correct_fuel name f S (sort_fuel S) Hin Hsize (Nat.le_refl _))
    as (out & Hrun & Hperm & Hs).
  exists out. split; [|auto].
  exists (sort_fuel S). intros fuel Hle.
  destruct (sorts_correct_fuel name f S fuel Hin Hsize Hle) as (out' & Hrun' & Hperm' & Hs').
  rewrite Hrun'. f_equal.
  (* a sorted permutation is unique *)
  apply (StronglySorted_unique Z.le).
  - now apply sorted_vec_StronglySorted.
  - now apply sorted_vec_StronglySorted.
  - etransitivity; [symmetry; exact Hperm' | exact Hperm].
Qed.

(** ** Vectors whose size does not fit the index type *)

Lemma vsize_oversized : vsize oversized = 2 ^ 31.
Proof.
  unfold vsize, oversized. rewrite length_cons, repeat_length.
  rewrite Nat2Z.inj_succ, Z2Nat.id by lia. lia.
Qed.

Lemma vsize_heap_oversized : vsize heap_oversized = 2 ^ 30.
Proof.
  unfold vsize, heap_oversized. rewrite length_app, repeat_length, Nat2Z.inj_add.
  rewrite Z2Nat.id by lia. change (Z.of_nat (length [1])) with 1. lia.
Qed.

(** With 2^31 elements [n] is negative and the loop never runs. *)
Lemma insertion_sort_wraps (fuel : nat) (v : vec) :
  vsize v = 2 ^ 31 -> insertion_sort fuel v = Ok v.
Proof.
  intros Hsz. unfold insertion_sort. rewrite Hsz.
  change (to_int (2 ^ 31)) with (- 2 ^ 31).
  apply for_range_empty. lia.
Qed.

Lemma oversized_unsorted : ~ Sorted Z.le oversized.
Proof.
  unfold oversized.
  replace (Z.to_nat (2 ^ 31 - 1)) with (Datatypes.S (Z.to_nat (2 ^ 31 - 2))) by lia.
  remember (Z.to_nat (2 ^ 31 - 2)) as m. cbn [repeat].
  intros Hs. inversion Hs as [|? ? _ Hhd]. inversion Hhd. lia.
Qed.

Lemma for_down_first {S : Type} (hi lo : Z) (body : Z -> S -> result S) (s : S) :
  lo <= hi ->
  for_down hi lo body s = (s' ← body hi s; for_down (hi - 1) lo body s').
Proof.
  intros Hle. unfold for_down.
  replace (Z.to_nat (hi - lo + 1)) with (Datatypes.S (Z.to_nat (hi - 1 - lo + 1))) by lia.
  reflexivity.
Qed.

(** When the last element [v[n-1]] is the left child of [i] and beats it,
    the recursive call computes the child index [2 * (n - 1) + 2]. *)
Lemma max_heapify_overflow (fuel : nat) (v : vec) (n i : Z) :
  n <= vsize v -> 0 <= i -> 2 * i + 1 = n - 1 ->
  2 * (n - 1) + 1 <= INT_MAX -> INT_MAX < 2 * (n - 1) + 2 ->
  at_ v i < at_ v (n - 1) ->
  max_heapify fuel v n i
    = Err (match fuel with
           | O | Datatypes.S O => OutOfFuel
           | _ => Overflow
           end).
Proof.
  intros Hn Hi Hleft Hfit Hover Hgt.
  destruct fuel as [|fuel]; [reflexivity|].
  cbn [max_heapify].
  rewrite !int_check_ok, !bind_Ok by (unfold INT_MIN, INT_MAX in *; lia).
  destruct (Z.ltb_spec (2 * i + 1) n) as [_|]; [|lia].
  rewrite (get_ok v (2 * i + 1)), bind_Ok, (get_ok v i), bind_Ok by lia.
  rewrite Hleft.
  destruct (Z.gtb_spec (at_ v (n - 1)) (at_ v i)) as [_|]; [|lia].
  cbn [mret result_ret]. rewrite bind_Ok.
  destruct (Z.ltb_spec (2 * i + 2) n) as [|_]; [lia|].
  cbn [mret result_ret]. rewrite bind_Ok.
  destruct (Z.eqb_spec (n - 1) i) as [|_]; [lia|]. cbn [negb].
  rewrite swap_ok, bind_Ok by lia.
  destruct fuel as [|fuel]; [reflexivity|].
  cbn [max_heapify].
  rewrite (int_check_ok (2 * (n - 1) + 1)), bind_Ok
    by (unfold INT_MIN, INT_MAX in *; lia).
  now rewrite int_check_overflow.
Qed.

Lemma at_heap_oversized_last : at_ heap_oversized (2 ^ 30 - 1) = 1.
Proof.
  unfold at_, heap_oversized.
  rewrite app_nth2 by (rewrite repeat_length; lia).
  rewrite repeat_length, Nat.sub_diag. reflexivity.
Qed.

Lemma at_heap_oversized_zero (k : Z) : 0 <= k < 2 ^ 30 - 1 -> at_ heap_oversized k = 0.
Proof.
  intros Hk. unfold at_, heap_oversized.
  rewrite app_nth1 by (rewrite repeat_length; lia).
  apply nth_repeat.
Qed.

Lemma heap_sort_oversized (fuel : nat) :
  heap_sort fuel heap_oversized
    = Err (match fuel with
           | O | Datatypes.S O => OutOfFuel
           | _ => Overflow
           end).
Proof.
  unfold heap_sort. rewrite vsize_heap_oversized.
  change (to_int (2 ^ 30)) with (2 ^ 30).
  change (2 ^ 30 ÷ 2 - 1) with (2 ^ 29 - 1).
  rewrite for_down_first by lia.
  rewrite (max_heapify_overflow fuel heap_oversized (2 ^ 30) (2 ^ 29 - 1)).
  - reflexivity.
  - rewrite vsize_heap_oversized. lia.
  - lia.
  - lia.
  - unfold INT_MAX. lia.
  - unfold INT_MAX. lia.
  - rewrite at_heap_oversized_last, at_heap_oversized_zero by lia. lia.
Qed.

(** ** Claims about the sorting algorithms *)

(** C1, as amended: each of the seven registered algorithms, run on a
    private copy of a sequence [S] whose size is within the limit of the
    algorithm (2^31 - 1 elements, 2^30 - 1 for heap sort), the empty and
    the one-element sequences included, returns with the copy holding a
    permutation of [S] in non-decreasing order. *)
Theorem sort_algos_sort (name : string) (f : SortFunction) (S : vec) :
  In (name, f) sort_algos -> vsize S <= size_limit name ->
  exists out, returns (fun fuel => f fuel S) out /\ Permutation S out /\ Sorted Z.le out.
Proof.
  intros Hin Hsize.
  destruct (sorts_correct name f S Hin Hsize) as (out & Hret & Hperm & Hsorted).
  exists out. repeat split; auto. now apply sorted_vec_Sorted.
Qed.

Lemma sort_algos_sort_witness :
  In ("Heap Sort"%string, heap_sort) sort_algos /\
  vsize [3; 1; 2; 1] <= size_limit "Heap Sort" /\
  exists out, returns (fun fuel => heap_sort fuel [3; 1; 2; 1]) out /\
              Permutation [3; 1; 2; 1] out /\ Sorted Z.le out.
Proof.
  assert (Hin : In ("Heap Sort"%string, heap_sort) sort_algos) by (simpl; tauto).
  assert (Hsize : vsize [3; 1; 2; 1] <= size_limit "Heap Sort") by (vm_compute; discriminate).
  split; [exact Hin|]. split; [exact Hsize|].
  exact (sort_algos_sort "Heap Sort" heap_sort [3; 1; 2; 1] Hin Hsize).
Defined.

(** C1 as stated fails: on a vector of 2^31 elements [int n = v.size()]
    is negative, insertion sort returns the vector as it was, and that
    vector is not sorted. *)
Lemma insertion_sort_oversized_unsorted :
  In ("Insertion Sort"%string, insertion_sort) sort_algos /\
  (forall fuel, insertion_sort fuel oversized = Ok oversized) /\
  ~ Sorted Z.le oversized /\
  ~ (exists out, returns (fun fuel => insertion_sort fuel oversized) out /\
                 Permutation oversized out /\ Sorted Z.le out).
Proof.
  assert (Hrun : forall fuel, insertion_sort fuel oversized = Ok oversized).
  { intros fuel. apply insertion_sort_wraps, vsize_oversized. }
  split; [simpl; tauto|]. split; [exact Hrun|]. split; [exact oversized_unsorted|].
  intros (out & (fuel0 & Hret) & _ & Hsorted).
  specialize (Hret fuel0 (Nat.le_refl _)). rewrite Hrun in Hret.
  inversion Hret. subst out. exact (oversized_unsorted Hsorted).
Qed.

(** Two results of sorting the same range of the same vector are equal. *)
Lemma range_sorted_unique (v w w' : vec) (lo hi : Z) :
  0 <= lo -> hi < vsize v -> vsize w = vsize v -> vsize w' = vsize v ->
  Permutation v w -> Permutation v w' ->
  same_outside v w lo hi -> same_outside v w' lo hi ->
  sorted_seg w lo hi -> sorted_seg w' lo hi -> w = w'.
Proof.
  intros Hlo Hhi Hsz Hsz' Hperm Hperm' Hout Hout' Hs Hs'.
  destruct (Z.le_gt_cases lo (hi + 1)) as [Hle|Hgt].
  - rewrite (slice_split w lo hi), (slice_split w' lo hi) by lia.
    assert (Hslice : slice w lo hi = slice w' lo hi).
    { apply (StronglySorted_unique Z.le).
      - apply sorted_vec_StronglySorted, sorted_slice; auto; lia.
      - apply sorted_vec_StronglySorted, sorted_slice; auto; lia.
      - etransitivity; [symmetry; apply (slice_perm v w lo hi) | apply (slice_perm v w' lo hi)];
          auto; lia. }
    rewrite Hslice. f_equal; [|f_equal].
    + apply take_same; [congruence|]. intros k Hk Hk'.
      rewrite Hout', Hout by lia. reflexivity.
    + apply drop_same; [lia | congruence |]. intros k Hk.
      rewrite Hout', Hout by lia. reflexivity.
  - apply vec_ext; [congruence|]. intros k Hk.
    rewrite Hout, Hout' by lia. reflexivity.
Qed.

Lemma range_sort_returns (run : nat -> result vec) (v : vec) (lo hi : Z) (fuel0 : nat) :
  0 <= lo -> hi < vsize v ->
  (forall fuel, (fuel0 <= fuel)%nat ->
     exists w, run fuel = Ok w /\ vsize w = vsize v /\ Permutation v w /\
               same_outside v w lo hi /\ sorted_seg w lo hi) ->
  exists w, returns run w /\ vsize w = vsize v /\ Permutation v w /\
            same_outside v w lo hi /\ sorted_seg w lo hi.
Proof.
  intros Hlo Hhi Hall.
  destruct (Hall fuel0 (le_n _)) as (w & Hrun & Hsz & Hperm & Hout & Hs).
  exists w. split; [|auto].
  exists fuel0. intros fuel Hfuel.
  destruct (Hall fuel Hfuel) as (w' & Hrun' & Hsz' & Hperm' & Hout' & Hs').
  rewrite Hrun'. f_equal. apply (range_sorted_unique v w' w lo hi); auto.
Qed.

Lemma slice_same (v w : vec) (lo hi : Z) :
  0 <= lo -> lo <= hi + 1 -> hi < vsize v -> vsize w = vsize v ->
  (forall k, lo <= k <= hi -> at_ w k = at_ v k) -> slice w lo hi = slice v lo hi.
Proof.
  intros Hlo Hle Hhi Hsz Hall. apply vec_ext.
  - rewrite !vsize_slice by lia. reflexivity.
  - intros k Hk. rewrite vsize_slice in Hk by lia.
    rewrite !at_slice by lia. apply Hall. lia.
Qed.

(** What the two recursive calls of [quick_sort_sublist] do to the vector
    [v1] that the partition has left with the pivot at [p]. *)
Lemma quick_sort_sublist_sides (fuel : nat) (v1 : vec) (start end_ p : Z) :
  0 <= start -> start <= p <= end_ -> end_ < vsize v1 ->
  end_ - start + 1 < Z.of_nat fuel ->
  exists w,
    (v2 ← quick_sort_sublist fuel v1 start (p - 1);
     quick_sort_sublist fuel v2 (p + 1) end_) = Ok w /\
    vsize w = vsize v1 /\ at_ w p = at_ v1 p /\
    Permutation (slice v1 start (p - 1)) (slice w start (p - 1)) /\
    sorted_seg w start (p - 1) /\
    Permutation (slice v1 (p + 1) end_) (slice w (p + 1) end_) /\
    sorted_seg w (p + 1) end_ /\
    same_outside v1 w start end_.
Proof.
  intros Hstart Hp Hend Hfuel.
  destruct (quick_sort_sublist_correct fuel v1 start (p - 1))
    as (v2 & Hrun2 & Hsz2 & Hperm2 & Hout2 & Hs2); try lia.
  destruct (quick_sort_sublist_correct fuel v2 (p + 1) end_)
    as (w & Hrun & Hsz & Hperm & Hout & Hs); try lia.
  exists w. rewrite Hrun2, bind_Ok. split; [exact Hrun|].
  assert (Hleft : forall k, 0 <= k < p + 1 -> at_ w k = at_ v2 k).
  { intros k Hk. apply Hout; lia. }
  assert (Hright : forall k, p - 1 < k < vsize v1 -> at_ v2 k = at_ v1 k).
  { intros k Hk. apply Hout2; lia. }
  split; [lia|]. split; [rewrite Hleft, Hright by lia; reflexivity|].
  split.
  { rewrite (slice_same v2 w start (p - 1)) by (try lia; intros k Hk; apply Hleft; lia).
    apply slice_perm; auto; lia. }
  split.
  { intros i j Hi Hij Hj. rewrite !Hleft by lia. now apply Hs2. }
  split.
  { rewrite <- (slice_same v1 v2 (p + 1) end_) by (try lia; intros k Hk; apply Hright; lia).
    apply slice_perm; auto; lia. }
  split; [exact Hs|].
  apply (same_outside_trans v1 v2 w start end_ (p + 1) end_); try lia.
  - intros k Hk Hside. apply Hout2; lia.
  - exact Hout.
Qed.

(** C8: for [0 <= start <= end < length v], [partition_sublist] takes
    [v[end]] as pivot; its scan keeps, for every prefix examined, a
    boundary [i] with [v[start..i]] at most the pivot and [v[i+1..j-1]]
    above it; it returns [p] in [start..end] with the pivot at [p], the
    elements before [p] at most the pivot and those after [p] above it;
    [v[start..end]] is a permutation of what it was and the rest of the
    vector is unchanged.  [quick_sort_sublist] on a range of more than one
    element partitions and then recurses on [start..p-1] and [p+1..end]:
    it returns the vector in which each side is the sorted permutation of
    the side that the partition left, the pivot is still at [p], and the
    rest is unchanged; on a range of at most one element it returns the
    vector as it is, without partitioning. *)
Theorem partition_sublist_correct (v : vec) (start end_ : Z) :
  0 <= start -> start <= end_ -> end_ < vsize v ->
  (forall j, start <= j <= end_ ->
     exists w i,
       for_range start j (partition_step end_) (v, start - 1) = Ok (w, i) /\
       start - 1 <= i < j /\ at_ w end_ = at_ v end_ /\
       (forall k, start <= k <= i -> at_ w k <= at_ v end_) /\
       (forall k, i < k < j -> at_ v end_ < at_ w k)) /\
  exists v' p,
    partition_sublist v start end_ = Ok (v', p) /\
    start <= p <= end_ /\ vsize v' = vsize v /\
    at_ v' p = at_ v end_ /\
    (forall k, start <= k < p -> at_ v' k <= at_ v' p) /\
    (forall k, p < k <= end_ -> at_ v' k > at_ v' p) /\
    Permutation (slice v start end_) (slice v' start end_) /\
    (forall k, 0 <= k < vsize v -> k < start \/ end_ < k -> at_ v' k = at_ v k) /\
    (forall fuel, start < end_ ->
       quick_sort_sublist (Datatypes.S fuel) v start end_
         = (v2 ← quick_sort_sublist fuel v' start (p - 1);
            quick_sort_sublist fuel v2 (p + 1) end_)) /\
    (start < end_ ->
     exists w,
       returns (fun fuel => quick_sort_sublist fuel v start end_) w /\
       vsize w = vsize v /\ at_ w p = at_ v' p /\
       Permutation (slice v' start (p - 1)) (slice w start (p - 1)) /\
       sorted_seg w start (p - 1) /\
       Permutation (slice v' (p + 1) end_) (slice w (p + 1) end_) /\
       sorted_seg w (p + 1) end_ /\
       same_outside v w start end_ /\ sorted_seg w start end_) /\
    (forall (u : vec) (a b : Z) (fuel : nat),
       b <= a -> quick_sort_sublist (Datatypes.S fuel) u a b = Ok u).
Proof.
  intros Hstart Hle Hsz. split.
  - intros j Hj.
    destruct (partition_scan v start end_ j) as ([w i] & Hrun & Hinv); try lia.
    destruct Hinv as (_ & _ & Hout & Hi & Hsmall & Hlarge).
    exists w, i. split; [exact Hrun|]. split; [exact Hi|].
    split; [apply Hout; lia|]. split.
    + intros k Hk. apply Hsmall; lia.
    + intros k Hk. apply Hlarge; lia.
  - destruct (partition_sublist_spec v start end_)
      as (v' & p & Hpart & Hp & Hsz' & Hperm & Hout & Hpiv & Hsmall & Hlarge); try lia.
    assert (Hunfold : forall fuel, start < end_ ->
              quick_sort_sublist (Datatypes.S fuel) v start end_
              = (v2 ← quick_sort_sublist fuel v' start (p - 1);
                 quick_sort_sublist fuel v2 (p + 1) end_)).
    { intros fuel Hlt. cbn [quick_sort_sublist].
      destruct (Z.ltb_spec start end_); [|lia].
      now rewrite Hpart, bind_Ok. }
    exists v', p. split; [exact Hpart|]. split; [exact Hp|]. split; [exact Hsz'|].
    split; [exact Hpiv|]. split; [intros k Hk; apply Hsmall; lia|].
    split; [intros k Hk; apply Z.lt_gt, Hlarge; lia|].
    split; [apply slice_perm; auto; lia|]. split; [exact Hout|].
    split; [exact Hunfold|]. split.
    + intros Hlt.
      destruct (range_sort_returns (fun fuel => quick_sort_sublist fuel v start end_)
                  v start end_ (Datatypes.S (Z.to_nat (Z.max 0 (end_ - start + 1)))))
        as (w & [fuel0 Hret] & Hszw & Hpermw & Houtw & Hsw); auto.
      { intros fuel Hfuel. apply quick_sort_sublist_correct; auto. lia. }
      exists w. split; [now exists fuel0|]. split; [exact Hszw|].
      set (fuel := Nat.max fuel0 (Datatypes.S (Z.to_nat (end_ - start + 1)))).
      assert (Hfuel : end_ - start + 1 < Z.of_nat fuel) by (unfold fuel; lia).
      destruct (quick_sort_sublist_sides fuel v' start end_ p Hstart Hp ltac:(lia) Hfuel)
        as (w' & Hrun & _ & Hpivot & Hpl & Hsl & Hpr & Hsr & _).
      assert (Heq : w' = w).
      { rewrite <- (Hunfold fuel Hlt), (Hret (Datatypes.S fuel)) in Hrun
          by (unfold fuel; lia).
        now inversion Hrun. }
      subst w'. auto 10.
    + intros u a b fuel Hba. cbn [quick_sort_sublist].
      destruct (Z.ltb_spec a b); [lia | reflexivity].
Qed.

Lemma partition_sublist_correct_witness :
  0 <= 0 /\ 0 <= 3 /\ 3 < vsize [5; 1; 4; 3] /\
  exists v' p,
    partition_sublist [5; 1; 4; 3] 0 3 = Ok (v', p) /\ 0 <= p <= 3 /\
    at_ v' p = at_ [5; 1; 4; 3] 3 /\
    exists w,
      returns (fun fuel => quick_sort_sublist fuel [5; 1; 4; 3] 0 3) w /\
      vsize w = vsize [5; 1; 4; 3] /\ at_ w p = at_ v' p /\
      sorted_seg w 0 (p - 1) /\ sorted_seg w (p + 1) 3.
Proof.
  assert (H1 : 0 <= 0) by lia.
  assert (H2 : 0 <= 3) by lia.
  assert (H3 : 3 < vsize [5; 1; 4; 3]) by (vm_compute; reflexivity).
  split; [exact H1|]. split; [exact H2|]. split; [exact H3|].
  destruct (partition_sublist_correct [5; 1; 4; 3] 0 3 H1 H2 H3)
    as (_ & v' & p & Hrun & Hp & _ & Hpiv & _ & _ & _ & _ & _ & Hrec & _).
  exists v', p. split; [exact Hrun|]. split; [exact Hp|]. split; [exact Hpiv|].
  destruct (Hrec ltac:(lia)) as (w & Hret & Hsz & Hpivot & _ & Hsl & _ & Hsr & _).
  exists w. auto.
Defined.

(** C9, as amended: each of the seven sorting functions, the recursive
    ones included, returns without fault on every sequence whose size is
    within the limit of the algorithm; on the empty sequence [merge_sort]
    and [quick_sort] pass the end index [size - 1 = -1] and return at
    once, as they do on a one-element sequence. *)
Theorem sort_algos_terminate (name : string) (f : SortFunction) (S : vec) :
  In (name, f) sort_algos -> vsize S <= size_limit name ->
  (exists out, returns (fun fuel => f fuel S) out) /\
  to_int (size_sub (vsize []) 1) = -1 /\
  (forall fuel x,
     merge_sort_sublist (Datatypes.S fuel) [] 0 (-1) = Ok [] /\
     quick_sort_sublist (Datatypes.S fuel) [] 0 (-1) = Ok [] /\
     merge_sort (Datatypes.S fuel) [x] = Ok [x] /\
     quick_sort (Datatypes.S fuel) [x] = Ok [x]).
Proof.
  intros Hin Hsize. split; [|split].
  - destruct (sorts_correct name f S Hin Hsize) as (out & Hret & _).
    exists out. exact Hret.
  - reflexivity.
  - intros fuel x. repeat split; reflexivity.
Qed.

Lemma sort_algos_terminate_witness :
  In ("Merge Sort"%string, merge_sort) sort_algos /\
  vsize [] <= size_limit "Merge Sort" /\
  exists out, returns (fun fuel => merge_sort fuel []) out.
Proof.
  assert (Hin : In ("Merge Sort"%string, merge_sort) sort_algos) by (simpl; tauto).
  assert (Hsize : vsize [] <= size_limit "Merge Sort") by (vm_compute; discriminate).
  split; [exact Hin|]. split; [exact Hsize|].
  exact (proj1 (sort_algos_terminate "Merge Sort" merge_sort [] Hin Hsize)).
Defined.

(** C9 as stated fails: on a vector of 2^30 elements whose last element
    is the largest, heap sort computes the child index [2 * (2^30 - 1) + 2],
    which is not an [int]; no fuel makes it return. *)
Lemma heap_sort_oversized_faults :
  In ("Heap Sort"%string, heap_sort) sort_algos /\
  (forall fuel, (2 <= fuel)%nat -> heap_sort fuel heap_oversized = Err Overflow) /\
  ~ (exists out, returns (fun fuel => heap_sort fuel heap_oversized) out).
Proof.
  split; [simpl; tauto|]. split.
  - intros fuel Hfuel. rewrite heap_sort_oversized.
    destruct fuel as [|[|fuel]]; [lia | lia | reflexivity].
  - intros (out & fuel0 & Hret).
    specialize (Hret fuel0 (Nat.le_refl _)). rewrite heap_sort_oversized in Hret.
    discriminate.
Qed.

(** * The reader *)

(** ** Characters and scanning *)

Lemma space_not_digit (c : ascii) : is_space c = true -> is_digit c = false.
Proof. destruct c as [[] [] [] [] [] [] [] []]; vm_compute; congruence. Qed.

Lemma space_not_sign (c : ascii) :
  is_space c = true -> Ascii.eqb c "-" = false /\ Ascii.eqb c "+" = false.
Proof. destruct c as [[] [] [] [] [] [] [] []]; vm_compute; split; congruence. Qed.

Lemma digit_not_sign (c : ascii) :
  is_digit c = true -> Ascii.eqb c "-" = false /\ Ascii.eqb c "+" = false.
Proof. destruct c as [[] [] [] [] [] [] [] []]; vm_compute; split; congruence. Qed.

Lemma newline_is_space : is_space newline = true.
Proof. reflexivity. Qed.

Lemma skip_ws_starts_word (l : list ascii) : starts_word (skip_ws l).
Proof.
  induction l as [|c l IH]; simpl; [exact I|].
  destruct (is_space c) eqn:E; [exact IH | exact E].
Qed.

Lemma skip_ws_length (l : list ascii) : (length (skip_ws l) <= length l)%nat.
Proof.
  induction l as [|c l IH]; simpl; [lia|].
  destruct (is_space c); simpl; lia.
Qed.

Lemma skip_ws_id (l : list ascii) : starts_word l -> skip_ws l = l.
Proof. destruct l as [|c l]; simpl; [reflexivity|]. now intros ->. Qed.

Lemma take_word_spec (l : list ascii) :
  forall w rest, take_word l = (w, rest) ->
    l = w ++ rest /\ forallb (fun c => negb (is_space c)) w = true /\ ends_word rest.
Proof.
  induction l as [|c l IH]; simpl; intros w rest H.
  - inversion H. repeat split.
  - destruct (is_space c) eqn:E.
    + inversion H. subst. repeat split. exact E.
    + destruct (take_word l) as [w' rest'] eqn:Ew. inversion H. subst.
      destruct (IH w' rest eq_refl) as (-> & Hw & Hrest).
      repeat split; auto. simpl. now rewrite E, Hw.
Qed.

Lemma take_word_nonempty (c : ascii) (l : list ascii) :
  is_space c = false ->
  exists w rest, take_word (c :: l) = (c :: w, rest) /\ take_word l = (w, rest).
Proof.
  intros E. simpl. rewrite E. destruct (take_word l) as [w rest]. eauto.
Qed.

Lemma take_digits_spec (l : list ascii) :
  forall d rest, take_digits l = (d, rest) ->
    l = d ++ rest /\ forallb is_digit d = true /\
    match rest with [] => True | c :: _ => is_digit c = false end.
Proof.
  induction l as [|c l IH]; simpl; intros d rest H.
  - inversion H. repeat split.
  - destruct (is_digit c) eqn:E.
    + destruct (take_digits l) as [d' rest'] eqn:Ed. inversion H. subst.
      destruct (IH d' rest eq_refl) as (-> & Hd & Hrest).
      repeat split; auto. simpl. now rewrite E, Hd.
    + inversion H. subst. repeat split. exact E.
Qed.

Lemma take_digits_app (d rest : list ascii) :
  forallb is_digit d = true ->
  match rest with [] => True | c :: _ => is_digit c = false end ->
  take_digits (d ++ rest) = (d, rest).
Proof.
  intros Hd Hrest. induction d as [|c d IH]; simpl in *.
  - destruct rest as [|c r]; [reflexivity|]. simpl. now rewrite Hrest.
  - apply andb_true_iff in Hd as [Hc Hd]. now rewrite Hc, IH.
Qed.

(** ** The state bits of a stream *)

Lemma wf_open_stream (l : list ascii) : wf_stream (open_stream l).
Proof. split; simpl; discriminate. Qed.

Lemma is_nil_true {A : Type} (l : list A) : is_nil l = true -> l = [].
Proof. destruct l; [reflexivity | discriminate]. Qed.

(** [ss >> elem]: the stream afterwards. *)
Lemma extract_int_shape (s : istream) (elem : Z) :
  wf_stream s ->
  let '(s', _) := extract_int s elem in
  (eofbit s' = true -> buf s' = []) /\
  (length (buf s') <= length (buf s))%nat /\
  (failbit s' = false -> (length (buf s') < length (buf s))%nat) /\
  (eofbit s' = false -> buf s' <> []).
Proof.
  intros [Hf He]. unfold extract_int.
  destruct (good s) eqn:Hgood.
  - pose proof (skip_ws_length (buf s)) as Hlen.
    destruct (skip_ws (buf s)) as [|c r] eqn:Hskip.
    + simpl. repeat split; auto; try lia; discriminate.
    + set (body := if (Ascii.eqb c "-" || Ascii.eqb c "+")%bool then r else c :: r).
      assert (Hbody : (length body <= length (c :: r))%nat).
      { unfold body. destruct (Ascii.eqb c "-" || Ascii.eqb c "+")%bool; simpl; lia. }
      destruct (take_digits body) as [d rest] eqn:Hd.
      destruct (take_digits_spec body d rest Hd) as (Hb & _ & _).
      assert (Hrest : (length rest + length d <= length (buf s))%nat).
      { rewrite Hb, length_app in Hbody. simpl in *. lia. }
      assert (Hnil : is_nil rest = false -> rest <> []).
      { destruct rest; [discriminate | congruence]. }
      destruct d as [|d0 d]; cbn [is_nil].
      * simpl. repeat split; auto using is_nil_true; try lia; try discriminate.
      * simpl in Hrest.
        destruct (_ <? INT_MIN); [|destruct (INT_MAX <? _)]; simpl;
          repeat split; auto using is_nil_true; try lia; try discriminate.
  - simpl. unfold good in Hgood.
    assert (Heof : eofbit s = true).
    { destruct (eofbit s); [reflexivity|]. destruct (failbit s) eqn:E; [auto | discriminate]. }
    repeat split; auto; try lia; try discriminate.
    rewrite Heof. discriminate.
Qed.

Lemma extract_word_shape (s : istream) :
  good s = true -> buf s <> [] ->
  let '(s', _) := extract_word s in
  wf_stream s' /\ (length (buf s') < length (buf s))%nat.
Proof.
  intros Hgood Hne. unfold extract_word. rewrite Hgood.
  pose proof (skip_ws_length (buf s)) as Hlen.
  pose proof (skip_ws_starts_word (buf s)) as Hstart.
  destruct (skip_ws (buf s)) as [|c r] eqn:Hskip.
  - simpl. split; [split; auto|]. destruct (buf s); [congruence | simpl; lia].
  - simpl in Hstart.
    destruct (take_word_nonempty c r Hstart) as (w & rest & Hw & Hw').
    rewrite Hw. destruct (take_word_spec r w rest Hw') as (Hr & _ & _).
    simpl. split; [split; simpl; auto using is_nil_true; discriminate|].
    simpl in Hlen. rewrite Hr, length_app in Hlen. lia.
Qed.

Lemma good_clear (s : istream) : good (clear s) = true.
Proof. reflexivity. Qed.

(** ** The loop over one line returns *)

Lemma read_elements_total (fuel : nat) (linecount : Z) :
  forall st : line_state,
    wf_stream (ls_ss st) -> (length (buf (ls_ss st)) < fuel)%nat ->
    exists st', read_elements fuel linecount st = Ok st'.
Proof.
  induction fuel as [|fuel IH]; intros st Hwf Hfuel; [lia|].
  cbn [read_elements].
  pose proof (extract_int_shape (ls_ss st) (ls_elem st) Hwf) as Hshape.
  destruct (extract_int (ls_ss st) (ls_elem st)) as [ss elem].
  destruct Hshape as (Heof & Hlen & Hok & Hrest).
  destruct (failbit ss) eqn:Hfail; cbn [negb orb].
  - destruct (eofbit ss) eqn:He; cbn [negb]; [eauto|].
    pose proof (extract_word_shape (clear ss) (good_clear ss) (Hrest eq_refl)) as Hw.
    destruct (extract_word (clear ss)) as [ss' w].
    destruct Hw as (Hwf' & Hlen'). apply IH; simpl in *; [exact Hwf' | lia].
  - apply IH; simpl.
    + split; [congruence | exact Heof].
    + specialize (Hok eq_refl). lia.
Qed.

(** More fuel does not change a result. *)
Lemma read_elements_mono (fuel : nat) (linecount : Z) :
  forall (st st' : line_state) (fuel' : nat),
    read_elements fuel linecount st = Ok st' -> (fuel <= fuel')%nat ->
    read_elements fuel' linecount st = Ok st'.
Proof.
  induction fuel as [|fuel IH]; intros st st' fuel' Hrun Hle; [discriminate|].
  destruct fuel' as [|fuel']; [lia|].
  cbn [read_elements] in *.
  destruct (extract_int (ls_ss st) (ls_elem st)) as [ss elem].
  destruct (negb (failbit ss) || negb (eofbit ss)); [|exact Hrun].
  destruct (failbit ss).
  - destruct (extract_word (clear ss)) as [ss' w]. eapply IH; [exact Hrun | lia].
  - eapply IH; [exact Hrun | lia].
Qed.

Lemma read_lines_mono (fuel : nat) :
  forall (st st' : reader_state) (fuel' : nat),
    read_lines fuel st = Ok st' -> (fuel <= fuel')%nat -> read_lines fuel' st = Ok st'.
Proof.
  induction fuel as [|fuel IH]; intros st st' fuel' Hrun Hle; [discriminate|].
  destruct fuel' as [|fuel']; [lia|].
  cbn [read_lines] in *.
  destruct (negb (eofbit (rs_cin st)) && negb (is_nil (rs_data_str st))); [|exact Hrun].
  destruct (read_elements (Datatypes.S fuel) _ _) as [ls|e] eqn:Hls; [|discriminate].
  rewrite (read_elements_mono _ _ _ _ (Datatypes.S fuel') Hls) by lia.
  rewrite bind_Ok in *.
  destruct (getline (rs_cin st) (rs_data_str st)) as [cin data_str].
  eapply IH; [exact Hrun | lia].
Qed.

Lemma read_in_datasets_mono (fuel fuel' : nat) (cin : istream) (datasets : list vec)
    (r : istream * list vec * list diagnostic) :
  read_in_datasets fuel cin datasets = Ok r -> (fuel <= fuel')%nat ->
  read_in_datasets fuel' cin datasets = Ok r.
Proof.
  unfold read_in_datasets. intros Hrun Hle.
  destruct (getline cin []) as [cin1 data_str].
  destruct (read_lines fuel _) as [st|e] eqn:Hst; [|discriminate].
  now rewrite (read_lines_mono _ _ _ fuel' Hst Hle).
Qed.

(** ** getline *)

Lemma split_line_newline (l rest : list ascii) :
  forallb (fun c => negb (Ascii.eqb c newline)) l = true ->
  split_line (l ++ newline :: rest) = (l, Some rest).
Proof.
  intros Hl. induction l as [|c l IH]; simpl in *.
  - reflexivity.
  - apply andb_true_iff in Hl as [Hc Hl].
    destruct (Ascii.eqb c newline); [discriminate|]. now rewrite IH.
Qed.

Lemma split_line_end (l : list ascii) :
  forallb (fun c => negb (Ascii.eqb c newline)) l = true ->
  split_line l = (l, None).
Proof.
  intros Hl. induction l as [|c l IH]; simpl in *.
  - reflexivity.
  - apply andb_true_iff in Hl as [Hc Hl].
    destruct (Ascii.eqb c newline); [discriminate|]. now rewrite IH.
Qed.

Lemma split_line_length (l : list ascii) :
  forall line rest, split_line l = (line, rest) ->
    (length line <= length l)%nat /\
    match rest with
    | Some r => (length line + length r < length l)%nat
    | None => True
    end.
Proof.
  induction l as [|c l IH]; simpl; intros line rest H.
  - inversion H. simpl. auto.
  - destruct (Ascii.eqb c newline).
    + inversion H. simpl. split; lia.
    + destruct (split_line l) as [line' rest'] eqn:E. inversion H. subst.
      destruct (IH line' rest eq_refl) as [H1 H2]. simpl. split; [lia|].
      destruct rest; [lia | exact I].
Qed.

(** ** The loop over the lines returns *)

Lemma read_lines_total (fuel : nat) :
  forall st : reader_state,
    (eofbit (rs_cin st) = false -> good (rs_cin st) = true) ->
    (length (buf (rs_cin st)) + 1 < fuel)%nat -> (length (rs_data_str st) < fuel)%nat ->
    exists st', read_lines fuel st = Ok st'.
Proof.
  induction fuel as [|fuel IH]; intros st Hgood Hcin Hstr; [lia|].
  cbn [read_lines].
  destruct (eofbit (rs_cin st)) eqn:Heof; cbn [negb andb]; [eauto|].
  destruct (is_nil (rs_data_str st)); cbn [negb]; [eauto|].
  destruct (read_elements_total (Datatypes.S fuel) (rs_linecount st)
              {| ls_ss := open_stream (rs_data_str st); ls_elem := rs_elem st;
                 ls_position := 1; ls_dataset := []; ls_err := rs_err st;
                 ls_errors_occured := rs_errors_occured st |})
    as (ls & Hls); [apply wf_open_stream | simpl; lia |].
  rewrite Hls, bind_Ok.
  unfold getline. rewrite (Hgood eq_refl).
  destruct (split_line (buf (rs_cin st))) as [line' rest] eqn:Hsplit.
  destruct (split_line_length _ _ _ Hsplit) as [Hline Hrest].
  destruct rest as [rest|].
  - apply IH; simpl; auto; lia.
  - destruct fuel as [|fuel]; [lia|]. cbn [read_lines]. simpl. eauto.
Qed.

Lemma read_in_datasets_total (cin : istream) (datasets : list vec) (fuel : nat) :
  (length (buf cin) + 1 < fuel)%nat ->
  exists r, read_in_datasets fuel cin datasets = Ok r.
Proof.
  intros Hfuel. unfold read_in_datasets, getline.
  destruct (good cin) eqn:Hg.
  - destruct (split_line (buf cin)) as [l rest] eqn:Hs.
    destruct (split_line_length _ _ _ Hs) as [Hl Hrest].
    assert (H : exists st, read_lines fuel
       {| rs_cin := match rest with
                    | Some r => {| buf := r; eofbit := false; failbit := false |}
                    | None => {| buf := []; eofbit := true; failbit := is_nil l |}
                    end;
          rs_datasets := datasets; rs_data_str := l; rs_elem := 0; rs_linecount := 1;
          rs_err := []; rs_errors_occured := false |} = Ok st).
    { destruct rest as [r|].
      - apply read_lines_total; simpl; auto; lia.
      - destruct fuel as [|fuel]; [lia|]. cbn [read_lines]. simpl. eauto. }
    destruct H as (st & Hst). destruct rest as [r|]; rewrite Hst, bind_Ok; eauto.
  - destruct fuel as [|fuel]; [lia|]. cbn [read_lines]. simpl.
    rewrite andb_false_r. rewrite bind_Ok. eauto.
Qed.

(** ** What the specification says of a line

    The specification reads a line as whitespace-delimited tokens, each
    parsed as a whole as a signed integer: a token that parses is
    appended, a token that does not is reported with the line number and
    its position among the tokens, and skipped. *)

Lemma spec_tokens_upto_enough (n m : nat) :
  forall l, (length l <= n)%nat -> (length l <= m)%nat ->
            spec_tokens_upto n l = spec_tokens_upto m l.
Proof.
  revert m. induction n as [|n IH]; intros m l Hn Hm.
  - destruct l; [|simpl in Hn; lia]. destruct m; reflexivity.
  - destruct m as [|m].
    + destruct l; [reflexivity | simpl in Hm; lia].
    + cbn [spec_tokens_upto]. pose proof (skip_ws_length l) as Hlen.
      pose proof (skip_ws_starts_word l) as Hstart.
      destruct (skip_ws l) as [|c r]; [reflexivity|].
      simpl in Hstart. cbv beta iota.
      destruct (take_word_nonempty c r Hstart) as (w & rest & Hw & Hw').
      rewrite Hw. f_equal.
      destruct (take_word_spec r w rest Hw') as (Hr & _).
      assert ((length rest < length (c :: r))%nat).
      { simpl. rewrite Hr, length_app. lia. }
      apply IH; lia.
Qed.

Lemma spec_tokens_blank (l : list ascii) : skip_ws l = [] -> spec_tokens l = [].
Proof.
  intros H. unfold spec_tokens. destruct (length l); cbn [spec_tokens_upto]; [reflexivity|].
  now rewrite H.
Qed.

Lemma spec_tokens_word (l : list ascii) (c : ascii) (r w rest : list ascii) :
  skip_ws l = c :: r -> take_word (c :: r) = (w, rest) ->
  spec_tokens l = w :: spec_tokens rest /\ (length rest < length l)%nat.
Proof.
  intros Hskip Hw. unfold spec_tokens.
  pose proof (skip_ws_length l) as Hlen. rewrite Hskip in Hlen.
  pose proof (skip_ws_starts_word l) as Hstart. rewrite Hskip in Hstart. simpl in Hstart.
  destruct (take_word_nonempty c r Hstart) as (w' & rest' & Hw1 & Hw2).
  rewrite Hw in Hw1. inversion Hw1. subst w rest'.
  destruct (take_word_spec r w' rest Hw2) as (Hr & _).
  assert (Hshort : (length rest < length l)%nat).
  { simpl in Hlen. rewrite Hr, length_app in Hlen. lia. }
  split; [|exact Hshort].
  destruct (length l) as [|n] eqn:En; [lia|].
  cbn [spec_tokens_upto]. rewrite Hskip. cbv beta iota. rewrite Hw. f_equal.
  apply spec_tokens_upto_enough; lia.
Qed.

(** ** Clean lines: the code and the specification agree *)

Lemma ends_word_not_digit (rest : list ascii) :
  ends_word rest -> match rest with [] => True | c :: _ => is_digit c = false end.
Proof. destruct rest as [|c r]; simpl; [auto | apply space_not_digit]. Qed.

Lemma extract_int_parses (l : list ascii) (c : ascii) (r tok rest : list ascii)
    (value elem : Z) :
  skip_ws l = c :: r -> take_word (c :: r) = (tok, rest) ->
  spec_parse_int tok = Some value ->
  extract_int {| buf := l; eofbit := false; failbit := false |} elem
    = ({| buf := rest; eofbit := is_nil rest; failbit := false |}, value).
Proof.
  intros Hskip Hw Hparse.
  pose proof (skip_ws_starts_word l) as Hstart. rewrite Hskip in Hstart. simpl in Hstart.
  destruct (take_word_nonempty c r Hstart) as (w & rest' & Hw1 & Hw2).
  rewrite Hw in Hw1. inversion Hw1. subst tok rest'.
  destruct (take_word_spec r w rest Hw2) as (Hr & _ & Hend).
  unfold extract_int. cbn [good eofbit failbit buf negb andb]. rewrite Hskip.
  unfold spec_parse_int in Hparse. cbn [tl] in Hparse.
  set (signed := (Ascii.eqb c "-" || Ascii.eqb c "+")%bool) in *.
  set (body := if signed then w else c :: w) in *.
  assert (Hbody : (if signed then r else c :: r) = body ++ rest).
  { unfold body. destruct signed; [exact Hr | simpl; now rewrite Hr]. }
  rewrite Hbody.
  destruct (negb (is_nil body) && forallb is_digit body
            && (INT_MIN <=? (if Ascii.eqb c "-" then - digits_value body else digits_value body))
            && ((if Ascii.eqb c "-" then - digits_value body else digits_value body) <=? INT_MAX))
    eqn:Hcond; [|discriminate].
  inversion Hparse as [Hv]. clear Hparse.
  apply andb_true_iff in Hcond as [Hcond Hmax].
  apply andb_true_iff in Hcond as [Hcond Hmin].
  apply andb_true_iff in Hcond as [Hne Hdigits].
  rewrite (take_digits_app body rest Hdigits (ends_word_not_digit rest Hend)).
  destruct (is_nil body); [discriminate|].
  apply Z.leb_le in Hmin, Hmax.
  destruct (Z.ltb_spec (if Ascii.eqb c "-" then - digits_value body else digits_value body)
              INT_MIN); [lia|].
  destruct (Z.ltb_spec INT_MAX
              (if Ascii.eqb c "-" then - digits_value body else digits_value body)); [lia|].
  reflexivity.
Qed.

Lemma extract_int_rejects (l : list ascii) (c : ascii) (r : list ascii) (elem : Z) :
  skip_ws l = c :: r ->
  is_digit c = false -> Ascii.eqb c "-" = false -> Ascii.eqb c "+" = false ->
  extract_int {| buf := l; eofbit := false; failbit := false |} elem
    = ({| buf := c :: r; eofbit := false; failbit := true |}, 0).
Proof.
  intros Hskip Hd Hminus Hplus.
  unfold extract_int. cbn [good eofbit failbit buf negb andb]. rewrite Hskip.
  rewrite Hminus, Hplus. cbn [orb take_digits]. rewrite Hd. reflexivity.
Qed.

Lemma extract_word_takes (c : ascii) (r tok rest : list ascii) :
  is_space c = false -> take_word (c :: r) = (tok, rest) ->
  extract_word (clear {| buf := c :: r; eofbit := false; failbit := true |})
    = ({| buf := rest; eofbit := is_nil rest; failbit := false |}, tok).
Proof.
  intros Hc Hw. unfold extract_word, clear. cbn [good eofbit failbit buf negb andb].
  rewrite (skip_ws_id (c :: r)) by exact Hc. now rewrite Hw.
Qed.

Lemma spec_parse_int_rejects (c : ascii) (w : list ascii) :
  is_digit c = false -> Ascii.eqb c "-" = false -> Ascii.eqb c "+" = false ->
  spec_parse_int (c :: w) = None.
Proof.
  intros Hd Hminus Hplus. unfold spec_parse_int.
  rewrite Hminus, Hplus. cbn [orb forallb is_nil negb andb]. now rewrite Hd.
Qed.

Lemma read_elements_clean (n : nat) :
  forall (l : list ascii) (atend : bool),
    (atend = true -> l = []) -> (length l <= n)%nat ->
    Forall (fun t => clean_token t = true) (spec_tokens l) ->
    forall (fuel : nat) (linecount elem position : Z) (d : vec)
           (e : list diagnostic) (eo : bool),
      (n < fuel)%nat ->
      exists st',
        read_elements fuel linecount
          {| ls_ss := {| buf := l; eofbit := atend; failbit := false |};
             ls_elem := elem; ls_position := position; ls_dataset := d;
             ls_err := e; ls_errors_occured := eo |} = Ok st' /\
        ls_dataset st' = d ++ (spec_scan linecount position (spec_tokens l)).1 /\
        ls_err st' = e ++ (spec_scan linecount position (spec_tokens l)).2.
Proof.
  induction n as [|n IH]; intros l atend Hend Hlen Hclean fuel linecount elem position
    d e eo Hfuel; (destruct fuel as [|fuel]; [lia|]); cbn [read_elements ls_ss ls_elem].
  - (* nothing left on the line *)
    destruct l; [|simpl in Hlen; lia].
    assert (Hx : exists s', extract_int {| buf := []; eofbit := atend; failbit := false |} elem
                   = (s', elem) /\ failbit s' = true /\ eofbit s' = true).
    { destruct atend; eexists; split; try reflexivity; auto. }
    destruct Hx as (s' & -> & Hf & He). rewrite Hf, He. cbn [negb orb].
    eexists. split; [reflexivity|]. simpl. now rewrite !app_nil_r.
  - destruct atend.
    + rewrite (Hend eq_refl). cbn.
      eexists. split; [reflexivity|]. simpl. now rewrite !app_nil_r.
    + pose proof (skip_ws_starts_word l) as Hstart.
      destruct (skip_ws l) as [|c r] eqn:Hskip.
      * (* only whitespace is left *)
        rewrite (spec_tokens_blank l Hskip).
        unfold extract_int. cbn [good eofbit failbit buf negb andb]. rewrite Hskip.
        cbn. eexists. split; [reflexivity|]. simpl. now rewrite !app_nil_r.
      * simpl in Hstart.
        destruct (take_word (c :: r)) as [tok rest] eqn:Hw.
        destruct (spec_tokens_word l c r tok rest Hskip Hw) as (Htoks & Hshort).
        rewrite Htoks in *. inversion Hclean as [|? ? Htok Hrest]. subst.
        assert (Hnil : is_nil rest = true -> rest = []) by apply is_nil_true.
        cbn [spec_scan].
        destruct (spec_scan linecount (position + 1) (spec_tokens rest)) as [D E] eqn:Hscan.
        unfold clean_token in Htok.
        destruct (spec_parse_int tok) as [value|] eqn:Hparse.
        -- rewrite (extract_int_parses l c r tok rest value elem Hskip Hw Hparse).
           cbn [failbit eofbit negb orb].
           destruct (IH rest (is_nil rest) Hnil ltac:(lia) Hrest fuel linecount value
                       (position + 1) (d ++ [value]) e eo ltac:(lia))
             as (st' & Hrun & Hd & He).
           exists st'. split; [exact Hrun|]. rewrite Hd, He, Hscan. simpl.
           now rewrite <- app_assoc.
        -- destruct (take_word_nonempty c r Hstart) as (w & rest' & Hw1 & _).
           rewrite Hw in Hw1. inversion Hw1. subst tok rest'.
           apply andb_true_iff in Htok as [Htok Hplus].
           apply andb_true_iff in Htok as [Hdigit Hminus].
           apply negb_true_iff in Hdigit, Hminus, Hplus.
           rewrite (extract_int_rejects l c r elem Hskip Hdigit Hminus Hplus).
           cbn [failbit eofbit negb orb].
           rewrite (extract_word_takes c r (c :: w) rest Hstart Hw).
           destruct (IH rest (is_nil rest) Hnil ltac:(lia) Hrest fuel linecount 0
                       (position + 1) d (e ++ [ConvertError linecount position]) true
                       ltac:(lia))
             as (st' & Hrun & Hd & He).
           exists st'. split; [exact Hrun|]. rewrite Hd, He, Hscan. simpl.
           now rewrite <- app_assoc.
Qed.

(** ** Claims about the reader *)


(** C5, on the failing input: two lines of which the second is not ended
    by a newline.  [std::getline] reads the second line and sets [eofbit],
    the loop test [!std::cin.eof()] fails, and the line gives no dataset. *)
Theorem read_in_datasets_drops_unterminated_line (more : nat) :
  read_in_datasets (10 + more) (open_stream (line "1 2" ++ chars "3 4")) []
    = Ok ({| buf := []; eofbit := true; failbit := false |}, [[1; 2]], []) /\
  getline (open_stream (chars "3 4")) []
    = ({| buf := []; eofbit := true; failbit := false |}, chars "3 4").
Proof.
  split; [|reflexivity].
  apply (read_in_datasets_mono 10); [|lia].
  vm_compute. reflexivity.
Qed.

(** A line of whitespace only that [std::getline] delivers before the
    end of input is processed as a line: it appends an empty dataset,
    writes no diagnostic, and the loop goes on with the next line; the
    loop stops on a line that is empty.  The input of three lines
    "1 2", " " and "3 4" gives the datasets [1; 2], [] and [3; 4]. *)
Theorem whitespace_line_gives_empty_dataset (fuel : nat) (st : reader_state) :
  eofbit (rs_cin st) = false -> rs_data_str st <> [] ->
  forallb is_space (rs_data_str st) = true ->
  read_lines (Datatypes.S fuel) st
    = read_lines fuel
        {| rs_cin := (getline (rs_cin st) (rs_data_str st)).1;
           rs_datasets := rs_datasets st ++ [[]];
           rs_data_str := (getline (rs_cin st) (rs_data_str st)).2;
           rs_elem := rs_elem st;
           rs_linecount := rs_linecount st + 1;
           rs_err := rs_err st;
           rs_errors_occured := rs_errors_occured st |} /\
  (forall st0 : reader_state, rs_data_str st0 = [] ->
     read_lines (Datatypes.S fuel) st0 = Ok st0) /\
  (forall more : nat,
     read_in_datasets (10 + more) (open_stream (line "1 2" ++ line " " ++ line "3 4")) []
       = Ok ({| buf := []; eofbit := true; failbit := true |}, [[1; 2]; []; [3; 4]], [])).
Proof.
  intros Heof Hne Hws. split; [|split].
  - cbn [read_lines]. rewrite Heof.
    destruct (rs_data_str st) as [|c l] eqn:Hstr; [congruence|].
    cbn [is_nil negb andb read_elements ls_ss ls_elem].
    assert (Hskip : skip_ws (c :: l) = []).
    { clear - Hws. induction (c :: l) as [|x xs IH]; simpl in *; [reflexivity|].
      apply andb_true_iff in Hws as [Hx Hxs]. rewrite Hx. auto. }
    unfold extract_int. cbn [open_stream good eofbit failbit buf negb andb].
    rewrite Hskip. cbn [failbit eofbit negb orb]. rewrite bind_Ok.
    cbn [ls_dataset ls_elem ls_err ls_errors_occured].
    destruct (getline (rs_cin st) (c :: l)) as [cin data_str]. reflexivity.
  - intros st0 Hempty. cbn [read_lines]. rewrite Hempty. cbn [is_nil negb].
    now rewrite andb_false_r.
  - intros more. apply (read_in_datasets_mono 10); [|lia].
    vm_compute. reflexivity.
Qed.

Lemma whitespace_line_gives_empty_dataset_witness :
  let st := {| rs_cin := open_stream (line "3 4"); rs_datasets := [[1; 2]];
               rs_data_str := chars " "; rs_elem := 2; rs_linecount := 2;
               rs_err := []; rs_errors_occured := false |} in
  eofbit (rs_cin st) = false /\ rs_data_str st <> [] /\
  forallb is_space (rs_data_str st) = true /\
  exists st', read_lines 10 st = Ok st' /\ rs_datasets st' = [[1; 2]; []; [3; 4]] /\
              rs_err st' = [].
Proof.
  intros st.
  assert (H1 : eofbit (rs_cin st) = false) by reflexivity.
  assert (H2 : rs_data_str st <> []) by discriminate.
  assert (H3 : forallb is_space (rs_data_str st) = true) by reflexivity.
  split; [exact H1|]. split; [exact H2|]. split; [exact H3|].
  destruct (whitespace_line_gives_empty_dataset 9 st H1 H2 H3) as (Hstep & _).
  rewrite Hstep. eexists. split; [vm_compute; reflexivity|]. split; reflexivity.
Defined.

(** C10, on the failing input: the line "1 2" and a last line that is one
    space with no newline after it.  The whitespace-only line is read by
    [std::getline], which sets [eofbit]; the loop then ends and the line
    gives no dataset, where the specification has an empty dataset
    appended.  With
    a newline after the space the empty dataset is appended. *)
Theorem whitespace_last_line_dropped (more : nat) :
  read_in_datasets (10 + more) (open_stream (line "1 2" ++ chars " ")) []
    = Ok ({| buf := []; eofbit := true; failbit := false |}, [[1; 2]], []) /\
  read_in_datasets (10 + more) (open_stream (line "1 2" ++ line " ")) []
    = Ok ({| buf := []; eofbit := true; failbit := true |}, [[1; 2]; []], []) /\
  getline (open_stream (chars " ")) []
    = ({| buf := []; eofbit := true; failbit := false |}, chars " ").
Proof.
  split; [|split; [|reflexivity]].
  - apply (read_in_datasets_mono 10); [|lia]. vm_compute. reflexivity.
  - apply (read_in_datasets_mono 10); [|lia]. vm_compute. reflexivity.
Qed.

(** * The harness *)

(** ** Loops that return *)

Lemma for_count_partial {S : Type} (I : Z -> S -> Prop) (body : Z -> S -> result S) :
  forall (cnt : nat) (i : Z) (s s' : S),
    I i s ->
    (forall k s s', i <= k < i + Z.of_nat cnt -> I k s -> body k s = Ok s' -> I (k + 1) s') ->
    for_count cnt i body s = Ok s' -> I (i + Z.of_nat cnt) s'.
Proof.
  induction cnt as [|cnt IH]; intros i s s' Hi Hstep Hrun.
  - simpl in Hrun. inversion Hrun. subst. now rewrite Z.add_0_r.
  - simpl in Hrun. destruct (body i s) as [s1|e] eqn:Hb; [|discriminate].
    rewrite bind_Ok in Hrun.
    replace (i + Z.of_nat (Datatypes.S cnt)) with (i + 1 + Z.of_nat cnt) by lia.
    apply (IH (i + 1) s1 s'); auto.
    + apply (Hstep i s s1); auto. lia.
    + intros k t t' Hk. apply Hstep. lia.
Qed.

Lemma for_range_partial {S : Type} (I : Z -> S -> Prop) (lo hi : Z)
    (body : Z -> S -> result S) (s s' : S) :
  lo <= hi -> I lo s ->
  (forall k s s', lo <= k < hi -> I k s -> body k s = Ok s' -> I (k + 1) s') ->
  for_range lo hi body s = Ok s' -> I hi s'.
Proof.
  intros Hle Hi Hstep Hrun. unfold for_range in Hrun.
  replace hi with (lo + Z.of_nat (Z.to_nat (hi - lo))) by lia.
  apply (for_count_partial I body _ lo s s'); auto.
  intros k t t' Hk. apply Hstep. lia.
Qed.

(** ** One measurement *)

Lemma bench_algo_ok (clk : clock_model) (fuel : nat) (sn rn : bool) (i : Z)
    (entry : string * SortFunction) (st st' : bench_state) :
  bench_algo clk fuel sn rn i entry st = Ok st' ->
  exists dataset out,
    index (bs_datasets st) i = Ok dataset /\ entry.2 fuel dataset = Ok out /\
    st' = bench_record clk sn rn entry.1 st.
Proof.
  unfold bench_algo. intros Hrun.
  destruct (index (bs_datasets st) i) as [dataset|e] eqn:Hd; [|discriminate].
  rewrite bind_Ok in Hrun.
  destruct (entry.2 fuel dataset) as [out|e] eqn:Hf; [|discriminate].
  rewrite bind_Ok in Hrun. inversion Hrun. eauto.
Qed.

Lemma bench_algo_returns (clk : clock_model) (fuel : nat) (sn rn : bool) (i : Z)
    (entry : string * SortFunction) (st : bench_state) (dataset out : vec) :
  index (bs_datasets st) i = Ok dataset -> entry.2 fuel dataset = Ok out ->
  bench_algo clk fuel sn rn i entry st = Ok (bench_record clk sn rn entry.1 st).
Proof.
  intros Hd Hf. unfold bench_algo. now rewrite Hd, bind_Ok, Hf, bind_Ok.
Qed.

(** ** The invariant of the timing loop *)

Lemma algo_names_NoDup : NoDup algo_names.
Proof. apply (bool_decide_unpack _). vm_compute. exact I. Qed.

Lemma sum_for_app (name : string) (l1 l2 : list (string * Z)) :
  sum_for name (l1 ++ l2) = sum_for name l1 + sum_for name l2.
Proof.
  induction l1 as [|[algo d] l1 IH]; simpl; [reflexivity|]. rewrite IH. lia.
Qed.

Lemma times_inv_next (sn rn : bool) (processed : Z) (st : bench_state) :
  times_inv sn rn processed [] st -> times_inv sn rn (processed + 1) algo_names st.
Proof.
  intros (Hk & Hr & Hkt & Ht). split; [exact Hk|]. split; [|split; [exact Hkt|]].
  - destruct rn; [|exact Hr]. intros name Hin.
    destruct (Hr name Hin) as (ts & Hts & _ & Hlen).
    exists ts. split; [exact Hts|]. split; [|tauto].
    intros _. apply Hlen. apply not_elem_of_nil.
  - destruct sn; [|exact Ht]. destruct Ht as [Hsum Hall]. split; [exact Hsum|].
    intros name Hin _. apply Hall; [exact Hin|]. left. apply not_elem_of_nil.
Qed.

Lemma times_inv_harness (sn rn : bool) (processed : Z) (st : bench_state) :
  times_inv sn rn processed algo_names st -> harness_inv processed st.
Proof.
  intros (Hk & Hr & Hkt & Ht). split.
  - intros name ts Hts.
    assert (Hin : name ∈ algo_names) by (apply Hk; eauto).
    destruct rn.
    + destruct (Hr name Hin) as (ts' & Hts' & Hlen & _).
      rewrite Hts in Hts'. inversion Hts'. subst. auto.
    + rewrite Hr in Hts. rewrite lookup_empty in Hts. discriminate.
  - intros name total Htotal. destruct sn.
    + destruct Ht as [Hsum _]. rewrite <- Hsum, Htotal. reflexivity.
    + rewrite Ht in Htotal. rewrite lookup_empty in Htotal. discriminate.
Qed.

Lemma bench_record_inv (clk : clock_model) (sn rn : bool) (processed : Z)
    (algo : string) (todo : list string) (st : bench_state) :
  algo ∈ algo_names -> algo ∉ todo ->
  times_inv sn rn processed (algo :: todo) st ->
  times_inv sn rn processed todo (bench_record clk sn rn algo st).
Proof.
  intros Hin Hnot (Hk & Hr & Hkt & Ht). unfold bench_record, times_inv.
  cbn [bs_result_times bs_total_times bs_measured].
  split; [|split; [|split]].
  - intros name. destruct rn; [|apply Hk].
    destruct (decide (algo = name)) as [<-|Hne]; [auto|].
    rewrite lookup_insert_ne by exact Hne. apply Hk.
  - destruct rn; [|exact Hr]. intros name Hname.
    destruct (Hr name Hname) as (ts & Hts & Hlen & Hlen').
    destruct (decide (algo = name)) as [<-|Hne].
    + rewrite lookup_insert_eq, Hts. cbn [default from_option id].
      eexists. split; [reflexivity|]. rewrite length_app, Nat2Z.inj_add.
      change (Z.of_nat (length [duration_at clk (bs_clock st)])) with 1.
      split; [tauto|]. intros _. rewrite Hlen; [reflexivity|]. apply elem_of_cons. auto.
    + rewrite lookup_insert_ne by exact Hne.
      exists ts. split; [exact Hts|]. split.
      * intros Htodo. apply Hlen. apply elem_of_cons. auto.
      * intros Htodo. apply Hlen'. rewrite elem_of_cons. intros [->|H]; auto.
  - intros name. destruct sn; [|apply Hkt].
    destruct (decide (algo = name)) as [<-|Hne]; [auto|].
    destruct (bs_total_times st !! algo); rewrite lookup_insert_ne by exact Hne; apply Hkt.
  - destruct sn; [|exact Ht]. destruct Ht as [Hsum Hall]. split.
    + intros name. rewrite sum_for_app, <- Hsum. cbn [sum_for].
      destruct (decide (algo = name)) as [<-|Hne].
      * rewrite String.eqb_refl.
        destruct (bs_total_times st !! algo); rewrite lookup_insert_eq;
          cbn [default from_option id]; lia.
      * destruct (String.eqb_spec algo name) as [|_]; [congruence|].
        destruct (bs_total_times st !! algo); rewrite lookup_insert_ne by exact Hne; lia.
    + intros name Hname Hcase.
      destruct (decide (algo = name)) as [<-|Hne].
      * destruct (bs_total_times st !! algo); rewrite lookup_insert_eq; eauto.
      * assert (Hold : is_Some (bs_total_times st !! name)).
        { apply Hall; [exact Hname|]. destruct Hcase as [Hcase|Hcase]; [left|right; exact Hcase].
          rewrite elem_of_cons. intros [->|H]; auto. }
        destruct (bs_total_times st !! algo); rewrite lookup_insert_ne by exact Hne;
          exact Hold.
Qed.

Lemma bench_entries_partial (clk : clock_model) (fuel : nat) (sn rn : bool)
    (processed i : Z) :
  forall (l : list (string * SortFunction)) (st st' : bench_state),
    NoDup (map fst l) -> (forall e, e ∈ l -> e.1 ∈ algo_names) ->
    times_inv sn rn processed (map fst l) st ->
    for_each l (bench_algo clk fuel sn rn i) st = Ok st' ->
    times_inv sn rn processed [] st' /\
    bs_datasets st' = bs_datasets st /\ bs_cout st' = bs_cout st.
Proof.
  induction l as [|e l IH]; intros st st' Hnd Hnames Hinv Hrun.
  - simpl in Hrun. inversion Hrun. subst. auto.
  - simpl in Hrun.
    destruct (bench_algo clk fuel sn rn i e st) as [st1|err] eqn:Hstep; [|discriminate].
    rewrite bind_Ok in Hrun.
    destruct (bench_algo_ok _ _ _ _ _ _ _ _ Hstep) as (dataset & out & _ & _ & ->).
    simpl in Hnd. apply NoDup_cons in Hnd as [Hnot Hnd].
    destruct (IH (bench_record clk sn rn e.1 st) st' Hnd) as (Hinv' & Hds & Hcout); auto.
    + intros e' He'. apply Hnames. apply elem_of_cons. auto.
    + apply bench_record_inv; auto. apply Hnames. apply elem_of_cons. auto.
Qed.

Lemma bench_dataset_partial (clk : clock_model) (fuel : nat) (sn rn : bool)
    (i : Z) (st st' : bench_state) :
  times_inv sn rn i algo_names st ->
  bench_dataset clk fuel sn rn i st = Ok st' ->
  times_inv sn rn (i + 1) algo_names st' /\
  bs_datasets st' = bs_datasets st /\ bs_cout st' = bs_cout st ++ [Progress (i + 1)].
Proof.
  intros Hinv Hrun. unfold bench_dataset in Hrun.
  match type of Hrun with
  | for_each _ _ ?st0 = _ =>
      destruct (bench_entries_partial clk fuel sn rn i i sort_algos st0 st'
                  algo_names_NoDup) as (Hinv' & Hds & Hcout)
  end; auto.
  - intros e He. apply list_elem_of_fmap. eauto.
  - split; [now apply times_inv_next | auto].
Qed.

Lemma reserve_lookup (l : list (string * SortFunction)) :
  forall (m : gmap string (list Z)) (name : string),
    fold_left (fun m (entry : string * SortFunction) =>
                 <[entry.1 := default [] (m !! entry.1)]> m) l m !! name
    = if decide (name ∈ map fst l) then Some (default [] (m !! name)) else m !! name.
Proof.
  induction l as [|e l IH]; intros m name; simpl.
  - destruct (decide (name ∈ [])) as [H|H]; [|reflexivity].
    now apply not_elem_of_nil in H.
  - rewrite IH.
    destruct (decide (name ∈ map fst l)) as [Hin|Hnot].
    + destruct (decide (name ∈ e.1 :: map fst l)) as [_|H];
        [|exfalso; apply H, elem_of_cons; auto].
      destruct (decide (e.1 = name)) as [<-|Hne].
      * rewrite lookup_insert_eq. reflexivity.
      * now rewrite lookup_insert_ne.
    + destruct (decide (e.1 = name)) as [<-|Hne].
      * rewrite lookup_insert_eq.
        destruct (decide (e.1 ∈ e.1 :: map fst l)) as [_|H];
          [reflexivity | exfalso; apply H, elem_of_cons; auto].
      * rewrite lookup_insert_ne by exact Hne.
        destruct (decide (name ∈ e.1 :: map fst l)) as [H|_]; [|reflexivity].
        apply elem_of_cons in H as [->|H]; [congruence | contradiction].
Qed.

Lemma times_inv_init (sn rn : bool) (datasets : list vec) :
  times_inv sn rn 0 algo_names
    {| bs_datasets := datasets; bs_total_times := ∅;
       bs_result_times := reserve_result_times rn;
       bs_clock := O; bs_cout := []; bs_measured := [] |}.
Proof.
  unfold times_inv, reserve_result_times.
  cbn [bs_result_times bs_total_times bs_measured].
  split; [|split; [|split]].
  - intros name. destruct rn.
    + rewrite reserve_lookup. fold algo_names.
      destruct (decide (name ∈ algo_names)); [auto|].
      rewrite lookup_empty. intros [x Hx]. discriminate.
    + rewrite lookup_empty. intros [x Hx]. discriminate.
  - destruct rn; [|reflexivity]. intros name Hin.
    rewrite reserve_lookup. fold algo_names.
    destruct (decide (name ∈ algo_names)); [|contradiction].
    rewrite lookup_empty. exists []. split; [reflexivity|]. split; [reflexivity|].
    intros H. contradiction.
  - intros name. rewrite lookup_empty. intros [x Hx]. discriminate.
  - destruct sn; [|reflexivity]. split.
    + intros name. now rewrite lookup_empty.
    + intros name Hin [H|H]; [contradiction | lia].
Qed.

Lemma reports_app (l1 l2 : list out_line) : reports (l1 ++ l2) = reports l1 ++ reports l2.
Proof. apply List.filter_app. Qed.

Lemma bench_loop_partial (clk : clock_model) (fuel : nat) (sn rn : bool)
    (n : Z) (st st' : bench_state) :
  0 <= n -> times_inv sn rn 0 algo_names st ->
  for_range 0 n (bench_dataset clk fuel sn rn) st = Ok st' ->
  times_inv sn rn n algo_names st' /\ bs_datasets st' = bs_datasets st /\
  reports (bs_cout st') = reports (bs_cout st).
Proof.
  intros Hn Hinv Hrun.
  apply (for_range_partial
    (fun k t => times_inv sn rn k algo_names t /\ bs_datasets t = bs_datasets st /\
                reports (bs_cout t) = reports (bs_cout st))
    0 n (bench_dataset clk fuel sn rn) st st'); auto.
  intros k t t' Hk (Ht & Hds & Hcout) Hstep.
  destruct (bench_dataset_partial clk fuel sn rn k t t' Ht Hstep) as (Ht' & Hds' & Hcout').
  split; [exact Ht'|]. split; [congruence|].
  rewrite Hcout', reports_app. simpl. now rewrite app_nil_r.
Qed.

(** ** The timing loop returns *)

Lemma datasets_fuel_ge (ds : list vec) (d : vec) :
  In d ds -> (sort_fuel d <= datasets_fuel ds)%nat.
Proof.
  induction ds as [|d' ds IH]; simpl; [tauto|].
  intros [->|Hin]; [lia|]. specialize (IH Hin). lia.
Qed.

Lemma size_limit_ge (name : string) : 2 ^ 30 - 1 <= size_limit name.
Proof. unfold size_limit, INT_MAX. destruct (String.eqb name "Heap Sort"); lia. Qed.

Lemma index_ok {A : Type} (l : list A) (i : Z) :
  0 <= i < Z.of_nat (length l) -> exists a, index l i = Ok a /\ In a l.
Proof.
  intros Hi. unfold index. destruct (Z.leb_spec 0 i); [|lia].
  destruct (l !! Z.to_nat i) as [a|] eqn:E.
  - exists a. split; [reflexivity|]. apply list_elem_of_In. eapply list_elem_of_lookup_2. eauto.
  - apply lookup_ge_None in E. lia.
Qed.

Lemma bench_entries_pure_datasets (clk : clock_model) (sn rn : bool)
    (l : list (string * SortFunction)) :
  forall st, bs_datasets (bench_entries_pure clk sn rn l st) = bs_datasets st.
Proof.
  induction l as [|e l IH]; intros st; simpl; [reflexivity|]. now rewrite IH.
Qed.

Lemma bench_entries_total (clk : clock_model) (fuel : nat) (sn rn : bool) (i : Z)
    (d : vec) :
  vsize d <= 2 ^ 30 - 1 -> (sort_fuel d <= fuel)%nat ->
  forall (l : list (string * SortFunction)) (st : bench_state),
    (forall e, In e l -> In e sort_algos) ->
    index (bs_datasets st) i = Ok d ->
    for_each l (bench_algo clk fuel sn rn i) st = Ok (bench_entries_pure clk sn rn l st).
Proof.
  intros Hsize Hfuel. induction l as [|e l IH]; intros st Hsub Hd; simpl; [reflexivity|].
  assert (He : In (e.1, e.2) sort_algos) by (destruct e; apply Hsub; now left).
  destruct (sorts_correct_fuel e.1 e.2 d fuel He) as (out & Hrun & _); auto.
  { pose proof (size_limit_ge e.1). lia. }
  rewrite (bench_algo_returns clk fuel sn rn i e st d out Hd Hrun), bind_Ok.
  apply IH; [intros e' He'; apply Hsub; now right | exact Hd].
Qed.

Lemma bench_count_total (clk : clock_model) (fuel : nat) (sn rn : bool) (ds : list vec) :
  within_limits ds -> (datasets_fuel ds <= fuel)%nat ->
  forall (cnt : nat) (i : Z) (st : bench_state),
    bs_datasets st = ds -> 0 <= i -> i + Z.of_nat cnt <= Z.of_nat (length ds) ->
    for_count cnt i (bench_dataset clk fuel sn rn) st
      = Ok (bench_count_pure clk sn rn cnt i st).
Proof.
  intros Hlim Hfuel. induction cnt as [|cnt IH]; intros i st Hds Hi Hcnt; simpl;
    [reflexivity|].
  destruct (index_ok ds i ltac:(lia)) as (d & Hd & Hin).
  assert (Hstep : bench_dataset clk fuel sn rn i st = Ok (bench_dataset_pure clk sn rn i st)).
  { unfold bench_dataset, bench_dataset_pure.
    apply (bench_entries_total clk fuel sn rn i d).
    - unfold within_limits in Hlim. rewrite List.Forall_forall in Hlim. now apply Hlim.
    - pose proof (datasets_fuel_ge ds d Hin). lia.
    - auto.
    - simpl. now rewrite Hds. }
  rewrite Hstep, bind_Ok. apply IH; try lia.
  unfold bench_dataset_pure. now rewrite bench_entries_pure_datasets.
Qed.

(** ** The reports are printed *)

Lemma sort_insert_length (p : string * Z) (l : list (string * Z)) :
  length (sort_insert p l) = Datatypes.S (length l).
Proof.
  induction l as [|q l IH]; simpl; [reflexivity|].
  destruct (compare_times q p); simpl; [now rewrite IH | reflexivity].
Qed.

Lemma std_sort_length (l : list (string * Z)) : length (std_sort l) = length l.
Proof.
  induction l as [|p l IH]; simpl; [reflexivity|].
  unfold std_sort in *. now rewrite sort_insert_length, IH.
Qed.

(** Printing one line for each of the [n] first entries of a ranking. *)
Lemma print_ranking (mk : Z -> string * Z -> out_line) (l : list (string * Z))
    (n : Z) (out : list out_line) :
  0 <= n <= Z.of_nat (length l) -> (forall i p, is_banner (mk i p) = false) ->
  exists lines,
    for_range 0 n (fun i cout => p ← index l i; mret (cout ++ [mk i p])) out
      = Ok (out ++ lines) /\ reports lines = [].
Proof.
  intros Hn Hmk.
  destruct (for_range_rule
    (fun (_ : Z) (c : list out_line) => exists lines, c = out ++ lines /\ reports lines = [])
    0 n (fun i cout => p ← index l i; mret (cout ++ [mk i p])) out)
    as (c & Hrun & lines & -> & Hrep).
  - lia.
  - exists []. now rewrite app_nil_r.
  - intros k c Hk (lines & -> & Hrep).
    destruct (index_ok l k ltac:(lia)) as (p & Hp & _).
    rewrite Hp, bind_Ok. eexists. split; [reflexivity|].
    exists (lines ++ [mk k p]). split; [now rewrite app_assoc|].
    rewrite reports_app, Hrep. simpl. now rewrite Hmk.
  - exists lines. auto.
Qed.

Lemma render_summary_total (total_times : gmap string Z) (num_algos num_datasets : Z)
    (out : list out_line) :
  0 <= num_algos <= Z.of_nat (size total_times) ->
  exists lines,
    render_summary total_times num_algos num_datasets out = Ok (out ++ lines) /\
    reports lines = [SummaryBanner].
Proof.
  intros Hn. unfold render_summary.
  destruct (print_ranking (fun i p => SummaryLine (i + 1) p.1 p.2 num_datasets)
              (std_sort (map_to_list total_times)) num_algos (out ++ [SummaryBanner]))
    as (lines & Hrun & Hrep).
  - now rewrite std_sort_length, length_map_to_list.
  - reflexivity.
  - rewrite Hrun, bind_Ok. exists ([SummaryBanner] ++ lines ++ [OutBlank]). split.
    + cbn [mret result_ret]. f_equal. now rewrite <- !app_assoc.
    + rewrite !reports_app, Hrep. reflexivity.
Qed.

Lemma collect_times (i : Z) (n : Z) :
  0 <= i < n ->
  forall (l : list (string * list Z)) (acc : list (string * Z)),
    Forall (fun e => Z.of_nat (length e.2) = n) l ->
    exists pairs,
      for_each l (fun entry fast_to_slow =>
                    t ← index entry.2 i; mret (fast_to_slow ++ [(entry.1, t)])) acc
        = Ok pairs /\
      length pairs = (length acc + length l)%nat.
Proof.
  intros Hi. induction l as [|e l IH]; intros acc Hall; simpl.
  - exists acc. split; [reflexivity | lia].
  - inversion Hall as [|? ? He Hl]. subst.
    destruct (index_ok e.2 i ltac:(lia)) as (t & Ht & _).
    rewrite Ht, !bind_Ok.
    destruct (IH (acc ++ [(e.1, t)]) Hl) as (pairs & Hrun & Hlen).
    exists pairs. split; [exact Hrun|]. rewrite Hlen, length_app. simpl. lia.
Qed.

Lemma render_results_total (result_times : gmap string (list Z))
    (num_algos num_datasets : Z) (out : list out_line) :
  0 <= num_algos <= Z.of_nat (size result_times) -> 0 <= num_datasets ->
  (forall name ts, result_times !! name = Some ts -> Z.of_nat (length ts) = num_datasets) ->
  exists lines,
    render_results result_times num_algos num_datasets out = Ok (out ++ lines) /\
    reports lines = [ResultsBanner].
Proof.
  intros Hn Hd Hlen. unfold render_results.
  assert (Hall : Forall (fun e : string * list Z => Z.of_nat (length e.2) = num_datasets)
                   (map_to_list result_times)).
  { apply List.Forall_forall. intros [name ts] Hin. apply (Hlen name).
    apply elem_of_map_to_list. now apply list_elem_of_In. }
  destruct (for_range_rule
    (fun (_ : Z) (c : list out_line) =>
       exists lines, c = (out ++ [ResultsBanner]) ++ lines /\ reports lines = [])
    0 num_datasets
    (fun i cout =>
       pairs ← for_each (map_to_list result_times) (fun entry fast_to_slow =>
                 t ← index entry.2 i; mret (fast_to_slow ++ [(entry.1, t)])) [];
       cout1 ← for_range 0 num_algos (fun j cout =>
                 p ← index (std_sort pairs) j;
                 mret (cout ++ [ResultLine (j + 1) p.1 p.2]))
               (cout ++ [DatasetHeader (i + 1)]);
       mret (cout1 ++ [OutBlank]))
    (out ++ [ResultsBanner])) as (c & Hrun & lines & -> & Hrep).
  - lia.
  - exists []. now rewrite app_nil_r.
  - intros i c Hi (lines & -> & Hrep).
    destruct (collect_times i num_datasets Hi (map_to_list result_times) [] Hall)
      as (pairs & Hpairs & Hplen).
    rewrite Hpairs, bind_Ok.
    destruct (print_ranking (fun j p => ResultLine (j + 1) p.1 p.2) (std_sort pairs)
                num_algos (((out ++ [ResultsBanner]) ++ lines) ++ [DatasetHeader (i + 1)]))
      as (lines' & Hrun' & Hrep').
    + rewrite std_sort_length, Hplen, length_map_to_list. simpl. lia.
    + reflexivity.
    + rewrite Hrun', bind_Ok. eexists. split; [reflexivity|].
      exists (lines ++ [DatasetHeader (i + 1)] ++ lines' ++ [OutBlank]). split.
      * now rewrite <- !app_assoc.
      * rewrite !reports_app, Hrep, Hrep'. reflexivity.
  - exists ([ResultsBanner] ++ lines). split.
    + rewrite Hrun. f_equal. now rewrite <- !app_assoc.
    + rewrite reports_app, Hrep. reflexivity.
Qed.

(** ** A whole run *)

Lemma num_algos_eq : to_int (Z.of_nat (length sort_algos)) = 7.
Proof. reflexivity. Qed.

Lemma algo_names_length : length algo_names = 7%nat.
Proof. reflexivity. Qed.

Lemma size_keys {A : Type} (m : gmap string A) :
  (forall name, is_Some (m !! name) <-> name ∈ algo_names) -> size m = 7%nat.
Proof.
  intros H. rewrite <- size_dom.
  assert (Hdom : dom m = list_to_set algo_names).
  { apply set_eq. intros x. rewrite elem_of_dom, elem_of_list_to_set. apply H. }
  rewrite Hdom, size_list_to_set by apply algo_names_NoDup. apply algo_names_length.
Qed.

Lemma times_inv_results_size (sn : bool) (processed : Z) (st : bench_state) :
  times_inv sn true processed algo_names st -> size (bs_result_times st) = 7%nat.
Proof.
  intros (Hk & Hr & _). apply size_keys. intros name. split; [apply Hk|].
  intros Hin. destruct (Hr name Hin) as (ts & Hts & _). eauto.
Qed.

Lemma times_inv_totals_size (rn : bool) (processed : Z) (st : bench_state) :
  0 < processed -> times_inv true rn processed algo_names st ->
  size (bs_total_times st) = 7%nat.
Proof.
  intros Hpos (_ & _ & Hk & _ & Hall). apply size_keys. intros name. split; [apply Hk|].
  intros Hin. apply Hall; auto.
Qed.

Lemma accepted_checks (argv : list string) :
  accepted argv ->
  (argc_of argv <? 1) || (argc_of argv >? 2) = false /\
  (argc_of argv =? 2) && negb (String.eqb (arg1 argv) "results")
                      && negb (String.eqb (arg1 argv) "summary") = false.
Proof.
  intros [H|[H [H'|H']]]; rewrite H; try rewrite H'; split; reflexivity.
Qed.

Lemma main_after_reading (clk : clock_model) (fuel : nat) (argv : list string)
    (cin cin1 : istream) (ds : list vec) (err : list diagnostic) :
  accepted argv ->
  read_in_datasets fuel cin [] = Ok (cin1, ds, err) ->
  within_limits ds -> Z.of_nat (length ds) <= INT_MAX ->
  (summary_needed argv = true -> ds <> []) ->
  (datasets_fuel ds <= fuel)%nat ->
  exists out,
    run_output clk (summary_needed argv) (results_needed argv) ds = Ok out /\
    main clk fuel argv cin
      = Ok {| ret := 0; cout := out; cerr := err; cin_after := cin1 |} /\
    reports out = reports_of argv.
Proof.
  intros Hacc Hread Hlim Hlen Hne Hfuel.
  destruct (accepted_checks argv Hacc) as [Hc1 Hc2].
  unfold main. rewrite Hc1, Hc2, Hread, bind_Ok. cbv beta iota zeta.
  rewrite num_algos_eq.
  assert (Hn : to_int (Z.of_nat (length ds)) = Z.of_nat (length ds)).
  { apply to_int_small. unfold INT_MIN. lia. }
  rewrite Hn. set (n := Z.of_nat (length ds)) in *.
  set (sn := summary_needed argv) in *. set (rn := results_needed argv) in *.
  set (st0 := {| bs_datasets := ds; bs_total_times := ∅;
                 bs_result_times := reserve_result_times rn;
                 bs_clock := O; bs_cout := []; bs_measured := [] |}).
  assert (Hloop : for_range 0 n (bench_dataset clk fuel sn rn) st0
                  = Ok (bench_count_pure clk sn rn (Z.to_nat (n - 0)) 0 st0)).
  { unfold for_range. apply (bench_count_total clk fuel sn rn ds); auto; unfold n; lia. }
  destruct (bench_loop_partial clk fuel sn rn n st0 _ ltac:(unfold n; lia)
              (times_inv_init sn rn ds) Hloop) as (Hinv & _ & Hrep).
  rewrite Hloop, bind_Ok.
  set (st := bench_count_pure clk sn rn (Z.to_nat (n - 0)) 0 st0) in *.
  change (reports (bs_cout st0)) with (@nil out_line) in Hrep.
  assert (Hout : reports (bs_cout st ++ [OutBlank]) = []).
  { now rewrite reports_app, Hrep. }
  assert (Hsum : exists lines,
    (if sn then render_summary (bs_total_times st) 7 n (bs_cout st ++ [OutBlank])
     else mret (bs_cout st ++ [OutBlank])) = Ok ((bs_cout st ++ [OutBlank]) ++ lines) /\
    reports lines = if sn then [SummaryBanner] else []).
  { destruct sn eqn:Hsn.
    - assert (Hpos : 0 < n).
      { specialize (Hne eq_refl). unfold n. destruct ds; [congruence | simpl; lia]. }
      apply render_summary_total.
      rewrite (times_inv_totals_size rn n st Hpos Hinv). lia.
    - exists []. now rewrite app_nil_r. }
  destruct Hsum as (lines1 & Hrun1 & Hrep1). rewrite Hrun1, bind_Ok.
  assert (Hres : exists lines,
    (if rn then render_results (bs_result_times st) 7 n
                  ((bs_cout st ++ [OutBlank]) ++ lines1)
     else mret ((bs_cout st ++ [OutBlank]) ++ lines1))
      = Ok (((bs_cout st ++ [OutBlank]) ++ lines1) ++ lines) /\
    reports lines = if rn then [ResultsBanner] else []).
  { destruct rn eqn:Hrn.
    - apply render_results_total.
      + rewrite (times_inv_results_size sn n st Hinv). lia.
      + unfold n. lia.
      + apply (times_inv_harness sn true n st Hinv).
    - exists []. now rewrite app_nil_r. }
  destruct Hres as (lines2 & Hrun2 & Hrep2). rewrite Hrun2, bind_Ok.
  eexists. split; [|split; [reflexivity|]].
  - unfold run_output. cbv zeta. fold n st0 st. rewrite Hrun1, bind_Ok. exact Hrun2.
  - do 2 rewrite reports_app. rewrite Hout, Hrep1, Hrep2. reflexivity.
Qed.

Lemma main_returns (clk : clock_model) (argv : list string)
    (cin cin1 : istream) (ds : list vec) (err : list diagnostic) :
  accepted argv ->
  returns (fun fuel => read_in_datasets fuel cin []) (cin1, ds, err) ->
  within_limits ds -> Z.of_nat (length ds) <= INT_MAX ->
  (summary_needed argv = true -> ds <> []) ->
  exists out,
    returns (fun fuel => main clk fuel argv cin)
      {| ret := 0; cout := out; cerr := err; cin_after := cin1 |} /\
    reports out = reports_of argv.
Proof.
  intros Hacc [fuel0 Hread] Hlim Hlen Hne.
  set (fuel1 := Nat.max fuel0 (datasets_fuel ds)).
  destruct (main_after_reading clk fuel1 argv cin cin1 ds err Hacc) as (out & Hout & _ & Hrep);
    auto; try (apply Hread); try (unfold fuel1; lia).
  exists out. split; [|exact Hrep].
  exists fuel1. intros fuel Hfuel.
  destruct (main_after_reading clk fuel argv cin cin1 ds err Hacc) as (out' & Hout' & Hmain & _);
    auto; try (apply Hread); try (unfold fuel1 in Hfuel; lia).
  rewrite Hmain. rewrite Hout in Hout'. now inversion Hout'.
Qed.

(** ** The states of the timing loop *)

Lemma loop_state_times_inv (clk : clock_model) (fuel : nat) (sn rn : bool)
    (datasets : list vec) (i : Z) (st : bench_state) :
  loop_state clk fuel sn rn datasets i st -> times_inv sn rn i algo_names st.
Proof.
  induction 1 as [|i st st' _ IH Hstep].
  - apply times_inv_init.
  - now destruct (bench_dataset_partial clk fuel sn rn i st st' IH Hstep).
Qed.

Lemma loop_state_datasets (clk : clock_model) (fuel : nat) (sn rn : bool)
    (datasets : list vec) (i : Z) (st : bench_state) :
  loop_state clk fuel sn rn datasets i st -> bs_datasets st = datasets.
Proof.
  induction 1 as [|i st st' Hst IH Hstep]; [reflexivity|].
  apply loop_state_times_inv in Hst.
  destruct (bench_dataset_partial clk fuel sn rn i st st' Hst Hstep) as (_ & Hds & _).
  congruence.
Qed.

(** The loop of [main] passes through the states of [loop_state]. *)
Lemma for_count_loop_state (clk : clock_model) (fuel : nat) (sn rn : bool)
    (datasets : list vec) :
  forall (cnt : nat) (i : Z) (st st' : bench_state),
    loop_state clk fuel sn rn datasets i st ->
    for_count cnt i (bench_dataset clk fuel sn rn) st = Ok st' ->
    loop_state clk fuel sn rn datasets (i + Z.of_nat cnt) st'.
Proof.
  induction cnt as [|cnt IH]; intros i st st' Hst Hrun; simpl in Hrun.
  - inversion Hrun. subst. now replace (i + Z.of_nat 0) with i by lia.
  - destruct (bench_dataset clk fuel sn rn i st) as [st1|e] eqn:Hstep; [|discriminate].
    rewrite bind_Ok in Hrun.
    replace (i + Z.of_nat (Datatypes.S cnt)) with (i + 1 + Z.of_nat cnt) by lia.
    apply (IH (i + 1) st1); [|exact Hrun]. now apply loop_next with st.
Qed.

(** C7. Whenever the timing loop of [main] is between two datasets, [i]
    of them processed, every duration sequence present in [result_times]
    (PerDatasetTimes) has exactly [i] entries and every total present in
    [total_times] (TotalTimes) is the sum of the durations measured for
    its algorithm so far; and the state left by processing dataset [i]
    satisfies the same with [i + 1]. *)
Theorem harness_invariant (clk : clock_model) (fuel : nat) (sn rn : bool)
    (datasets : list vec) (i : Z) (st : bench_state) :
  loop_state clk fuel sn rn datasets i st ->
  harness_inv i st /\
  forall st', bench_dataset clk fuel sn rn i st = Ok st' -> harness_inv (i + 1) st'.
Proof.
  intros Hst. split.
  - apply (times_inv_harness sn rn). now apply loop_state_times_inv in Hst.
  - intros st' Hstep. apply (times_inv_harness sn rn).
    apply (loop_state_times_inv clk fuel sn rn datasets). now apply loop_next with st.
Qed.

Lemma harness_invariant_witness :
  let st1 := bench_dataset_pure example_clock true true 0 (bench_init true [[3; 1; 2]]) in
  harness_inv 1 st1 /\
  forall st', bench_dataset example_clock 8 true true 1 st1 = Ok st' -> harness_inv (1 + 1) st'.
Proof.
  intros st1.
  apply (harness_invariant example_clock 8 true true [[3; 1; 2]] 1 st1).
  apply (loop_next example_clock 8 true true [[3; 1; 2]] 0 (bench_init true [[3; 1; 2]]) st1).
  - apply loop_enter.
  - vm_compute. reflexivity.
Defined.

(** ** The datasets are passed by value *)

Lemma bench_entries_datasets (clk : clock_model) (fuel : nat) (sn rn : bool) (i : Z) :
  forall (l : list (string * SortFunction)) (st st' : bench_state),
    for_each l (bench_algo clk fuel sn rn i) st = Ok st' ->
    bs_datasets st' = bs_datasets st.
Proof.
  induction l as [|e l IH]; intros st st' Hrun; simpl in Hrun.
  - now inversion Hrun.
  - destruct (bench_algo clk fuel sn rn i e st) as [st1|err] eqn:Hstep; [|discriminate].
    rewrite bind_Ok in Hrun. rewrite (IH st1 st' Hrun).
    destruct (bench_algo_ok _ _ _ _ _ _ _ _ Hstep) as (_ & _ & _ & _ & ->). reflexivity.
Qed.

Lemma bench_dataset_datasets (clk : clock_model) (fuel : nat) (sn rn : bool) (i : Z)
    (st st' : bench_state) :
  bench_dataset clk fuel sn rn i st = Ok st' -> bs_datasets st' = bs_datasets st.
Proof.
  unfold bench_dataset. intros Hrun. now rewrite (bench_entries_datasets _ _ _ _ _ _ _ _ Hrun).
Qed.

Lemma bench_loop_datasets (clk : clock_model) (fuel : nat) (sn rn : bool)
    (lo hi : Z) (st st' : bench_state) :
  for_range lo hi (bench_dataset clk fuel sn rn) st = Ok st' ->
  bs_datasets st' = bs_datasets st.
Proof.
  unfold for_range. generalize (Z.to_nat (hi - lo)) as cnt. intros cnt. revert lo st.
  induction cnt as [|cnt IH]; intros lo st Hrun; simpl in Hrun.
  - now inversion Hrun.
  - destruct (bench_dataset clk fuel sn rn lo st) as [st1|e] eqn:Hstep; [|discriminate].
    rewrite bind_Ok in Hrun. rewrite (IH _ _ Hrun). now apply bench_dataset_datasets in Hstep.
Qed.

(** C3. For each of the seven registered algorithms, the timed call
    [iter->second(datasets[i])] of the harness works on a copy: whenever
    the call returns, the dataset list of the harness is what it was before
    the call, while the copy the algorithm worked on has been sorted; for a
    dataset within the size limit of the algorithm the call does return; and
    the whole timing loop leaves the dataset list as it found it. *)
Theorem harness_keeps_datasets (clk : clock_model) (sn rn : bool) (name : string)
    (f : SortFunction) (i : Z) (st : bench_state) :
  In (name, f) sort_algos ->
  (forall fuel st',
     bench_algo clk fuel sn rn i (name, f) st = Ok st' ->
     bs_datasets st' = bs_datasets st /\
     exists dataset copy,
       index (bs_datasets st') i = Ok dataset /\ f fuel dataset = Ok copy) /\
  (forall dataset,
     index (bs_datasets st) i = Ok dataset -> vsize dataset <= size_limit name ->
     exists st' copy,
       returns (fun fuel => bench_algo clk fuel sn rn i (name, f) st) st' /\
       returns (fun fuel => f fuel dataset) copy /\
       Permutation dataset copy /\ sorted_vec copy /\
       bs_datasets st' = bs_datasets st) /\
  (forall fuel lo hi st',
     for_range lo hi (bench_dataset clk fuel sn rn) st = Ok st' ->
     bs_datasets st' = bs_datasets st).
Proof.
  intros Hin. split; [|split].
  - intros fuel st' Hrun.
    destruct (bench_algo_ok _ _ _ _ _ _ _ _ Hrun) as (dataset & copy & Hd & Hf & ->).
    split; [reflexivity|]. exists dataset, copy. auto.
  - intros dataset Hd Hsize.
    destruct (sorts_correct name f dataset Hin Hsize)
      as (copy & [fuel0 Hf] & Hperm & Hsorted).
    exists (bench_record clk sn rn name st), copy.
    split; [|split; [|auto]].
    + exists fuel0. intros fuel Hfuel.
      apply (bench_algo_returns clk fuel sn rn i (name, f) st dataset copy Hd).
      now apply Hf.
    + exists fuel0. exact Hf.
  - intros fuel lo hi st'. apply bench_loop_datasets.
Qed.

Lemma harness_keeps_datasets_witness :
  In ("Heap Sort"%string, heap_sort) sort_algos /\
  exists st' copy,
    returns (fun fuel => bench_algo example_clock fuel true true 0
                           ("Heap Sort"%string, heap_sort) (bench_init true [[3; 1; 2]])) st' /\
    returns (fun fuel => heap_sort fuel [3; 1; 2]) copy /\
    Permutation [3; 1; 2] copy /\ sorted_vec copy /\
    bs_datasets st' = [[3; 1; 2]].
Proof.
  assert (Hin : In ("Heap Sort"%string, heap_sort) sort_algos).
  { simpl. do 3 right. left. reflexivity. }
  split; [exact Hin|].
  destruct (harness_keeps_datasets example_clock true true "Heap Sort" heap_sort 0
              (bench_init true [[3; 1; 2]]) Hin) as (_ & Hcall & _).
  apply (Hcall [3; 1; 2]).
  - reflexivity.
  - vm_compute. discriminate.
Defined.

(** ** Zero datasets *)

Lemma render_summary_empty (num_datasets : Z) (out : list out_line) :
  render_summary ∅ 7 num_datasets out = Err OutOfBounds.
Proof. unfold render_summary. rewrite map_to_list_empty. reflexivity. Qed.

(** With no dataset read, a run that has to print the summary indexes the
    empty ranking vector. *)
Lemma main_summary_no_datasets (clk : clock_model) (fuel : nat) (argv : list string)
    (cin cin1 : istream) (err : list diagnostic) :
  accepted argv -> summary_needed argv = true ->
  read_in_datasets fuel cin [] = Ok (cin1, [], err) ->
  main clk fuel argv cin = Err OutOfBounds.
Proof.
  intros Hacc Hsn Hread. destruct (accepted_checks argv Hacc) as [Hc1 Hc2].
  unfold main. rewrite Hc1, Hc2, Hread, bind_Ok. cbv beta iota zeta.
  rewrite num_algos_eq, Hsn.
  change (to_int (Z.of_nat (length (@nil vec)))) with 0.
  match goal with
  | |- for_range 0 0 ?body ?st0 ≫= _ = _ =>
      change (for_range 0 0 body st0) with (Ok st0)
  end.
  rewrite bind_Ok. cbn [bs_total_times]. now rewrite render_summary_empty.
Qed.

Lemma read_in_datasets_empty_input (more : nat) :
  read_in_datasets (Datatypes.S more) (open_stream []) []
  = Ok ({| buf := []; eofbit := true; failbit := true |}, [], []).
Proof. reflexivity. Qed.

(** C2. A run that is asked for the summary alone and finds no dataset on
    standard input does not render the summary: the loop that prints the
    ranking reads [fast_to_slow[0]] of the empty ranking vector, out of
    bounds. *)
Theorem summary_of_no_datasets_out_of_bounds (clk : clock_model) (more : nat) :
  main clk (Datatypes.S more) ["sortcomparer"; "summary"]%string (open_stream [])
  = Err OutOfBounds.
Proof.
  apply (main_summary_no_datasets clk (Datatypes.S more) _ _
           {| buf := []; eofbit := true; failbit := true |} []).
  - right. split; [reflexivity|]. right. reflexivity.
  - reflexivity.
  - apply read_in_datasets_empty_input.
Qed.

(** In the model a run without arguments that finds no dataset on
    standard input passes both argument checks, selects both reports, and
    ends in the loop that prints the summary, where the ranking is read out
    of bounds: the defect of C2. *)
Theorem no_arguments_no_datasets_out_of_bounds (clk : clock_model) (more : nat) :
  accepted ["sortcomparer"%string] /\
  reports_of ["sortcomparer"%string] = [SummaryBanner; ResultsBanner] /\
  main clk (Datatypes.S more) ["sortcomparer"%string] (open_stream []) = Err OutOfBounds.
Proof.
  assert (Hacc : accepted ["sortcomparer"%string]) by (left; reflexivity).
  split; [exact Hacc|]. split; [reflexivity|].
  apply (main_summary_no_datasets clk (Datatypes.S more) _ _
           {| buf := []; eofbit := true; failbit := true |} [] Hacc).
  - reflexivity.
  - apply read_in_datasets_empty_input.
Qed.

(** ** The command line *)

Lemma usage_error (clk : clock_model) (fuel : nat) (argv : list string) (cin : istream) :
  argc_of argv < 1 \/ 2 < argc_of argv ->
  main clk fuel argv cin
  = Ok {| ret := -1; cout := []; cerr := [Usage]; cin_after := cin |}.
Proof.
  intros H. unfold main.
  assert (Hc : (argc_of argv <? 1) || (argc_of argv >? 2) = true).
  { apply orb_true_iff. rewrite Z.ltb_lt, Z.gtb_ltb, Z.ltb_lt. exact H. }
  now rewrite Hc.
Qed.

Lemma invalid_argument (clk : clock_model) (fuel : nat) (argv : list string)
    (cin : istream) :
  argc_of argv = 2 -> arg1 argv <> "results"%string -> arg1 argv <> "summary"%string ->
  main clk fuel argv cin
  = Ok {| ret := -2; cout := []; cerr := [InvalidArgument]; cin_after := cin |}.
Proof.
  intros Hc Hr Hs. unfold main. rewrite Hc.
  apply String.eqb_neq in Hr, Hs. now rewrite Hr, Hs.
Qed.

(** The command-line contract of [main].  More than one argument (or no
    [argv[0]]) gives the usage line on [std::cerr] and the value -1; one
    argument that is neither "results" nor "summary" gives the
    invalid-argument line and -2; in both cases nothing is written to
    [std::cout] and [std::cin] is not read, and the two exit statuses are
    non-zero and differ.  No argument selects the summary followed by the
    results, "summary" the summary alone and "results" the results alone,
    and a run on datasets within the size limits, at least one of them when
    the summary is selected, returns 0 having printed exactly the selected
    reports, in this order. *)
Theorem main_cli_contract (clk : clock_model) (argv : list string) (cin : istream) :
  (argc_of argv < 1 \/ 2 < argc_of argv ->
   forall fuel, main clk fuel argv cin
                = Ok {| ret := -1; cout := []; cerr := [Usage]; cin_after := cin |}) /\
  (argc_of argv = 2 -> arg1 argv <> "results"%string -> arg1 argv <> "summary"%string ->
   forall fuel, main clk fuel argv cin
                = Ok {| ret := -2; cout := []; cerr := [InvalidArgument];
                        cin_after := cin |}) /\
  (exit_status (-1) <> 0 /\ exit_status (-2) <> 0 /\ exit_status (-1) <> exit_status (-2)) /\
  (argc_of argv = 1 -> reports_of argv = [SummaryBanner; ResultsBanner]) /\
  (argc_of argv = 2 -> arg1 argv = "summary"%string -> reports_of argv = [SummaryBanner]) /\
  (argc_of argv = 2 -> arg1 argv = "results"%string -> reports_of argv = [ResultsBanner]) /\
  (accepted argv ->
   forall cin1 ds err,
     returns (fun fuel => read_in_datasets fuel cin []) (cin1, ds, err) ->
     within_limits ds -> Z.of_nat (length ds) <= INT_MAX ->
     (summary_needed argv = true -> ds <> []) ->
     exists out,
       returns (fun fuel => main clk fuel argv cin)
         {| ret := 0; cout := out; cerr := err; cin_after := cin1 |} /\
       reports out = reports_of argv).
Proof.
  split; [|split; [|split; [|split; [|split; [|split]]]]].
  - intros H fuel. now apply usage_error.
  - intros Hc Hr Hs fuel. now apply invalid_argument.
  - unfold exit_status. repeat split; discriminate.
  - intros Hc. unfold reports_of, summary_needed, results_needed. now rewrite Hc.
  - intros Hc Ha. unfold reports_of, summary_needed, results_needed. now rewrite Hc, Ha.
  - intros Hc Ha. unfold reports_of, summary_needed, results_needed. now rewrite Hc, Ha.
  - intros Hacc cin1 ds err Hread Hlim Hlen Hne.
    apply (main_returns clk argv cin cin1 ds err); auto.
Qed.

(** A run that is asked for the results alone and finds no dataset prints
    the banner of the results and no dataset block. *)
Theorem results_of_no_datasets (clk : clock_model) (more : nat) :
  main clk (Datatypes.S more) ["sortcomparer"; "results"]%string (open_stream [])
  = Ok {| ret := 0; cout := [OutBlank; ResultsBanner]; cerr := [];
          cin_after := {| buf := []; eofbit := true; failbit := true |} |}.
Proof. reflexivity. Qed.

(** A run on two datasets, without arguments: it returns 0, prints the
    two progress lines and a blank line first, the summary before the
    results, and 31 lines in all. *)
Example main_two_datasets :
  exists out,
    main example_clock 10 ["sortcomparer"%string]
         (open_stream (line "3 1 2" ++ line "5 4"))
    = Ok {| ret := 0; cout := out; cerr := [];
            cin_after := {| buf := []; eofbit := true; failbit := true |} |} /\
    take 3 out = [Progress 1; Progress 2; OutBlank] /\
    reports out = [SummaryBanner; ResultsBanner] /\
    length out = 31%nat.
Proof.
  eexists. split; [vm_compute; reflexivity|]. split; [reflexivity|]. split; reflexivity.
Qed.

(** ** The reader returns; merging and sifting down *)

(** [read_in_datasets] returns on every content of standard input. *)
Theorem read_in_datasets_terminates (cin : istream) (datasets : list vec) :
  exists r, returns (fun fuel => read_in_datasets fuel cin datasets) r.
Proof.
  destruct (read_in_datasets_total cin datasets (length (buf cin) + 2)) as [r Hr]; [lia|].
  exists r, (length (buf cin) + 2)%nat. intros fuel Hfuel.
  now apply (read_in_datasets_mono (length (buf cin) + 2)).
Qed.

(** [merge_sublists] on two adjacent sorted runs [start..middle] and
    [middle+1..end] returns the vector in which [start..end] is sorted, a
    permutation of the one given that is unchanged outside [start..end]. *)
Theorem merge_sublists_merges (fuel : nat) (v : vec) (start middle end_ : Z) :
  0 <= start -> start <= middle -> middle < end_ -> end_ < vsize v ->
  sorted_seg v start middle -> sorted_seg v (middle + 1) end_ ->
  end_ - start + 1 < Z.of_nat fuel ->
  exists w, merge_sublists fuel v start middle end_ = Ok w /\
            vsize w = vsize v /\ Permutation v w /\
            same_outside v w start end_ /\ sorted_seg w start end_.
Proof. apply merge_sublists_correct. Qed.

Lemma merge_sublists_merges_witness :
  exists w, merge_sublists 6 [9; 1; 4; 2; 3] 1 2 4 = Ok w /\
            vsize w = vsize [9; 1; 4; 2; 3] /\ Permutation [9; 1; 4; 2; 3] w /\
            same_outside [9; 1; 4; 2; 3] w 1 4 /\ sorted_seg w 1 4.
Proof.
  apply (merge_sublists_merges 6 [9; 1; 4; 2; 3] 1 2 4); try (vm_compute; congruence).
  - intros i j Hi Hij Hj.
    assert (Hi' : i = 1 \/ i = 2) by lia. assert (Hj' : j = 1 \/ j = 2) by lia.
    destruct Hi' as [->| ->], Hj' as [->| ->]; vm_compute; try congruence; lia.
  - intros i j Hi Hij Hj.
    assert (Hi' : i = 3 \/ i = 4) by lia. assert (Hj' : j = 3 \/ j = 4) by lia.
    destruct Hi' as [->| ->], Hj' as [->| ->]; vm_compute; try congruence; lia.
Defined.

(** [max_heapify v n i], entered with the heap property holding from [lo]
    on except at node [i], returns a permutation in which it holds from
    [lo] on, unchanged outside [i..n-1]. *)
Theorem max_heapify_restores_heap (fuel : nat) (v : vec) (n i lo : Z) :
  0 <= lo -> lo <= i -> n <= vsize v -> 2 * n <= INT_MAX -> 2 * i + 2 <= INT_MAX ->
  Z.max 0 (n - i) < Z.of_nat fuel ->
  heap_except v n lo i ->
  exists w, max_heapify fuel v n i = Ok w /\
            vsize w = vsize v /\ Permutation v w /\
            same_outside v w i (n - 1) /\ heap_from w n lo.
Proof. apply max_heapify_correct. Qed.

Lemma max_heapify_restores_heap_witness :
  exists w, max_heapify 5 [1; 5; 4] 3 0 = Ok w /\
            vsize w = vsize [1; 5; 4] /\ Permutation [1; 5; 4] w /\
            same_outside [1; 5; 4] w 0 (3 - 1) /\ heap_from w 3 0.
Proof.
  apply (max_heapify_restores_heap 5 [1; 5; 4] 3 0 0); try (vm_compute; congruence).
  split; intros p c Hp; lia.
Defined.

(** * Further properties of the code *)

(** ** The recursive sorts on a range *)

(** [merge_sort_sublist(v, start, end)] returns for every range that lies
    inside the vector, with [v[start..end]] sorted and the vector a
    permutation of the one given that is unchanged outside the range. *)
Theorem merge_sort_sublist_sorts_range (v : vec) (start end_ : Z) :
  0 <= start -> end_ < vsize v ->
  exists w, returns (fun fuel => merge_sort_sublist fuel v start end_) w /\
            vsize w = vsize v /\ Permutation v w /\
            same_outside v w start end_ /\ sorted_seg w start end_.
Proof.
  intros Hstart Hend.
  apply (range_sort_returns _ v start end_
           (Datatypes.S (Z.to_nat (Z.max 0 (end_ - start + 1))))); auto.
  intros fuel Hfuel. apply merge_sort_sublist_correct; auto. lia.
Qed.

Lemma merge_sort_sublist_sorts_range_witness :
  exists w, returns (fun fuel => merge_sort_sublist fuel [9; 4; 3; 1; 2; 0] 1 4) w /\
            vsize w = vsize [9; 4; 3; 1; 2; 0] /\ Permutation [9; 4; 3; 1; 2; 0] w /\
            same_outside [9; 4; 3; 1; 2; 0] w 1 4 /\ sorted_seg w 1 4.
Proof.
  apply (merge_sort_sublist_sorts_range [9; 4; 3; 1; 2; 0] 1 4); vm_compute; congruence.
Defined.

(** [quick_sort_sublist(v, start, end)] returns for every range that lies
    inside the vector, with [v[start..end]] sorted and the vector a
    permutation of the one given that is unchanged outside the range. *)
Theorem quick_sort_sublist_sorts_range (v : vec) (start end_ : Z) :
  0 <= start -> end_ < vsize v ->
  exists w, returns (fun fuel => quick_sort_sublist fuel v start end_) w /\
            vsize w = vsize v /\ Permutation v w /\
            same_outside v w start end_ /\ sorted_seg w start end_.
Proof.
  intros Hstart Hend.
  apply (range_sort_returns _ v start end_
           (Datatypes.S (Z.to_nat (Z.max 0 (end_ - start + 1))))); auto.
  intros fuel Hfuel. apply quick_sort_sublist_correct; auto. lia.
Qed.

Lemma quick_sort_sublist_sorts_range_witness :
  exists w, returns (fun fuel => quick_sort_sublist fuel [9; 4; 3; 1; 2; 0] 1 4) w /\
            vsize w = vsize [9; 4; 3; 1; 2; 0] /\ Permutation [9; 4; 3; 1; 2; 0] w /\
            same_outside [9; 4; 3; 1; 2; 0] w 1 4 /\ sorted_seg w 1 4.
Proof.
  apply (quick_sort_sublist_sorts_range [9; 4; 3; 1; 2; 0] 1 4); vm_compute; congruence.
Defined.

(** ** The partition at its extremes *)

(** When no element of [v[start..end-1]] is above the pivot [v[end]], as
    on a range that is already sorted, [partition_sublist] leaves the vector
    as it is and returns [end]: the split is the most uneven one.  When
    all of them are above the pivot it exchanges [v[start]] and [v[end]]
    and returns [start]. *)
Theorem partition_sublist_extremes (v : vec) (start end_ : Z) :
  0 <= start -> start <= end_ -> end_ < vsize v ->
  ((forall k, start <= k < end_ -> at_ v k <= at_ v end_) ->
   partition_sublist v start end_ = Ok (v, end_)) /\
  ((forall k, start <= k < end_ -> at_ v end_ < at_ v k) ->
   partition_sublist v start end_ = Ok (swapz v start end_, start)).
Proof.
  intros Hstart Hle Hend. split; intros Hall; unfold partition_sublist.
  - destruct (for_range_rule (fun j (s : vec * Z) => s = (v, j - 1)) start end_
                (partition_step end_) (v, start - 1)) as (s & Hrun & ->); auto.
    + intros k s Hk ->. unfold partition_step.
      rewrite !get_ok, !bind_Ok by lia.
      destruct (Z.leb_spec (at_ v k) (at_ v end_)) as [_|Hgt];
        [|specialize (Hall k Hk); lia].
      replace (k - 1 + 1) with k by lia.
      rewrite swap_ok, bind_Ok, swapz_same by lia.
      eexists. split; [reflexivity|]. f_equal. lia.
    + rewrite Hrun, bind_Ok. replace (end_ - 1 + 1) with end_ by lia.
      rewrite swap_ok, bind_Ok, swapz_same by lia. reflexivity.
  - destruct (for_range_rule (fun (j : Z) (s : vec * Z) => s = (v, start - 1)) start end_
                (partition_step end_) (v, start - 1)) as (s & Hrun & ->); auto.
    + intros k s Hk ->. unfold partition_step.
      rewrite !get_ok, !bind_Ok by lia.
      destruct (Z.leb_spec (at_ v k) (at_ v end_)) as [Hle'|_];
        [specialize (Hall k Hk); lia|].
      eexists. split; reflexivity.
    + rewrite Hrun, bind_Ok. replace (start - 1 + 1) with start by lia.
      rewrite swap_ok, bind_Ok by lia. reflexivity.
Qed.

Lemma partition_sublist_extremes_witness :
  ((forall k, 1 <= k < 3 -> at_ [7; 1; 2; 3] k <= at_ [7; 1; 2; 3] 3) ->
   partition_sublist [7; 1; 2; 3] 1 3 = Ok ([7; 1; 2; 3], 3)) /\
  ((forall k, 1 <= k < 3 -> at_ [7; 1; 2; 3] 3 < at_ [7; 1; 2; 3] k) ->
   partition_sublist [7; 1; 2; 3] 1 3 = Ok (swapz [7; 1; 2; 3] 1 3, 1)).
Proof.
  apply (partition_sublist_extremes [7; 1; 2; 3] 1 3); vm_compute; congruence.
Defined.

(** ** The seven algorithms against each other *)

(** On a dataset within the size limits any two of the registered
    algorithms return the same vector, and an algorithm run on that vector
    returns it unchanged; a dataset that is already sorted is returned as
    it is. *)
Theorem sort_algos_agree (name1 name2 : string) (f1 f2 : SortFunction) (S : vec) :
  In (name1, f1) sort_algos -> In (name2, f2) sort_algos -> vsize S <= 2 ^ 30 - 1 ->
  exists out,
    returns (fun fuel => f1 fuel S) out /\ returns (fun fuel => f2 fuel S) out /\
    returns (fun fuel => f2 fuel out) out /\
    (sorted_vec S -> out = S).
Proof.
  intros Hin1 Hin2 Hsize.
  assert (Hunique : forall a b : vec, sorted_vec a -> sorted_vec b -> Permutation a b -> a = b).
  { intros a b Ha Hb Hab. apply (StronglySorted_unique Z.le); auto;
      now apply sorted_vec_StronglySorted. }
  destruct (sorts_correct name1 f1 S Hin1) as (out & Hrun1 & Hperm1 & Hs1);
    [pose proof (size_limit_ge name1); lia|].
  destruct (sorts_correct name2 f2 S Hin2) as (out2 & Hrun2 & Hperm2 & Hs2);
    [pose proof (size_limit_ge name2); lia|].
  assert (Heq : out2 = out).
  { apply Hunique; auto. now rewrite <- Hperm2, Hperm1. }
  subst out2.
  destruct (sorts_correct name2 f2 out Hin2) as (out3 & Hrun3 & Hperm3 & Hs3).
  { rewrite <- (Permutation_vsize S out Hperm1). pose proof (size_limit_ge name2). lia. }
  assert (Heq : out3 = out) by (apply Hunique; auto; now symmetry).
  subst out3.
  exists out. repeat split; auto.
  intros HS. apply Hunique; auto. now symmetry.
Qed.

Lemma sort_algos_agree_witness :
  exists out,
    returns (fun fuel => shell_sort fuel [3; 1; 2]) out /\
    returns (fun fuel => heap_sort fuel [3; 1; 2]) out /\
    returns (fun fuel => heap_sort fuel out) out /\
    (sorted_vec [3; 1; 2] -> out = [3; 1; 2]).
Proof.
  apply (sort_algos_agree "Shell Sort" "Heap Sort" shell_sort heap_sort [3; 1; 2]).
  - simpl. do 6 right. left. reflexivity.
  - simpl. do 3 right. left. reflexivity.
  - vm_compute. congruence.
Defined.

(** ** The comparison of the rankings *)

(** [compare_times] is a strict weak ordering, as [std::sort] requires of
    its comparison: irreflexive, transitive, and with a transitive
    incomparability, which holds exactly between pairs of equal times. *)
Theorem compare_times_strict_weak_order :
  (forall p, compare_times p p = false) /\
  (forall p q r, compare_times p q = true -> compare_times q r = true ->
                 compare_times p r = true) /\
  (forall p q, compare_times p q = false /\ compare_times q p = false <-> p.2 = q.2) /\
  (forall p q r, compare_times p q = false -> compare_times q p = false ->
                 compare_times q r = false -> compare_times r q = false ->
                 compare_times p r = false /\ compare_times r p = false).
Proof.
  unfold compare_times. split; [|split; [|split]].
  - intros p. apply Z.ltb_irrefl.
  - intros p q r H1 H2. apply Z.ltb_lt in H1, H2. apply Z.ltb_lt. lia.
  - intros p q. rewrite !Z.ltb_ge. lia.
  - intros p q r. rewrite !Z.ltb_ge. lia.
Qed.

(** ** The rankings that are printed *)

Lemma sort_insert_perm (p : string * Z) (l : list (string * Z)) :
  Permutation (p :: l) (sort_insert p l).
Proof.
  induction l as [|q l IH]; simpl; [reflexivity|].
  destruct (compare_times q p); [|reflexivity].
  rewrite perm_swap. now apply perm_skip.
Qed.

Lemma std_sort_perm (l : list (string * Z)) : Permutation l (std_sort l).
Proof.
  induction l as [|p l IH]; simpl; [reflexivity|].
  unfold std_sort in *. simpl. rewrite <- sort_insert_perm. now apply perm_skip.
Qed.

Lemma sort_insert_sorted (p : string * Z) (l : list (string * Z)) :
  StronglySorted by_time l -> StronglySorted by_time (sort_insert p l).
Proof.
  induction 1 as [|q l Hl IH Hq]; simpl.
  - repeat constructor.
  - unfold compare_times. destruct (Z.ltb_spec q.2 p.2) as [Hlt|Hge].
    + constructor; [exact IH|].
      apply (Permutation_Forall (sort_insert_perm p l)).
      constructor; [unfold by_time; lia | exact Hq].
    + constructor; [now constructor|].
      constructor; [exact Hge|].
      eapply Forall_impl; [exact Hq|]. unfold by_time. intros r Hr. lia.
Qed.

Lemma std_sort_sorted (l : list (string * Z)) : StronglySorted by_time (std_sort l).
Proof.
  induction l as [|p l IH]; simpl; [constructor|].
  unfold std_sort in *. simpl. now apply sort_insert_sorted.
Qed.

Lemma index_after {A : Type} (pre l : list A) :
  index (pre ++ l) (Z.of_nat (length pre))
  = match l with
    | [] => Err OutOfBounds
    | a :: _ => Ok a
    end.
Proof.
  unfold index. destruct (Z.leb_spec 0 (Z.of_nat (length pre))) as [_|Hneg]; [|lia].
  rewrite Nat2Z.id, lookup_app_r by lia. rewrite Nat.sub_diag. now destruct l.
Qed.

(** [cnt] lines of the ranking [pre ++ l], from the line of index
    [length pre] on: they are printed when the ranking has that many, and
    the access is out of bounds when it has not. *)
Lemma print_from (mk : Z -> string * Z -> out_line) :
  forall (cnt : nat) (pre l : list (string * Z)) (out : list out_line),
    for_count cnt (Z.of_nat (length pre))
      (fun i cout => p ← index (pre ++ l) i; mret (cout ++ [mk i p])) out
    = if (cnt <=? length l)%nat
      then Ok (out ++ rank_from mk (Z.of_nat (length pre)) (take cnt l))
      else Err OutOfBounds.
Proof.
  induction cnt as [|cnt IH]; intros pre l out.
  - simpl. now rewrite app_nil_r.
  - cbn [for_count]. rewrite index_after.
    destruct l as [|p l]; [reflexivity|].
    rewrite bind_Ok. cbn [mret result_ret]. rewrite bind_Ok.
    specialize (IH (pre ++ [p]) l (out ++ [mk (Z.of_nat (length pre)) p])).
    rewrite <- app_assoc in IH. cbn [app] in IH.
    rewrite length_app in IH. cbn [length] in IH.
    replace (Z.of_nat (length pre + 1)) with (Z.of_nat (length pre) + 1) in IH by lia.
    rewrite IH. cbn [length Nat.leb take rank_from].
    destruct (cnt <=? length l)%nat; [|reflexivity].
    now rewrite <- app_assoc.
Qed.

Lemma print_ranking_exact (mk : Z -> string * Z -> out_line) (l : list (string * Z))
    (n : Z) (out : list out_line) :
  0 <= n ->
  for_range 0 n (fun i cout => p ← index l i; mret (cout ++ [mk i p])) out
  = if n <=? Z.of_nat (length l)
    then Ok (out ++ rank_from mk 0 (take (Z.to_nat n) l))
    else Err OutOfBounds.
Proof.
  intros Hn. unfold for_range.
  pose proof (print_from mk (Z.to_nat (n - 0)) [] l out) as H.
  change (Z.of_nat (length (@nil (string * Z)))) with 0 in H.
  change ([] ++ l) with l in H. rewrite H.
  replace (Z.to_nat (n - 0)) with (Z.to_nat n) by lia.
  destruct (Z.leb_spec n (Z.of_nat (length l)));
    destruct (Nat.leb_spec (Z.to_nat n) (length l)); try lia; reflexivity.
Qed.

Lemma render_summary_exact (total_times : gmap string Z) (num_algos num_datasets : Z)
    (out : list out_line) :
  0 <= num_algos ->
  render_summary total_times num_algos num_datasets out
  = (if num_algos <=? Z.of_nat (size total_times)
     then Ok (out ++ summary_block total_times num_algos num_datasets)
     else Err OutOfBounds) /\
  StronglySorted by_time (std_sort (map_to_list total_times)) /\
  Permutation (map_to_list total_times) (std_sort (map_to_list total_times)) /\
  (forall name total,
     In (name, total) (std_sort (map_to_list total_times))
     <-> total_times !! name = Some total).
Proof.
  intros Hn. split; [|split; [apply std_sort_sorted | split; [apply std_sort_perm|]]].
  - unfold render_summary, summary_block.
    rewrite print_ranking_exact, std_sort_length, length_map_to_list by exact Hn.
    destruct (num_algos <=? Z.of_nat (size total_times)); [|reflexivity].
    rewrite bind_Ok. cbn [mret result_ret]. f_equal. now rewrite <- !app_assoc.
  - intros name total. rewrite <- elem_of_map_to_list, <- list_elem_of_In.
    now rewrite <- (std_sort_perm (map_to_list total_times)).
Qed.

(** [render_summary] prints the banner, then the [num_algos] first
    entries of [total_times] in an order in which the totals do not
    decrease, with ranks from 1, then a blank line; the ranking holds the
    entries of the map, each once.  With fewer entries than [num_algos]
    the ranking is read out of bounds. *)
Theorem render_summary_ranks (total_times : gmap string Z) (num_algos num_datasets : Z)
    (out : list out_line) :
  0 <= num_algos ->
  render_summary total_times num_algos num_datasets out
  = (if num_algos <=? Z.of_nat (size total_times)
     then Ok (out ++ summary_block total_times num_algos num_datasets)
     else Err OutOfBounds) /\
  StronglySorted by_time (std_sort (map_to_list total_times)) /\
  Permutation (map_to_list total_times) (std_sort (map_to_list total_times)) /\
  (forall name total,
     In (name, total) (std_sort (map_to_list total_times))
     <-> total_times !! name = Some total).
Proof. intros. eapply render_summary_exact; eassumption. Qed.

Lemma render_summary_ranks_witness :
  let total_times : gmap string Z := <["Quick Sort"%string := 5]> (<["Heap Sort"%string := 3]> ∅) in
  render_summary total_times 2 4 []
  = (if 2 <=? Z.of_nat (size total_times)
     then Ok ([] ++ summary_block total_times 2 4)
     else Err OutOfBounds) /\
  StronglySorted by_time (std_sort (map_to_list total_times)) /\
  Permutation (map_to_list total_times) (std_sort (map_to_list total_times)) /\
  (forall name total,
     In (name, total) (std_sort (map_to_list total_times))
     <-> total_times !! name = Some total).
Proof.
  intros total_times. apply (render_summary_ranks total_times 2 4 []). lia.
Defined.

Lemma index_nth {A : Type} (l : list A) (i : Z) (d : A) :
  0 <= i < Z.of_nat (length l) -> index l i = Ok (nth (Z.to_nat i) l d).
Proof.
  intros Hi. unfold index. destruct (Z.leb_spec 0 i) as [_|Hneg]; [|lia].
  destruct (l !! Z.to_nat i) as [a|] eqn:E.
  - now rewrite (nth_lookup_Some _ _ d _ E).
  - apply lookup_ge_None in E. lia.
Qed.

Lemma collect_times_exact (i : Z) :
  forall (l : list (string * list Z)) (acc : list (string * Z)),
    Forall (fun e : string * list Z => 0 <= i < Z.of_nat (length e.2)) l ->
    for_each l (fun entry fast_to_slow =>
                  t ← index entry.2 i; mret (fast_to_slow ++ [(entry.1, t)])) acc
    = Ok (acc ++ map (fun e : string * list Z => (e.1, nth (Z.to_nat i) e.2 0)) l).
Proof.
  induction l as [|e l IH]; intros acc Hall; simpl.
  - now rewrite app_nil_r.
  - inversion Hall as [|? ? He Hl]. subst.
    rewrite (index_nth e.2 i 0 He), !bind_Ok. cbn [mret result_ret].
    rewrite (IH _ Hl), <- app_assoc. reflexivity.
Qed.

(** A loop that appends one block per iteration. *)
Lemma for_count_blocks {A : Type} (blk : nat -> list A)
    (body : Z -> list A -> result (list A)) :
  forall (cnt a : nat) (out : list A),
    (forall k out, (a <= k < a + cnt)%nat -> body (Z.of_nat k) out = Ok (out ++ blk k)) ->
    for_count cnt (Z.of_nat a) body out = Ok (out ++ flat_map blk (seq a cnt)).
Proof.
  induction cnt as [|cnt IH]; intros a out Hbody; simpl.
  - now rewrite app_nil_r.
  - rewrite Hbody, bind_Ok by lia.
    replace (Z.of_nat a + 1) with (Z.of_nat (Datatypes.S a)) by lia.
    rewrite IH by (intros k o Hk; apply Hbody; lia).
    now rewrite <- app_assoc.
Qed.

Lemma render_results_exact (result_times : gmap string (list Z))
    (num_algos num_datasets : Z) (out : list out_line) :
  0 <= num_algos <= Z.of_nat (size result_times) -> 0 <= num_datasets ->
  (forall name ts, result_times !! name = Some ts ->
                   num_datasets <= Z.of_nat (length ts)) ->
  render_results result_times num_algos num_datasets out
  = Ok (out ++ results_block result_times num_algos num_datasets) /\
  forall i, 0 <= i < num_datasets ->
    StronglySorted by_time (std_sort (times_at result_times i)) /\
    Permutation (times_at result_times i) (std_sort (times_at result_times i)) /\
    (forall name t,
       In (name, t) (std_sort (times_at result_times i)) <->
       exists ts, result_times !! name = Some ts /\ ts !! Z.to_nat i = Some t).
Proof.
  intros Hn Hd Hlen. split.
  - unfold render_results, results_block. unfold for_range at 1.
    replace (Z.to_nat (num_datasets - 0)) with (Z.to_nat num_datasets) by lia.
    change 0 with (Z.of_nat 0) at 1.
    rewrite (for_count_blocks
               (fun k => dataset_block result_times num_algos (Z.of_nat k))).
    + now rewrite <- app_assoc.
    + intros k cout Hk.
      rewrite collect_times_exact.
      * rewrite bind_Ok. cbn [app]. fold (times_at result_times (Z.of_nat k)).
        rewrite print_ranking_exact by lia.
        unfold times_at at 1. rewrite std_sort_length, length_map, length_map_to_list.
        destruct (Z.leb_spec num_algos (Z.of_nat (size result_times))) as [_|Hgt]; [|lia].
        rewrite bind_Ok. cbn [mret result_ret]. unfold dataset_block.
        now rewrite <- !app_assoc.
      * apply List.Forall_forall. intros [name ts] Hin.
        apply list_elem_of_In, elem_of_map_to_list in Hin.
        specialize (Hlen name ts Hin). simpl. lia.
  - intros i Hi. split; [apply std_sort_sorted | split; [apply std_sort_perm|]].
    intros name t.
    rewrite <- list_elem_of_In, <- (std_sort_perm (times_at result_times i)).
    rewrite list_elem_of_In. unfold times_at. rewrite in_map_iff. split.
    + intros ([name' ts] & Heq & Hin). simpl in Heq. inversion Heq. subst.
      apply list_elem_of_In, elem_of_map_to_list in Hin.
      exists ts. split; [exact Hin|].
      specialize (Hlen name ts Hin).
      destruct (ts !! Z.to_nat i) as [t|] eqn:E.
      * now rewrite (nth_lookup_Some _ _ 0 _ E).
      * apply lookup_ge_None in E. lia.
    + intros (ts & Hts & Ht). exists (name, ts). split.
      * simpl. now rewrite (nth_lookup_Some _ _ 0 _ Ht).
      * now apply list_elem_of_In, elem_of_map_to_list.
Qed.

(** [render_results], when every algorithm has a duration for each of the
    [num_datasets] datasets, prints the banner and then one block for each
    dataset: its header, the [num_algos] first pairs of algorithm and
    duration on this dataset in an order in which the durations do not
    decrease, with ranks from 1, and a blank line.  The ranking of a
    dataset holds every algorithm of the map once, with the duration it
    has for this dataset. *)
Theorem render_results_ranks (result_times : gmap string (list Z))
    (num_algos num_datasets : Z) (out : list out_line) :
  0 <= num_algos <= Z.of_nat (size result_times) -> 0 <= num_datasets ->
  (forall name ts, result_times !! name = Some ts ->
                   num_datasets <= Z.of_nat (length ts)) ->
  render_results result_times num_algos num_datasets out
  = Ok (out ++ results_block result_times num_algos num_datasets) /\
  forall i, 0 <= i < num_datasets ->
    StronglySorted by_time (std_sort (times_at result_times i)) /\
    Permutation (times_at result_times i) (std_sort (times_at result_times i)) /\
    (forall name t,
       In (name, t) (std_sort (times_at result_times i)) <->
       exists ts, result_times !! name = Some ts /\ ts !! Z.to_nat i = Some t).
Proof. intros. eapply render_results_exact; eassumption. Qed.

Lemma render_results_ranks_witness :
  let result_times : gmap string (list Z) :=
    <["Quick Sort"%string := [5; 1]]> (<["Heap Sort"%string := [3; 2]]> ∅) in
  render_results result_times 2 2 []
  = Ok ([] ++ results_block result_times 2 2) /\
  forall i, 0 <= i < 2 ->
    StronglySorted by_time (std_sort (times_at result_times i)) /\
    Permutation (times_at result_times i) (std_sort (times_at result_times i)) /\
    (forall name t,
       In (name, t) (std_sort (times_at result_times i)) <->
       exists ts, result_times !! name = Some ts /\ ts !! Z.to_nat i = Some t).
Proof.
  intros result_times. apply (render_results_ranks result_times 2 2 []).
  - vm_compute. split; congruence.
  - lia.
  - intros name ts Hts. unfold result_times in Hts.
    destruct (decide (name = "Quick Sort"%string)) as [->|Hq].
    + rewrite lookup_insert_eq in Hts. inversion Hts. simpl. lia.
    + rewrite lookup_insert_ne in Hts by congruence.
      destruct (decide (name = "Heap Sort"%string)) as [->|Hh].
      * rewrite lookup_insert_eq in Hts. inversion Hts. simpl. lia.
      * rewrite lookup_insert_ne, lookup_empty in Hts by congruence. discriminate.
Defined.

(** ** What the timing loop measures *)

Lemma times_for_app (name : string) (l1 l2 : list (string * Z)) :
  times_for name (l1 ++ l2) = times_for name l1 ++ times_for name l2.
Proof.
  induction l1 as [|[algo d] l1 IH]; simpl; [reflexivity|].
  destruct (String.eqb algo name); simpl; now rewrite IH.
Qed.

Lemma times_for_absent (clk : clock_model) (name : string) :
  forall (l : list (string * SortFunction)) (c : nat),
    ~ In name (map fst l) -> times_for name (measure_from clk c l) = [].
Proof.
  induction l as [|e l IH]; intros c Hnot; simpl; [reflexivity|].
  destruct (String.eqb_spec e.1 name) as [Heq|_].
  - exfalso. apply Hnot. simpl. auto.
  - apply IH. intros Hin. apply Hnot. simpl. auto.
Qed.

Lemma times_for_once (clk : clock_model) (name : string) :
  forall (l : list (string * SortFunction)) (c : nat),
    NoDup (map fst l) -> In name (map fst l) ->
    length (times_for name (measure_from clk c l)) = 1%nat.
Proof.
  induction l as [|e l IH]; intros c Hnd Hin; simpl in *; [contradiction|].
  apply NoDup_cons in Hnd as [Hnot Hnd].
  destruct (String.eqb_spec e.1 name) as [Heq|Hne].
  - simpl. rewrite times_for_absent; [reflexivity|].
    rewrite <- Heq. intros H. apply Hnot. now apply list_elem_of_In.
  - destruct Hin as [Heq|Hin]; [contradiction|]. now apply IH.
Qed.

Lemma map_fst_measure_from (clk : clock_model) :
  forall (l : list (string * SortFunction)) (c : nat),
    map fst (measure_from clk c l) = map fst l.
Proof. induction l as [|e l IH]; intros c; simpl; [reflexivity|]. now rewrite IH. Qed.

Lemma map_snd_measure_from (clk : clock_model) :
  forall (l : list (string * SortFunction)) (c : nat),
    map snd (measure_from clk (2 * c) l)
    = map (fun j => duration_at clk (2 * j)) (seq c (length l)).
Proof.
  induction l as [|e l IH]; intros c; [reflexivity|].
  cbn [measure_from map length seq snd]. f_equal.
  replace (Datatypes.S (Datatypes.S (2 * c))) with (2 * Datatypes.S c)%nat by lia.
  apply IH.
Qed.

Lemma timing_log_length (clk : clock_model) (n : nat) (log : list (string * Z)) :
  timing_log clk n log -> length log = (length algo_names * n)%nat.
Proof.
  intros [Hd _]. apply (f_equal (@length Z)) in Hd.
  unfold durations in Hd. now rewrite !length_map, length_seq in Hd.
Qed.

(** The log of one more dataset. *)
Lemma timing_log_next (clk : clock_model) (n : nat) (log : list (string * Z)) :
  timing_log clk n log ->
  timing_log clk (Datatypes.S n)
    (log ++ measure_from clk (2 * (length sort_algos * n)) sort_algos).
Proof.
  intros Hlog. pose proof (timing_log_length clk n log Hlog) as Hlen.
  destruct Hlog as [Hd Hchunks]. split.
  - rewrite map_app, Hd, map_snd_measure_from. unfold durations.
    replace (length algo_names * Datatypes.S n)%nat
      with (length algo_names * n + length sort_algos)%nat
      by (unfold algo_names; rewrite length_map; lia).
    rewrite seq_app, map_app. unfold algo_names. rewrite length_map. reflexivity.
  - intros k Hk. unfold log_of_dataset.
    destruct (Nat.eq_dec k n) as [->|Hne].
    + rewrite <- Hlen, drop_app_length.
      rewrite take_ge by (rewrite <- (length_map fst), map_fst_measure_from; reflexivity).
      now rewrite map_fst_measure_from.
    + assert (Hkn : (k < n)%nat) by lia.
      assert (Hfit : (length algo_names * k + length algo_names <= length log)%nat) by nia.
      rewrite drop_app_le by lia.
      rewrite take_app_le by (rewrite length_drop; lia).
      now apply Hchunks.
Qed.


Lemma bench_entries_log (clk : clock_model) (fuel : nat) (sn rn : bool) (i : Z) :
  forall (l : list (string * SortFunction)) (st st' : bench_state),
    for_each l (bench_algo clk fuel sn rn i) st = Ok st' ->
    bs_measured st' = bs_measured st ++ measure_from clk (bs_clock st) l /\
    bs_clock st' = (bs_clock st + 2 * length l)%nat /\
    (l <> [] -> exists dataset, index (bs_datasets st) i = Ok dataset) /\
    (rn = true ->
     (forall name, default [] (bs_result_times st !! name)
                   = times_for name (bs_measured st)) ->
     forall name, default [] (bs_result_times st' !! name)
                  = times_for name (bs_measured st')).
Proof.
  induction l as [|e l IH]; intros st st' Hrun; simpl in Hrun.
  - inversion Hrun. subst. simpl. rewrite app_nil_r.
    split; [reflexivity|]. split; [lia|]. split; [congruence | auto].
  - destruct (bench_algo clk fuel sn rn i e st) as [st1|err] eqn:Hstep; [|discriminate].
    rewrite bind_Ok in Hrun.
    destruct (bench_algo_ok _ _ _ _ _ _ _ _ Hstep) as (dataset & out & Hd & _ & ->).
    destruct (IH _ _ Hrun) as (Hlog & Hclock & _ & Htimes).
    cbn [bench_record bs_measured bs_clock bs_result_times] in Hlog, Hclock, Htimes.
    split; [|split; [|split]].
    + rewrite Hlog, <- app_assoc. reflexivity.
    + rewrite Hclock. simpl. lia.
    + intros _. eauto.
    + intros Hrn Hinv. apply (Htimes Hrn). intros name. rewrite Hrn.
      rewrite times_for_app, <- Hinv. cbn [times_for].
      destruct (decide (e.1 = name)) as [<-|Hne].
      * rewrite String.eqb_refl, lookup_insert_eq. reflexivity.
      * destruct (String.eqb_spec e.1 name) as [|_]; [congruence|].
        rewrite lookup_insert_ne, app_nil_r by exact Hne. reflexivity.
Qed.

Lemma reserve_default (rn : bool) (name : string) :
  default [] (reserve_result_times rn !! name) = [].
Proof.
  unfold reserve_result_times. destruct rn; [|now rewrite lookup_empty].
  rewrite reserve_lookup. destruct (decide (name ∈ map fst sort_algos));
    now rewrite lookup_empty.
Qed.

Lemma loop_state_log (clk : clock_model) (fuel : nat) (sn rn : bool)
    (datasets : list vec) (i : Z) (st : bench_state) :
  loop_state clk fuel sn rn datasets i st ->
  0 <= i <= Z.of_nat (length datasets) /\
  timing_log clk (Z.to_nat i) (bs_measured st) /\
  bs_clock st = (2 * (length sort_algos * Z.to_nat i))%nat /\
  bs_cout st = progress_lines (Z.to_nat i) /\
  (forall name, In name algo_names ->
     length (times_for name (bs_measured st)) = Z.to_nat i) /\
  (rn = true -> forall name, In name algo_names ->
     bs_result_times st !! name = Some (times_for name (bs_measured st))) /\
  (sn = true -> 0 < i -> forall name, In name algo_names ->
     bs_total_times st !! name = Some (sum_for name (bs_measured st))).
Proof.
  intros Hst.
  assert (Hmain : 0 <= i <= Z.of_nat (length datasets) /\
                  timing_log clk (Z.to_nat i) (bs_measured st) /\
                  bs_clock st = (2 * (length sort_algos * Z.to_nat i))%nat /\
                  bs_cout st = progress_lines (Z.to_nat i) /\
                  (forall name, In name algo_names ->
                     length (times_for name (bs_measured st)) = Z.to_nat i) /\
                  (rn = true -> forall name, default [] (bs_result_times st !! name)
                                             = times_for name (bs_measured st))).
  { induction Hst as [|i st st' Hst IH Hstep].
    - split; [lia|]. split; [|split; [reflexivity|split; [reflexivity|split]]].
      + split; [reflexivity|]. intros k Hk. simpl in Hk. lia.
      + intros name _. reflexivity.
      + intros _ name. apply reserve_default.
    - destruct IH as (Hi & Hlog & Hclock & Hcout & Hcount & Htimes).
      pose proof (loop_state_datasets _ _ _ _ _ _ _ Hst) as Hds.
      pose proof (loop_state_times_inv _ _ _ _ _ _ _ Hst) as Hinv.
      destruct (bench_dataset_partial clk fuel sn rn i st st' Hinv Hstep)
        as (_ & _ & Hcout').
      unfold bench_dataset in Hstep.
      destruct (bench_entries_log _ _ _ _ _ _ _ _ Hstep) as (Hlog' & Hclock' & Hidx & Htimes').
      cbn [bs_measured bs_clock bs_datasets bs_result_times] in Hlog', Hclock', Hidx, Htimes'.
      destruct Hidx as [dataset Hd]; [discriminate|].
      assert (Hlt : i < Z.of_nat (length datasets)).
      { rewrite Hds in Hd. unfold index in Hd.
        destruct (0 <=? i); [|discriminate].
        destruct (datasets !! Z.to_nat i) eqn:E; [|discriminate].
        apply lookup_lt_Some in E. lia. }
      replace (Z.to_nat (i + 1)) with (Datatypes.S (Z.to_nat i)) by lia.
      split; [lia|]. split; [|split; [|split; [|split]]].
      + rewrite Hlog', Hclock. now apply timing_log_next.
      + rewrite Hclock', Hclock. lia.
      + rewrite Hcout', Hcout. unfold progress_lines.
        rewrite seq_S, map_app. simpl. do 3 f_equal. lia.
      + intros name Hin. rewrite Hlog', times_for_app, length_app, (Hcount name Hin).
        rewrite times_for_once; [lia | apply algo_names_NoDup | exact Hin].
      + intros Hrn. apply Htimes'; auto. }
  destruct Hmain as (Hi & Hlog & Hclock & Hcout & Hcount & Htimes).
  pose proof (loop_state_times_inv _ _ _ _ _ _ _ Hst) as (_ & Hr & _ & Ht).
  split; [exact Hi|]. split; [exact Hlog|]. split; [exact Hclock|]. split; [exact Hcout|].
  split; [exact Hcount|]. split.
  - intros Hrn name Hin. rewrite Hrn in Hr.
    destruct (Hr name) as (ts & Hts & _); [now apply list_elem_of_In|].
    rewrite <- (Htimes Hrn name), Hts. reflexivity.
  - intros Hsn Hpos name Hin. rewrite Hsn in Ht. destruct Ht as [Hsum Hall].
    destruct (Hall name) as [total Htotal]; [now apply list_elem_of_In | auto |].
    rewrite <- (Hsum name), Htotal. reflexivity.
Qed.

(** Between two datasets, [i] of them processed: [i] is at most the number
    of datasets; two readings of the clock have been taken for each
    measurement, and the durations measured are those between them, in
    order; the measurements of each dataset processed are one for each
    registered algorithm, so that every algorithm has been timed once on
    each of these datasets; one progress line was printed for each dataset;
    with the results requested, the durations stored for an algorithm are
    those measured for it, in the order of the datasets; with the summary
    requested and a dataset processed, the total stored for an algorithm is
    the sum of them.  Nothing is said of the order in which the algorithms
    are timed on one dataset. *)
Theorem timing_loop_log (clk : clock_model) (fuel : nat) (sn rn : bool)
    (datasets : list vec) (i : Z) (st : bench_state) :
  loop_state clk fuel sn rn datasets i st ->
  0 <= i <= Z.of_nat (length datasets) /\
  timing_log clk (Z.to_nat i) (bs_measured st) /\
  bs_clock st = (2 * (length sort_algos * Z.to_nat i))%nat /\
  bs_cout st = progress_lines (Z.to_nat i) /\
  (forall name, In name algo_names ->
     length (times_for name (bs_measured st)) = Z.to_nat i) /\
  (rn = true -> forall name, In name algo_names ->
     bs_result_times st !! name = Some (times_for name (bs_measured st))) /\
  (sn = true -> 0 < i -> forall name, In name algo_names ->
     bs_total_times st !! name = Some (sum_for name (bs_measured st))).
Proof. intros. eapply loop_state_log; eassumption. Qed.

Lemma timing_loop_log_witness :
  let st1 := bench_dataset_pure example_clock true true 0 (bench_init true [[3; 1; 2]]) in
  0 <= 1 <= Z.of_nat (length [[3; 1; 2]]) /\
  timing_log example_clock (Z.to_nat 1) (bs_measured st1) /\
  bs_clock st1 = (2 * (length sort_algos * Z.to_nat 1))%nat /\
  bs_cout st1 = progress_lines (Z.to_nat 1) /\
  (forall name, In name algo_names ->
     length (times_for name (bs_measured st1)) = Z.to_nat 1) /\
  (true = true -> forall name, In name algo_names ->
     bs_result_times st1 !! name = Some (times_for name (bs_measured st1))) /\
  (true = true -> 0 < 1 -> forall name, In name algo_names ->
     bs_total_times st1 !! name = Some (sum_for name (bs_measured st1))).
Proof.
  intros st1.
  apply (timing_loop_log example_clock 8 true true [[3; 1; 2]] 1 st1).
  apply (loop_next example_clock 8 true true [[3; 1; 2]] 0 (bench_init true [[3; 1; 2]]) st1).
  - apply loop_enter.
  - vm_compute. reflexivity.
Defined.

(** ** The output of a run *)

Lemma run_output_exact (clk : clock_model) (fuel : nat) (argv : list string)
    (ds : list vec) (st : bench_state) :
  loop_state clk fuel (summary_needed argv) (results_needed argv) ds
    (Z.of_nat (length ds)) st ->
  st = bench_count_pure clk (summary_needed argv) (results_needed argv)
         (Z.to_nat (Z.of_nat (length ds) - 0)) 0 (bench_init (results_needed argv) ds) ->
  (summary_needed argv = true -> ds <> []) ->
  run_output clk (summary_needed argv) (results_needed argv) ds
  = Ok (output_of argv (length ds) st).
Proof.
  intros Hst Heq Hne.
  destruct (loop_state_log _ _ _ _ _ _ _ Hst) as (_ & _ & _ & Hcout & _).
  pose proof (loop_state_times_inv _ _ _ _ _ _ _ Hst) as Hinv.
  unfold run_output, output_of. cbv zeta. fold (bench_init (results_needed argv) ds).
  rewrite <- Heq, Hcout, Nat2Z.id.
  destruct (summary_needed argv) eqn:Hsn.
  - assert (Hpos : 0 < Z.of_nat (length ds)).
    { specialize (Hne eq_refl). destruct ds; [congruence | simpl; lia]. }
    destruct (render_summary_exact (bs_total_times st) 7 (Z.of_nat (length ds))
                (progress_lines (length ds) ++ [OutBlank])) as [Hsum _]; [lia|].
    rewrite Hsum, (times_inv_totals_size _ _ _ Hpos Hinv). cbn [Z.leb Z.of_nat Pos.of_succ_nat].
    change (7 <=? Z.of_nat 7) with true. cbv iota. rewrite bind_Ok.
    destruct (results_needed argv) eqn:Hrn.
    + destruct (render_results_exact (bs_result_times st) 7 (Z.of_nat (length ds))
                  ((progress_lines (length ds) ++ [OutBlank]) ++
                   summary_block (bs_total_times st) 7 (Z.of_nat (length ds))))
        as [Hres _].
      * rewrite (times_inv_results_size _ _ _ Hinv). lia.
      * lia.
      * intros name ts Hts.
        destruct (times_inv_harness _ _ _ _ Hinv) as [Hlen _].
        rewrite (Hlen name ts Hts). lia.
      * rewrite Hres. f_equal. now rewrite <- !app_assoc.
    + cbn [mret result_ret]. f_equal. now rewrite app_nil_r, <- !app_assoc.
  - cbn [mret result_ret]. rewrite bind_Ok.
    destruct (results_needed argv) eqn:Hrn.
    + destruct (render_results_exact (bs_result_times st) 7 (Z.of_nat (length ds))
                  (progress_lines (length ds) ++ [OutBlank])) as [Hres _].
      * rewrite (times_inv_results_size _ _ _ Hinv). lia.
      * lia.
      * intros name ts Hts.
        destruct (times_inv_harness _ _ _ _ Hinv) as [Hlen _].
        rewrite (Hlen name ts Hts). lia.
      * rewrite Hres. f_equal. now rewrite <- !app_assoc.
    + reflexivity.
Qed.

Lemma main_run (clk : clock_model) (argv : list string)
    (cin cin1 : istream) (ds : list vec) (err : list diagnostic) :
  accepted argv ->
  returns (fun fuel => read_in_datasets fuel cin []) (cin1, ds, err) ->
  within_limits ds -> Z.of_nat (length ds) <= INT_MAX ->
  (summary_needed argv = true -> ds <> []) ->
  exists st,
    (exists fuel, loop_state clk fuel (summary_needed argv) (results_needed argv) ds
                    (Z.of_nat (length ds)) st) /\
    returns (fun fuel => main clk fuel argv cin)
      {| ret := 0; cout := output_of argv (length ds) st; cerr := err;
         cin_after := cin1 |}.
Proof.
  intros Hacc [fuel0 Hread] Hlim Hlen Hne.
  set (sn := summary_needed argv) in *. set (rn := results_needed argv) in *.
  set (fuel1 := Nat.max fuel0 (datasets_fuel ds)).
  set (st := bench_count_pure clk sn rn (Z.to_nat (Z.of_nat (length ds) - 0)) 0
               (bench_init rn ds)).
  assert (Hst : loop_state clk fuel1 sn rn ds (Z.of_nat (length ds)) st).
  { replace (Z.of_nat (length ds))
      with (0 + Z.of_nat (Z.to_nat (Z.of_nat (length ds) - 0))) at 1 by lia.
    apply (for_count_loop_state clk fuel1 sn rn ds _ 0 (bench_init rn ds));
      [apply loop_enter|].
    apply (bench_count_total clk fuel1 sn rn ds); auto; unfold fuel1; lia. }
  exists st. split; [eauto|].
  exists fuel1. intros fuel Hfuel.
  destruct (main_after_reading clk fuel argv cin cin1 ds err Hacc)
    as (out & Hout & Hmain & _); auto;
    try (apply Hread); try (unfold fuel1 in Hfuel; lia).
  rewrite Hmain. f_equal. f_equal.
  rewrite (run_output_exact clk fuel1 argv ds st Hst eq_refl Hne) in Hout.
  now inversion Hout.
Qed.

(** ** The output, whatever the order of the table *)

Lemma NoDup_graph {V : Type} (f : string -> V) (l : list string) :
  NoDup l -> NoDup (map (fun name => (name, f name)) l).
Proof.
  intros Hnd. induction Hnd as [|name l Hnot Hnd IH]; cbn [map]; constructor; [|exact IH].
  rewrite list_elem_of_In, in_map_iff. intros (name' & Heq & Hin).
  inversion Heq. subst. now apply Hnot, list_elem_of_In.
Qed.

(** A map that holds the registered algorithms, each with the value that
    [f] gives, lists them in some order. *)
Lemma map_to_list_algos {V : Type} (m : gmap string V) (f : string -> V) :
  (forall name, is_Some (m !! name) -> name ∈ algo_names) ->
  (forall name, In name algo_names -> m !! name = Some (f name)) ->
  Permutation (map_to_list m) (map (fun name => (name, f name)) algo_names).
Proof.
  intros Hkeys Hvals. apply NoDup_Permutation.
  - apply NoDup_map_to_list.
  - apply NoDup_graph, algo_names_NoDup.
  - intros [name v]. rewrite elem_of_map_to_list, list_elem_of_In, in_map_iff. split.
    + intros Hm. exists name.
      assert (Hin : In name algo_names) by (apply list_elem_of_In, Hkeys; eauto).
      rewrite (Hvals name Hin) in Hm. inversion Hm. auto.
    + intros (name' & Heq & Hin). inversion Heq. subst. now apply Hvals.
Qed.

Lemma ranks_std_sort (time : string -> Z) (l : list (string * Z)) :
  Permutation l (map (fun name => (name, time name)) algo_names) ->
  ranks time (std_sort l).
Proof.
  intros Hl. split; [|apply std_sort_sorted].
  now rewrite <- (std_sort_perm l).
Qed.

Lemma ranks_length (time : string -> Z) (ranking : list (string * Z)) :
  ranks time ranking -> length ranking = 7%nat.
Proof.
  intros [Hperm _]. rewrite (Permutation_length Hperm), length_map.
  apply algo_names_length.
Qed.

Lemma dataset_lines_blocks (f : nat -> list (string * Z)) (n : nat) :
  forall a : nat,
    dataset_lines a (map f (seq a n))
    = flat_map (fun k => [DatasetHeader (Z.of_nat k + 1)] ++
                         rank_from (fun j p => ResultLine (j + 1) p.1 p.2) 0 (f k) ++
                         [OutBlank]) (seq a n).
Proof.
  induction n as [|n IH]; intros a; [reflexivity|].
  cbn [seq map dataset_lines flat_map]. rewrite IH, <- !app_assoc. reflexivity.
Qed.

(** The summary that is printed is the summary of a ranking of the totals. *)
Lemma summary_block_ranks (total_times : gmap string Z) (log : list (string * Z))
    (num_datasets : Z) :
  (forall name, is_Some (total_times !! name) -> name ∈ algo_names) ->
  (forall name, In name algo_names -> total_times !! name = Some (sum_for name log)) ->
  exists ranking,
    ranks (fun name => sum_for name log) ranking /\
    summary_block total_times 7 num_datasets = summary_lines ranking num_datasets.
Proof.
  intros Hkeys Hvals. exists (std_sort (map_to_list total_times)).
  assert (Hranks : ranks (fun name => sum_for name log) (std_sort (map_to_list total_times))).
  { apply ranks_std_sort. now apply map_to_list_algos. }
  split; [exact Hranks|].
  unfold summary_block, summary_lines.
  rewrite firstn_all2; [reflexivity|].
  rewrite (ranks_length _ _ Hranks). change (Z.to_nat 7) with 7%nat. lia.
Qed.

(** The results that are printed are the results of one ranking for each
    dataset, of the durations on this dataset. *)
Lemma results_block_ranks (result_times : gmap string (list Z)) (log : list (string * Z))
    (n : nat) :
  (forall name, is_Some (result_times !! name) -> name ∈ algo_names) ->
  (forall name, In name algo_names -> result_times !! name = Some (times_for name log)) ->
  exists rankings,
    length rankings = n /\
    (forall k ranking, rankings !! k = Some ranking ->
                       ranks (fun name => nth k (times_for name log) 0) ranking) /\
    results_block result_times 7 (Z.of_nat n) = results_lines rankings.
Proof.
  intros Hkeys Hvals.
  assert (Hranks : forall k : nat,
            ranks (fun name => nth k (times_for name log) 0)
                  (std_sort (times_at result_times (Z.of_nat k)))).
  { intros k. apply ranks_std_sort. unfold times_at. rewrite Nat2Z.id.
    rewrite (Permutation_map _ (map_to_list_algos result_times (fun name => times_for name log)
                                  Hkeys Hvals)).
    rewrite map_map. reflexivity. }
  exists (map (fun k => std_sort (times_at result_times (Z.of_nat k))) (seq 0 n)).
  split; [now rewrite length_map, length_seq|]. split.
  - intros k ranking Hk. apply list_lookup_fmap_Some in Hk as (j & -> & Hj).
    apply lookup_seq in Hj as [-> _]. apply Hranks.
  - unfold results_block, results_lines. rewrite Nat2Z.id. f_equal.
    rewrite dataset_lines_blocks. apply flat_map_ext. intros k.
    unfold dataset_block. rewrite firstn_all2; [reflexivity|].
    rewrite (ranks_length _ _ (Hranks k)). change (Z.to_nat 7) with 7%nat. lia.
Qed.

(** A run with accepted arguments, on datasets within the size limits and
    at least one of them when the summary is selected, returns 0, has
    written to [std::cerr] what [read_in_datasets] wrote, and has printed:
    one progress line per dataset, a blank line, then the summary when it is
    selected, then the results when they are selected.  The summary is that
    of a ranking of the registered algorithms by their totals, and the
    results are those of one ranking for each dataset, by the durations on
    this dataset, over a log of the measurements: the durations of the log
    are those that the clock gives, in order, each dataset has one
    measurement for each registered algorithm, the total of an algorithm is
    the sum of its durations and its duration on dataset [k] is the one
    measured for it there.  Which algorithm of a dataset is timed before
    which is left open, as is the order of algorithms with equal times in a
    ranking. *)
Theorem main_output (clk : clock_model) (argv : list string)
    (cin cin1 : istream) (ds : list vec) (err : list diagnostic) :
  accepted argv ->
  returns (fun fuel => read_in_datasets fuel cin []) (cin1, ds, err) ->
  within_limits ds -> Z.of_nat (length ds) <= INT_MAX ->
  (summary_needed argv = true -> ds <> []) ->
  exists (log : list (string * Z)) (summary : list (string * Z))
         (results : list (list (string * Z))),
    timing_log clk (length ds) log /\
    ranks (fun name => sum_for name log) summary /\
    length results = length ds /\
    (forall k ranking, results !! k = Some ranking ->
                       ranks (fun name => nth k (times_for name log) 0) ranking) /\
    returns (fun fuel => main clk fuel argv cin)
      {| ret := 0;
         cout := progress_lines (length ds) ++ [OutBlank] ++
                 (if summary_needed argv
                  then summary_lines summary (Z.of_nat (length ds)) else []) ++
                 (if results_needed argv then results_lines results else []);
         cerr := err; cin_after := cin1 |}.
Proof.
  intros Hacc Hread Hlim Hlen Hne.
  destruct (main_run clk argv cin cin1 ds err Hacc Hread Hlim Hlen Hne)
    as (st & [fuel Hst] & Hmain).
  destruct (loop_state_log _ _ _ _ _ _ _ Hst) as (_ & Hlog & _ & _ & _ & Hres & Htot).
  destruct (loop_state_times_inv _ _ _ _ _ _ _ Hst) as (Hk & _ & Hkt & _).
  rewrite Nat2Z.id in Hlog.
  assert (Hsum : exists summary,
            ranks (fun name => sum_for name (bs_measured st)) summary /\
            (summary_needed argv = true ->
             summary_block (bs_total_times st) 7 (Z.of_nat (length ds))
             = summary_lines summary (Z.of_nat (length ds)))).
  { destruct (summary_needed argv) eqn:Hsn.
    - destruct (summary_block_ranks (bs_total_times st) (bs_measured st)
                  (Z.of_nat (length ds)) Hkt) as (summary & Hranks & Heq).
      + apply (Htot eq_refl). specialize (Hne eq_refl).
        destruct ds; [congruence | simpl; lia].
      + exists summary. auto.
    - eexists. split; [apply ranks_std_sort; reflexivity | discriminate]. }
  assert (Hress : exists results,
            length results = length ds /\
            (forall k ranking, results !! k = Some ranking ->
               ranks (fun name => nth k (times_for name (bs_measured st)) 0) ranking) /\
            (results_needed argv = true ->
             results_block (bs_result_times st) 7 (Z.of_nat (length ds))
             = results_lines results)).
  { destruct (results_needed argv) eqn:Hrn.
    - destruct (results_block_ranks (bs_result_times st) (bs_measured st) (length ds)
                  Hk (Hres eq_refl)) as (results & Hl & Hranks & Heq).
      exists results. auto.
    - exists (map (fun k => std_sort (map (fun name =>
                                (name, nth k (times_for name (bs_measured st)) 0))
                              algo_names)) (seq 0 (length ds))).
      split; [now rewrite length_map, length_seq|]. split; [|discriminate].
      intros k ranking Hkr. apply list_lookup_fmap_Some in Hkr as (j & -> & Hj).
      apply lookup_seq in Hj as [-> _]. apply ranks_std_sort. reflexivity. }
  destruct Hsum as (summary & Hranks & Hsummary).
  destruct Hress as (results & Hl & Hrankings & Hresults).
  exists (bs_measured st), summary, results.
  split; [exact Hlog|]. split; [exact Hranks|]. split; [exact Hl|].
  split; [exact Hrankings|].
  unfold output_of in Hmain.
  destruct (summary_needed argv); destruct (results_needed argv);
    rewrite <- ?Hsummary, <- ?Hresults by reflexivity; exact Hmain.
Qed.

Lemma main_output_witness :
  exists (log : list (string * Z)) (summary : list (string * Z))
         (results : list (list (string * Z))),
    timing_log example_clock (length [[3; 1; 2]]) log /\
    ranks (fun name => sum_for name log) summary /\
    length results = length [[3; 1; 2]] /\
    (forall k ranking, results !! k = Some ranking ->
                       ranks (fun name => nth k (times_for name log) 0) ranking) /\
    returns (fun fuel => main example_clock fuel ["sortcomparer"%string]
                           (open_stream (line "3 1 2")))
      {| ret := 0;
         cout := progress_lines (length [[3; 1; 2]]) ++ [OutBlank] ++
                 (if summary_needed ["sortcomparer"%string]
                  then summary_lines summary (Z.of_nat (length [[3; 1; 2]])) else []) ++
                 (if results_needed ["sortcomparer"%string]
                  then results_lines results else []);
         cerr := [];
         cin_after := {| buf := []; eofbit := true; failbit := true |} |}.
Proof.
  apply (main_output example_clock ["sortcomparer"%string] (open_stream (line "3 1 2"))
           {| buf := []; eofbit := true; failbit := true |} [[3; 1; 2]] []).
  - left. reflexivity.
  - exists 8%nat. intros fuel Hfuel.
    apply (read_in_datasets_mono 8); [vm_compute; reflexivity | exact Hfuel].
  - repeat constructor. vm_compute. congruence.
  - vm_compute. congruence.
  - intros _. discriminate.
Defined.

(** ** What the reader appends and reports *)

Lemma read_elements_log (fuel : nat) (linecount : Z) :
  forall st st' : line_state,
    read_elements fuel linecount st = Ok st' -> 1 <= ls_position st ->
    exists d e,
      ls_dataset st' = ls_dataset st ++ d /\
      ls_err st' = ls_err st ++ e /\
      ls_errors_occured st' = ls_errors_occured st || negb (is_nil e) /\
      Forall (names_line linecount linecount) e.
Proof.
  induction fuel as [|fuel IH]; intros st st' Hrun Hpos; [discriminate|].
  cbn [read_elements] in Hrun.
  destruct (extract_int (ls_ss st) (ls_elem st)) as [ss elem].
  destruct (negb (failbit ss) || negb (eofbit ss)).
  - destruct (failbit ss).
    + destruct (extract_word (clear ss)) as [ss' w].
      destruct (IH _ _ Hrun) as (d & e & Hd & He & Heo & Hall); [simpl; lia|].
      cbn [ls_dataset ls_err ls_errors_occured ls_position] in Hd, He, Heo.
      exists d, (ConvertError linecount (ls_position st) :: e).
      split; [exact Hd|]. split; [now rewrite He, <- app_assoc|].
      split; [rewrite Heo; simpl; now rewrite orb_true_r|].
      constructor; [|exact Hall].
      exists linecount, (ls_position st). split; [reflexivity | lia].
    + destruct (IH _ _ Hrun) as (d & e & Hd & He & Heo & Hall); [simpl; lia|].
      cbn [ls_dataset ls_err ls_errors_occured ls_position] in Hd, He, Heo.
      exists (elem :: d), e.
      split; [now rewrite Hd, <- app_assoc|]. auto.
  - inversion Hrun. subst st'. simpl. exists [], [].
    rewrite !app_nil_r, orb_false_r. auto.
Qed.

Lemma read_lines_log (fuel : nat) :
  forall st st' : reader_state,
    read_lines fuel st = Ok st' ->
    exists new e,
      rs_datasets st' = rs_datasets st ++ new /\
      rs_err st' = rs_err st ++ e /\
      rs_errors_occured st' = rs_errors_occured st || negb (is_nil e) /\
      Forall (names_line (rs_linecount st)
                         (rs_linecount st + Z.of_nat (length new) - 1)) e.
Proof.
  induction fuel as [|fuel IH]; intros st st' Hrun; [discriminate|].
  cbn [read_lines] in Hrun.
  destruct (negb (eofbit (rs_cin st)) && negb (is_nil (rs_data_str st))).
  - match type of Hrun with
    | (?m ≫= _) = _ => destruct m as [ls|err] eqn:Hline; [|discriminate]
    end.
    rewrite bind_Ok in Hrun.
    destruct (getline (rs_cin st) (rs_data_str st)) as [cin data_str].
    destruct (read_elements_log _ _ _ _ Hline) as (d & e1 & Hd & He1 & Heo1 & Hall1);
      [simpl; lia|].
    cbn [ls_dataset ls_err ls_errors_occured] in Hd, He1, Heo1.
    destruct (IH _ _ Hrun) as (new & e2 & Hnew & He2 & Heo2 & Hall2).
    cbn [rs_datasets rs_err rs_errors_occured rs_linecount] in Hnew, He2, Heo2, Hall2.
    exists (ls_dataset ls :: new), (e1 ++ e2).
    split; [now rewrite Hnew, <- app_assoc|].
    split; [now rewrite He2, He1, <- app_assoc|].
    split.
    + rewrite Heo2, Heo1, <- orb_assoc. f_equal. now destruct e1, e2.
    + apply Forall_app. split.
      * eapply Forall_impl; [exact Hall1|].
        intros x (l & p & -> & Hl & Hp). exists l, p. cbn [length]. split; [reflexivity|lia].
      * eapply Forall_impl; [exact Hall2|].
        intros x (l & p & -> & Hl & Hp). exists l, p. cbn [length]. split; [reflexivity|lia].
  - inversion Hrun. subst st'. exists [], []. rewrite !app_nil_r, orb_false_r. auto.
Qed.

(** [read_in_datasets] only appends to the list it is given, one dataset
    for every line it processes; what it writes to [std::cerr] is nothing,
    or conversion errors followed by one blank line; and every conversion
    error names one of the lines that were processed and a position from 1
    on. *)
Theorem read_in_datasets_appends_and_reports (fuel : nat) (cin cin' : istream)
    (datasets datasets' : list vec) (err : list diagnostic) :
  read_in_datasets fuel cin datasets = Ok (cin', datasets', err) ->
  exists new e,
    datasets' = datasets ++ new /\ err = with_blank e /\
    Forall (names_line 1 (Z.of_nat (length new))) e.
Proof.
  unfold read_in_datasets. intros Hrun.
  destruct (getline cin []) as [cin1 data_str].
  match type of Hrun with
  | (?m ≫= _) = _ => destruct m as [st|e] eqn:Hlines; [|discriminate]
  end.
  rewrite bind_Ok in Hrun. inversion Hrun. subst cin' datasets' err. clear Hrun.
  destruct (read_lines_log _ _ _ Hlines) as (new & e & Hnew & He & Heo & Hall).
  cbn [rs_datasets rs_err rs_errors_occured rs_linecount] in Hnew, He, Heo, Hall.
  exists new, e. split; [exact Hnew|]. split.
  - rewrite Heo, He. unfold with_blank. now destruct e.
  - eapply Forall_impl; [exact Hall|].
    intros x (l & p & -> & Hl & Hp). exists l, p. split; [reflexivity | lia].
Qed.

Lemma read_in_datasets_appends_and_reports_witness :
  exists new e,
    [[0]; [5; 6]; [7]; [8]] = [[0]] ++ new /\
    [ConvertError 1 2; ConvertError 3 1; ErrBlank] = with_blank e /\
    Forall (names_line 1 (Z.of_nat (length new))) e.
Proof.
  apply (read_in_datasets_appends_and_reports 12
           (open_stream (line "5 q 6" ++ line "7" ++ line "z8 8"))
           {| buf := []; eofbit := true; failbit := true |}).
  vm_compute. reflexivity.
Defined.

(** ** Input made of clean lines *)

(** A clean line is read as the specification says, with [errors_occured]
    set when a diagnostic was written. *)
Lemma read_elements_clean_total (fuel : nat) (linecount elem : Z) (l : list ascii)
    (err : list diagnostic) (eo : bool) :
  Forall (fun t => clean_token t = true) (spec_tokens l) -> (length l < fuel)%nat ->
  exists ls,
    read_elements fuel linecount
      {| ls_ss := open_stream l; ls_elem := elem; ls_position := 1; ls_dataset := [];
         ls_err := err; ls_errors_occured := eo |} = Ok ls /\
    ls_dataset ls = (spec_read_line linecount l).1 /\
    ls_err ls = err ++ (spec_read_line linecount l).2 /\
    ls_errors_occured ls = eo || negb (is_nil (spec_read_line linecount l).2).
Proof.
  intros Hclean Hfuel.
  destruct (read_elements_clean (length l) l false ltac:(discriminate) (Nat.le_refl _)
              Hclean fuel linecount elem 1 [] err eo Hfuel) as (ls & Hrun & Hd & He).
  exists ls. split; [exact Hrun|]. split; [exact Hd|]. split; [exact He|].
  destruct (read_elements_log _ _ _ _ Hrun) as (d & e & _ & He' & Heo & _); [simpl; lia|].
  cbn [ls_err ls_errors_occured] in He', Heo.
  rewrite He' in He. apply app_inv_head in He. now rewrite Heo, He.
Qed.

Lemma input_of_cons (l : list ascii) (lines : list (list ascii)) (tail : list ascii) :
  input_of (l :: lines) ++ tail = l ++ newline :: (input_of lines ++ tail).
Proof. unfold input_of. cbn [flat_map]. now rewrite <- !app_assoc. Qed.

Lemma input_of_length (l : list ascii) (lines : list (list ascii)) :
  length (input_of (l :: lines)) = (length l + 1 + length (input_of lines))%nat.
Proof. unfold input_of. cbn [flat_map]. rewrite !length_app. simpl. lia. Qed.

Lemma spec_read_lines_cons (k : Z) (l : list ascii) (lines : list (list ascii)) :
  spec_read_lines k (l :: lines)
  = ((spec_read_line k l).1 :: (spec_read_lines (k + 1) lines).1,
     (spec_read_line k l).2 ++ (spec_read_lines (k + 1) lines).2).
Proof.
  cbn [spec_read_lines]. destruct (spec_read_line k l).
  now destruct (spec_read_lines (k + 1) lines).
Qed.

Lemma getline_clean (l rest str : list ascii) :
  forallb (fun c => negb (Ascii.eqb c newline)) l = true ->
  getline (open_stream (l ++ newline :: rest)) str = (open_stream rest, l).
Proof.
  intros Hl. unfold getline. cbn [good open_stream eofbit failbit negb andb buf].
  now rewrite split_line_newline.
Qed.

(** The stream and the line left by the [std::getline] that ends the
    loop: at the end of the input, or at an empty line. *)
Lemma getline_last (tail str : list ascii) :
  tail = [] \/ (exists rest, tail = newline :: rest) ->
  getline (open_stream tail) str
  = (match tail with
     | [] => {| buf := []; eofbit := true; failbit := true |}
     | _ :: rest => open_stream rest
     end, []).
Proof.
  intros [->|[rest ->]]; [reflexivity|].
  apply (getline_clean [] rest str). reflexivity.
Qed.

(** The loop over clean lines, ended by a [std::getline] that reaches
    the end of the input or delivers an empty line. *)
Lemma read_lines_clean (tail : list ascii) (cin_last : istream) (str_last : list ascii) :
  (forall str, getline (open_stream tail) str = (cin_last, str_last)) ->
  eofbit cin_last = true \/ str_last = [] ->
  forall (lines : list (list ascii)) (l : list ascii) (fuel : nat) (k elem : Z)
         (ds : list vec) (e : list diagnostic) (eo : bool),
    clean_line l -> Forall clean_line lines ->
    (length l + 1 + length (input_of lines) < fuel)%nat ->
    exists st',
      read_lines fuel
        {| rs_cin := open_stream (input_of lines ++ tail); rs_datasets := ds;
           rs_data_str := l; rs_elem := elem; rs_linecount := k; rs_err := e;
           rs_errors_occured := eo |} = Ok st' /\
      rs_cin st' = cin_last /\
      rs_datasets st' = ds ++ (spec_read_lines k (l :: lines)).1 /\
      rs_err st' = e ++ (spec_read_lines k (l :: lines)).2 /\
      rs_errors_occured st' = eo || negb (is_nil (spec_read_lines k (l :: lines)).2).
Proof.
  intros Hlast Hstop.
  assert (Hcond : negb (eofbit cin_last) && negb (is_nil str_last) = false).
  { destruct Hstop as [-> | ->]; [reflexivity | apply andb_false_r]. }
  induction lines as [|l' lines IH];
    intros l fuel k elem ds e eo (Hne & Hnl & Hclean) Hlines Hfuel.
  - destruct fuel as [|fuel]; [lia|].
    cbn [read_lines rs_cin rs_data_str rs_linecount rs_elem rs_err rs_errors_occured
         rs_datasets open_stream eofbit negb andb].
    destruct l as [|c l]; [congruence|]. cbn [is_nil negb].
    destruct (read_elements_clean_total (Datatypes.S fuel) k elem (c :: l) e eo Hclean)
      as (ls & Hline & Hd & He & Heo); [simpl in *; lia|].
    rewrite Hline, bind_Ok. cbn [input_of flat_map app].
    fold (open_stream tail). rewrite (Hlast (c :: l)).
    destruct fuel as [|fuel]; [simpl in Hfuel; lia|].
    cbn [read_lines rs_cin rs_data_str]. rewrite Hcond.
    eexists. split; [reflexivity|].
    cbn [rs_cin rs_datasets rs_err rs_errors_occured spec_read_lines].
    destruct (spec_read_line k (c :: l)) as [d1 e1]. cbn [fst snd] in *.
    rewrite Hd, He, Heo, app_nil_r. auto.
  - destruct fuel as [|fuel]; [lia|].
    cbn [read_lines rs_cin rs_data_str rs_linecount rs_elem rs_err rs_errors_occured
         rs_datasets open_stream eofbit negb andb].
    destruct l as [|c l]; [congruence|]. cbn [is_nil negb].
    destruct (read_elements_clean_total (Datatypes.S fuel) k elem (c :: l) e eo Hclean)
      as (ls & Hline & Hd & He & Heo); [simpl in *; lia|].
    rewrite Hline, bind_Ok.
    inversion Hlines as [|? ? Hl' Hrest]. subst.
    pose proof Hl' as (_ & Hnl' & _).
    rewrite input_of_cons.
    fold (open_stream (l' ++ newline :: input_of lines ++ tail)).
    rewrite (getline_clean l' _ _ Hnl').
    destruct (IH l' fuel (k + 1) (ls_elem ls) (ds ++ [ls_dataset ls]) (ls_err ls)
                (ls_errors_occured ls) Hl' Hrest)
      as (st' & Hrun & Hcin & Hds & Herr & Herrs).
    { rewrite input_of_length in Hfuel. cbn [length] in Hfuel. lia. }
    exists st'. split; [exact Hrun|]. split; [exact Hcin|].
    rewrite (spec_read_lines_cons k (c :: l)).
    destruct (spec_read_line k (c :: l)) as [d1 e1].
    destruct (spec_read_lines (k + 1) (l' :: lines)) as [ds2 es2]. cbn [fst snd] in *.
    rewrite Hds, Herr, Herrs, Hd, He, Heo, <- !app_assoc.
    split; [reflexivity|]. split; [reflexivity|].
    rewrite <- orb_assoc. f_equal. now destruct e1, es2.
Qed.

Lemma read_in_datasets_clean (tail : list ascii) (cin_last : istream)
    (str_last : list ascii) (lines : list (list ascii)) (datasets : list vec) :
  (forall str, getline (open_stream tail) str = (cin_last, str_last)) ->
  eofbit cin_last = true \/ str_last = [] ->
  Forall clean_line lines ->
  returns (fun fuel => read_in_datasets fuel (open_stream (input_of lines ++ tail)) datasets)
    (cin_last, datasets ++ (spec_read_lines 1 lines).1,
     with_blank (spec_read_lines 1 lines).2).
Proof.
  intros Hlast Hstop Hlines. exists (length (input_of lines) + 2)%nat. intros fuel Hfuel.
  unfold read_in_datasets. destruct lines as [|l lines].
  - cbn [input_of flat_map app]. rewrite (Hlast []).
    destruct fuel as [|fuel]; [lia|]. cbn [read_lines rs_cin rs_data_str].
    replace (negb (eofbit cin_last) && negb (is_nil str_last)) with false
      by (destruct Hstop as [-> | ->]; [reflexivity | now rewrite andb_false_r]).
    rewrite bind_Ok. cbn [rs_cin rs_datasets rs_err rs_errors_occured].
    cbn [spec_read_lines fst snd]. now rewrite app_nil_r.
  - inversion Hlines as [|? ? Hl Hrest]. subst.
    pose proof Hl as (_ & Hnl & _).
    rewrite input_of_cons, (getline_clean l _ _ Hnl).
    destruct (read_lines_clean tail cin_last str_last Hlast Hstop lines l fuel 1 0
                datasets [] false Hl Hrest)
      as (st' & Hrun & Hcin & Hds & Herr & Heo).
    { rewrite input_of_length in Hfuel. lia. }
    rewrite Hrun, bind_Ok. cbn [mret result_ret]. rewrite Hcin, Hds, Heo, Herr.
    unfold with_blank. cbn [app orb].
    now destruct (spec_read_lines 1 (l :: lines)).2.
Qed.

(** On an input whose lines, up to the end of the input or to the first
    empty line, each end with a newline and are made of clean tokens
    (integers that an [int] holds, and tokens that start with neither a
    digit nor a sign), [read_in_datasets] returns having appended one
    dataset per line, in order, each with the integers of its line; it has
    reported every other token with its line and position, followed by one
    blank line when there was a report; and it leaves what follows the empty
    line unread. *)
Theorem read_in_datasets_clean_input (lines : list (list ascii)) (tail : list ascii)
    (datasets : list vec) :
  Forall clean_line lines ->
  tail = [] \/ (exists rest, tail = newline :: rest) ->
  returns (fun fuel => read_in_datasets fuel (open_stream (input_of lines ++ tail)) datasets)
    (match tail with
     | [] => {| buf := []; eofbit := true; failbit := true |}
     | _ :: rest => open_stream rest
     end,
     datasets ++ (spec_read_lines 1 lines).1,
     with_blank (spec_read_lines 1 lines).2).
Proof.
  intros Hlines Htail. apply read_in_datasets_clean with (str_last := []); auto.
  intros str. now apply getline_last.
Qed.

Lemma read_in_datasets_clean_input_witness :
  returns (fun fuel => read_in_datasets fuel
                         (open_stream (input_of [chars "1 2 x 3"; chars " "; chars "-4"]
                                       ++ newline :: chars "9 9")) [[0]])
    (open_stream (chars "9 9"),
     [[0]] ++ [[1; 2; 3]; []; [-4]],
     with_blank [ConvertError 1 3]).
Proof.
  assert (Hclean : Forall clean_line [chars "1 2 x 3"; chars " "; chars "-4"]).
  { repeat constructor; discriminate. }
  apply (read_in_datasets_clean_input [chars "1 2 x 3"; chars " "; chars "-4"]
           (newline :: chars "9 9") [[0]] Hclean).
  right. eauto.
Defined.

(** A last line that no newline ends is dropped, whatever it holds: the
    [std::getline] that reads it reaches the end of the input and sets
    [eofbit], and the loop tests [eofbit] before it looks at the line.  The
    datasets are those of the lines before it. *)
Theorem read_in_datasets_unterminated_line (lines : list (list ascii))
    (last : list ascii) (datasets : list vec) :
  Forall clean_line lines ->
  last <> [] -> forallb (fun c => negb (Ascii.eqb c newline)) last = true ->
  returns (fun fuel => read_in_datasets fuel (open_stream (input_of lines ++ last)) datasets)
    ({| buf := []; eofbit := true; failbit := false |},
     datasets ++ (spec_read_lines 1 lines).1,
     with_blank (spec_read_lines 1 lines).2).
Proof.
  intros Hlines Hne Hnl.
  apply read_in_datasets_clean with (str_last := last); auto.
  intros str. unfold getline. cbn [good open_stream eofbit failbit negb andb buf].
  rewrite (split_line_end last Hnl). now destruct last.
Qed.

Lemma read_in_datasets_unterminated_line_witness :
  returns (fun fuel => read_in_datasets fuel
                         (open_stream (input_of [chars "1 2"; chars "3"] ++ chars "4 5")) [])
    ({| buf := []; eofbit := true; failbit := false |},
     [] ++ [[1; 2]; [3]], with_blank []).
Proof.
  apply (read_in_datasets_unterminated_line [chars "1 2"; chars "3"] (chars "4 5") []).
  - repeat constructor; discriminate.
  - discriminate.
  - reflexivity.
Defined.

(** ** Tokens that are read to their end and rejected *)

Lemma skip_ws_app (ws l : list ascii) :
  forallb is_space ws = true -> skip_ws (ws ++ l) = skip_ws l.
Proof.
  induction ws as [|c ws IH]; simpl; [reflexivity|].
  intros H. apply andb_true_iff in H as [Hc Hws]. rewrite Hc. auto.
Qed.

Lemma take_word_app (w rest : list ascii) :
  forallb (fun c => negb (is_space c)) w = true -> ends_word rest ->
  take_word (w ++ rest) = (w, rest).
Proof.
  intros Hw Hrest. induction w as [|c w IH]; simpl in *.
  - destruct rest as [|c rest]; [reflexivity|]. simpl in *. now rewrite Hrest.
  - apply andb_true_iff in Hw as [Hc Hw]. apply negb_true_iff in Hc.
    now rewrite Hc, (IH Hw).
Qed.

Lemma swallowing_starts_word (c : ascii) (r : list ascii) :
  swallowing (c :: r) = true -> is_space c = false.
Proof.
  intros H. destruct (is_space c) eqn:Hc; [|reflexivity].
  destruct (space_not_sign c Hc) as [Hm Hp]. pose proof (space_not_digit c Hc) as Hd.
  cbn [swallowing] in H. rewrite Hm, Hp in H. cbn [orb forallb] in H.
  rewrite Hd in H. discriminate.
Qed.

Lemma extract_int_swallows (tok after : list ascii) (elem : Z) :
  swallowing tok = true ->
  match after with [] => True | c :: _ => is_digit c = false end ->
  exists elem',
    extract_int (open_stream (tok ++ after)) elem
    = ({| buf := after; eofbit := is_nil after; failbit := true |}, elem').
Proof.
  intros Hsw Hafter. destruct tok as [|c r]; [discriminate|].
  pose proof (swallowing_starts_word c r Hsw) as Hc.
  unfold extract_int. cbn [good open_stream eofbit failbit negb andb buf app skip_ws].
  rewrite Hc. cbn [swallowing] in Hsw.
  set (signed := Ascii.eqb c "-" || Ascii.eqb c "+") in *.
  apply andb_true_iff in Hsw as [Hdigits Hcase].
  replace (if signed then r ++ after else c :: r ++ after)
    with ((if signed then r else c :: r) ++ after) by now destruct signed.
  rewrite (take_digits_app _ after Hdigits Hafter).
  destruct (is_nil (if signed then r else c :: r)); [eauto|].
  apply orb_true_iff in Hcase as [Hlow|Hhigh].
  - rewrite Hlow. eauto.
  - rewrite Hhigh. destruct (_ <? INT_MIN); eauto.
Qed.

(** A sign alone and a number that an [int] does not hold are read to
    their end before the extraction fails.  When whitespace and another
    token follow, the code reports the position once and then drops, with
    [ss >> temp], the token that follows, whatever it is: the loop goes on
    behind it, with the next position.  When the line ends with such a
    token the loop ends without a report. *)
Theorem read_elements_swallows_next (fuel : nat) (linecount elem position : Z)
    (dataset : vec) (err : list diagnostic) (eo : bool)
    (tok ws next rest : list ascii) :
  swallowing tok = true -> is_blank ws -> is_word next -> ends_word rest ->
  (exists elem',
     read_elements (Datatypes.S fuel) linecount
       {| ls_ss := open_stream (tok ++ ws ++ next ++ rest); ls_elem := elem;
          ls_position := position; ls_dataset := dataset; ls_err := err;
          ls_errors_occured := eo |}
     = read_elements fuel linecount
         {| ls_ss := {| buf := rest; eofbit := is_nil rest; failbit := false |};
            ls_elem := elem'; ls_position := position + 1; ls_dataset := dataset;
            ls_err := err ++ [ConvertError linecount position];
            ls_errors_occured := true |}) /\
  (exists elem',
     read_elements (Datatypes.S fuel) linecount
       {| ls_ss := open_stream tok; ls_elem := elem;
          ls_position := position; ls_dataset := dataset; ls_err := err;
          ls_errors_occured := eo |}
     = Ok {| ls_ss := {| buf := []; eofbit := true; failbit := true |};
             ls_elem := elem'; ls_position := position; ls_dataset := dataset;
             ls_err := err; ls_errors_occured := eo |}).
Proof.
  intros Hsw [Hws_ne Hws] [Hnext_ne Hnext] Hrest. split.
  - destruct (extract_int_swallows tok (ws ++ next ++ rest) elem Hsw) as [elem' Hext].
    { destruct ws as [|c ws]; [congruence|]. simpl in Hws.
      apply andb_true_iff in Hws as [Hc _]. now apply space_not_digit. }
    exists elem'. cbn [read_elements ls_ss ls_elem]. rewrite Hext.
    destruct ws as [|c ws]; [congruence|].
    cbn [failbit eofbit app is_nil negb orb].
    unfold extract_word, clear.
    cbn [good eofbit failbit negb andb buf].
    change (c :: ws ++ next ++ rest) with ((c :: ws) ++ next ++ rest).
    rewrite (skip_ws_app (c :: ws) _ Hws).
    rewrite skip_ws_id.
    + destruct next as [|n next]; [congruence|]. cbn [app].
      change (n :: next ++ rest) with ((n :: next) ++ rest).
      rewrite (take_word_app (n :: next) rest Hnext Hrest). reflexivity.
    + destruct next as [|n next]; [congruence|]. simpl in *.
      apply andb_true_iff in Hnext as [Hn _]. now apply negb_true_iff in Hn.
  - destruct (extract_int_swallows tok [] elem Hsw I) as [elem' Hext].
    rewrite app_nil_r in Hext.
    exists elem'. cbn [read_elements ls_ss ls_elem]. rewrite Hext. reflexivity.
Qed.

Lemma read_elements_swallows_next_witness :
  (exists elem',
     read_elements 9 3
       {| ls_ss := open_stream (chars "-" ++ chars " " ++ chars "5" ++ chars " 6");
          ls_elem := 0; ls_position := 1; ls_dataset := []; ls_err := [];
          ls_errors_occured := false |}
     = read_elements 8 3
         {| ls_ss := {| buf := chars " 6"; eofbit := is_nil (chars " 6"); failbit := false |};
            ls_elem := elem'; ls_position := 1 + 1; ls_dataset := [];
            ls_err := [] ++ [ConvertError 3 1];
            ls_errors_occured := true |}) /\
  (exists elem',
     read_elements 9 3
       {| ls_ss := open_stream (chars "-"); ls_elem := 0;
          ls_position := 1; ls_dataset := []; ls_err := [];
          ls_errors_occured := false |}
     = Ok {| ls_ss := {| buf := []; eofbit := true; failbit := true |};
             ls_elem := elem'; ls_position := 1; ls_dataset := [];
             ls_err := []; ls_errors_occured := false |}).
Proof.
  apply (read_elements_swallows_next 8 3 0 1 [] [] false
           (chars "-") (chars " ") (chars "5") (chars " 6")).
  - reflexivity.
  - split; [discriminate | reflexivity].
  - split; [discriminate | reflexivity].
  - reflexivity.
Defined.

(** ** Sizes that an [int] reads as negative *)

Lemma to_int_wraps (z : Z) : 2 ^ 31 <= z < 2 ^ 32 -> to_int z = z - 2 ^ 32.
Proof.
  intros Hz. unfold to_int.
  replace (z + 2 ^ 31) with (z - 2 ^ 31 + 1 * 2 ^ 32) by lia.
  rewrite Z.mod_add, Z.mod_small by lia. lia.
Qed.

(** On a vector of more than 2^31 and fewer than 2^32 elements the size,
    and for merge sort and quick sort the last index, is negative when it
    is read as an [int]: no loop of any of the seven algorithms is entered,
    and each of them returns the vector as it was given, sorted or not. *)
Theorem sort_algos_skip_oversized (name : string) (f : SortFunction) (v : vec)
    (fuel : nat) :
  In (name, f) sort_algos -> 2 ^ 31 < vsize v < 2 ^ 32 -> (2 <= fuel)%nat ->
  f fuel v = Ok v.
Proof.
  intros Hin Hsize Hfuel.
  assert (Hn : to_int (vsize v) = vsize v - 2 ^ 32) by (apply to_int_wraps; lia).
  assert (Hend : to_int (size_sub (vsize v) 1) = vsize v - 1 - 2 ^ 32).
  { unfold size_sub, SIZE_MODULUS. rewrite Z.mod_small by lia. apply to_int_wraps. lia. }
  assert (Hhalf : (vsize v - 2 ^ 32) ÷ 2 <= 0).
  { rewrite <- (Z.opp_involutive (vsize v - 2 ^ 32)), Z.quot_opp_l by lia.
    pose proof (Z.quot_pos (- (vsize v - 2 ^ 32)) 2). lia. }
  destruct fuel as [|[|fuel]]; [lia | lia |].
  simpl in Hin.
  destruct Hin as [H|[H|[H|[H|[H|[H|[H|[]]]]]]]]; inversion H; subst name f.
  - unfold insertion_sort. rewrite Hn. apply for_range_empty. lia.
  - unfold selection_sort. rewrite Hn. apply for_range_empty. lia.
  - unfold bubble_sort. rewrite Hn. cbn [while_loop snd]. rewrite bind_Ok.
    unfold bubble_pass. rewrite for_range_empty by lia. rewrite bind_Ok.
    cbn [snd fst]. rewrite !bind_Ok. reflexivity.
  - unfold heap_sort. rewrite Hn.
    rewrite for_down_empty, bind_Ok.
    + apply for_down_empty. lia.
    + lia.
  - unfold merge_sort. rewrite Hend. cbn [merge_sort_sublist].
    destruct (Z.ltb_spec 0 (vsize v - 1 - 2 ^ 32)); [lia | reflexivity].
  - unfold quick_sort. rewrite Hend. cbn [quick_sort_sublist].
    destruct (Z.ltb_spec 0 (vsize v - 1 - 2 ^ 32)); [lia | reflexivity].
  - unfold shell_sort. rewrite Hn. cbn [while_loop snd]. rewrite bind_Ok.
    destruct (Z.gtb_spec ((vsize v - 2 ^ 32) ÷ 2) 0); [lia|].
    rewrite bind_Ok. reflexivity.
Qed.

Lemma sort_algos_skip_oversized_witness :
  quick_sort 2 (2 :: oversized) = Ok (2 :: oversized).
Proof.
  apply (sort_algos_skip_oversized "Quick Sort" quick_sort (2 :: oversized) 2).
  - simpl. do 5 right. left. reflexivity.
  - unfold vsize. rewrite length_cons, Nat2Z.inj_succ. fold (vsize oversized).
    rewrite vsize_oversized. lia.
  - lia.
Defined.

(** ** Tokens that begin with a number *)

Lemma spec_parse_int_starts_word (c : ascii) (w : list ascii) (value : Z) :
  spec_parse_int (c :: w) = Some value -> is_space c = false.
Proof.
  intros H. destruct (is_space c) eqn:Hc; [|reflexivity].
  destruct (space_not_sign c Hc) as [Hm Hp]. pose proof (space_not_digit c Hc) as Hd.
  unfold spec_parse_int in H. rewrite Hm, Hp in H. cbn [orb negb is_nil forallb andb] in H.
  rewrite Hd in H. discriminate.
Qed.

(** The extraction of an [int] stops behind the longest number at the
    front, wherever the token ends. *)
Lemma extract_int_prefix (num after : list ascii) (value elem : Z) :
  spec_parse_int num = Some value ->
  match after with [] => True | c :: _ => is_digit c = false end ->
  extract_int (open_stream (num ++ after)) elem
  = ({| buf := after; eofbit := is_nil after; failbit := false |}, value).
Proof.
  intros Hparse Hafter. destruct num as [|c w]; [discriminate|].
  pose proof (spec_parse_int_starts_word c w value Hparse) as Hc.
  unfold extract_int. cbn [good open_stream eofbit failbit negb andb buf app skip_ws].
  rewrite Hc. unfold spec_parse_int in Hparse. cbn [tl] in Hparse.
  set (signed := (Ascii.eqb c "-" || Ascii.eqb c "+")%bool) in *.
  set (body := if signed then w else c :: w) in *.
  replace (if signed then w ++ after else c :: w ++ after) with (body ++ after)
    by (unfold body; now destruct signed).
  destruct (negb (is_nil body) && forallb is_digit body
            && (INT_MIN <=? (if Ascii.eqb c "-" then - digits_value body else digits_value body))
            && ((if Ascii.eqb c "-" then - digits_value body else digits_value body) <=? INT_MAX))
    eqn:Hcond; [|discriminate].
  inversion Hparse as [Hv]. clear Hparse.
  apply andb_true_iff in Hcond as [Hcond Hmax].
  apply andb_true_iff in Hcond as [Hcond Hmin].
  apply andb_true_iff in Hcond as [Hne Hdigits].
  rewrite (take_digits_app body after Hdigits Hafter).
  destruct (is_nil body); [discriminate|].
  apply Z.leb_le in Hmin, Hmax.
  destruct (Z.ltb_spec (if Ascii.eqb c "-" then - digits_value body else digits_value body)
              INT_MIN); [lia|].
  destruct (Z.ltb_spec INT_MAX
              (if Ascii.eqb c "-" then - digits_value body else digits_value body)); [lia|].
  reflexivity.
Qed.

(** A token is not read as a whole: the extraction takes the longest
    number at its front.  When the rest of the token starts with a
    character that is neither a digit nor a sign, the number is appended
    and the rest is reported, under the next position, and skipped.  When
    the rest is itself a signed number, as in "12-5", both numbers are
    appended and nothing is reported. *)
Theorem read_elements_splits_token (fuel : nat) (linecount elem position value : Z)
    (dataset : vec) (err : list diagnostic) (eo : bool) (num : list ascii) :
  spec_parse_int num = Some value ->
  (forall (j : ascii) (junk rest : list ascii),
     is_digit j = false -> Ascii.eqb j "-" = false -> Ascii.eqb j "+" = false ->
     is_word (j :: junk) -> ends_word rest ->
     read_elements (Datatypes.S (Datatypes.S fuel)) linecount
       {| ls_ss := open_stream (num ++ (j :: junk) ++ rest); ls_elem := elem;
          ls_position := position; ls_dataset := dataset; ls_err := err;
          ls_errors_occured := eo |}
     = read_elements fuel linecount
         {| ls_ss := {| buf := rest; eofbit := is_nil rest; failbit := false |};
            ls_elem := 0; ls_position := position + 1 + 1;
            ls_dataset := dataset ++ [value];
            ls_err := err ++ [ConvertError linecount (position + 1)];
            ls_errors_occured := true |}) /\
  (forall (s : ascii) (digits after : list ascii) (value2 : Z),
     Ascii.eqb s "-" || Ascii.eqb s "+" = true ->
     spec_parse_int (s :: digits) = Some value2 ->
     match after with [] => True | c :: _ => is_digit c = false end ->
     read_elements (Datatypes.S (Datatypes.S fuel)) linecount
       {| ls_ss := open_stream (num ++ (s :: digits) ++ after); ls_elem := elem;
          ls_position := position; ls_dataset := dataset; ls_err := err;
          ls_errors_occured := eo |}
     = read_elements fuel linecount
         {| ls_ss := {| buf := after; eofbit := is_nil after; failbit := false |};
            ls_elem := value2; ls_position := position + 1 + 1;
            ls_dataset := (dataset ++ [value]) ++ [value2];
            ls_err := err; ls_errors_occured := eo |}).
Proof.
  intros Hparse. split.
  - intros j junk rest Hd Hm Hp [_ Hword] Hrest.
    cbn [read_elements ls_ss ls_elem].
    rewrite (extract_int_prefix num ((j :: junk) ++ rest) value elem Hparse) by exact Hd.
    cbn [failbit eofbit app is_nil negb orb ls_position ls_dataset ls_err
         ls_errors_occured ls_ss ls_elem].
    assert (Hj : is_space j = false).
    { simpl in Hword. apply andb_true_iff in Hword as [Hj _]. now apply negb_true_iff. }
    rewrite (extract_int_rejects (j :: junk ++ rest) j (junk ++ rest) value) by
      (auto; simpl; now rewrite Hj).
    cbn [failbit eofbit negb orb].
    rewrite (extract_word_takes j (junk ++ rest) (j :: junk) rest Hj
               (take_word_app (j :: junk) rest Hword Hrest)).
    reflexivity.
  - intros s digits after value2 Hs Hparse2 Hafter.
    cbn [read_elements ls_ss ls_elem].
    rewrite (extract_int_prefix num ((s :: digits) ++ after) value elem Hparse).
    + cbn [failbit eofbit app is_nil negb orb ls_position ls_dataset ls_err
           ls_errors_occured ls_ss ls_elem].
      change (s :: digits ++ after) with ((s :: digits) ++ after).
      fold (open_stream ((s :: digits) ++ after)).
      rewrite (extract_int_prefix (s :: digits) after value2 value Hparse2 Hafter).
      cbn [failbit eofbit negb orb]. reflexivity.
    + cbn [app]. destruct (is_digit s) eqn:Hds; [|reflexivity].
      destruct (digit_not_sign s Hds) as [Hm Hp]. rewrite Hm, Hp in Hs. discriminate.
Qed.

Lemma read_elements_splits_token_witness :
  (forall (j : ascii) (junk rest : list ascii),
     is_digit j = false -> Ascii.eqb j "-" = false -> Ascii.eqb j "+" = false ->
     is_word (j :: junk) -> ends_word rest ->
     read_elements 9 1
       {| ls_ss := open_stream (chars "12" ++ (j :: junk) ++ rest); ls_elem := 0;
          ls_position := 1; ls_dataset := []; ls_err := [];
          ls_errors_occured := false |}
     = read_elements 7 1
         {| ls_ss := {| buf := rest; eofbit := is_nil rest; failbit := false |};
            ls_elem := 0; ls_position := 1 + 1 + 1;
            ls_dataset := [] ++ [12];
            ls_err := [] ++ [ConvertError 1 (1 + 1)];
            ls_errors_occured := true |}) /\
  (forall (s : ascii) (digits after : list ascii) (value2 : Z),
     Ascii.eqb s "-" || Ascii.eqb s "+" = true ->
     spec_parse_int (s :: digits) = Some value2 ->
     match after with [] => True | c :: _ => is_digit c = false end ->
     read_elements 9 1
       {| ls_ss := open_stream (chars "12" ++ (s :: digits) ++ after); ls_elem := 0;
          ls_position := 1; ls_dataset := []; ls_err := [];
          ls_errors_occured := false |}
     = read_elements 7 1
         {| ls_ss := {| buf := after; eofbit := is_nil after; failbit := false |};
            ls_elem := value2; ls_position := 1 + 1 + 1;
            ls_dataset := ([] ++ [12]) ++ [value2];
            ls_err := []; ls_errors_occured := false |}).
Proof.
  apply (read_elements_splits_token 7 1 0 1 12 [] [] false (chars "12")).
  reflexivity.
Defined.

(** ** Runs without datasets *)

(** When no dataset is read (the input is empty, starts with an empty
    line, or is a single line that no newline ends), a run that has to print
    the summary reads the empty ranking out of bounds, whereas a run that
    has to print the results alone returns 0, having printed a blank line
    and the banner of the results. *)
Theorem main_without_datasets (clk : clock_model) (argv : list string)
    (cin cin1 : istream) (err : list diagnostic) :
  accepted argv ->
  returns (fun fuel => read_in_datasets fuel cin []) (cin1, [], err) ->
  (summary_needed argv = true ->
   exists fuel0, forall fuel, (fuel0 <= fuel)%nat ->
     main clk fuel argv cin = Err OutOfBounds) /\
  (summary_needed argv = false ->
   returns (fun fuel => main clk fuel argv cin)
     {| ret := 0; cout := [OutBlank; ResultsBanner]; cerr := err; cin_after := cin1 |}).
Proof.
  intros Hacc Hread. split; intros Hsn.
  - destruct Hread as [fuel0 Hread]. exists fuel0. intros fuel Hfuel.
    apply (main_summary_no_datasets clk fuel argv cin cin1 err Hacc Hsn). now apply Hread.
  - destruct (main_run clk argv cin cin1 [] err Hacc Hread) as (st & _ & Hmain).
    + constructor.
    + simpl. unfold INT_MAX. lia.
    + rewrite Hsn. discriminate.
    + assert (Hrn : results_needed argv = true).
      { unfold summary_needed in Hsn. unfold results_needed.
        destruct Hacc as [Hc|[Hc [Ha|Ha]]]; rewrite Hc in *; try rewrite Ha in *;
          try reflexivity; discriminate. }
      unfold output_of in Hmain. rewrite Hsn, Hrn in Hmain. exact Hmain.
Qed.

Lemma main_without_datasets_witness :
  (summary_needed ["sortcomparer"; "results"]%string = true ->
   exists fuel0, forall fuel, (fuel0 <= fuel)%nat ->
     main example_clock fuel ["sortcomparer"; "results"]%string
          (open_stream (newline :: chars "5 6")) = Err OutOfBounds) /\
  (summary_needed ["sortcomparer"; "results"]%string = false ->
   returns (fun fuel => main example_clock fuel ["sortcomparer"; "results"]%string
                          (open_stream (newline :: chars "5 6")))
     {| ret := 0; cout := [OutBlank; ResultsBanner]; cerr := [];
        cin_after := open_stream (chars "5 6") |}).
Proof.
  apply (main_without_datasets example_clock ["sortcomparer"; "results"]%string
           (open_stream (newline :: chars "5 6")) (open_stream (chars "5 6")) []).
  - right. split; [reflexivity|]. left. reflexivity.
  - apply (read_in_datasets_clean (newline :: chars "5 6") (open_stream (chars "5 6")) []
             [] []); [reflexivity | auto | constructor].
Defined.

(** ** The first loop of heap sort *)

(** The loop [for (i = n / 2 - 1; i >= 0; --i) max_heapify(v, n, i)] with
    which [heap_sort] begins turns the vector into a max-heap: every
    element is at least as large as its two children, so that the largest
    element is first; the vector is a permutation of the one given. *)
Theorem heap_sort_builds_heap (fuel : nat) (v : vec) :
  2 * vsize v <= INT_MAX -> vsize v < Z.of_nat fuel ->
  exists w,
    for_down (to_int (vsize v) ÷ 2 - 1) 0
      (fun i w => max_heapify fuel w (to_int (vsize v)) i) v = Ok w /\
    Permutation v w /\ heap_from w (vsize v) 0 /\
    (forall k, 0 <= k < vsize v -> at_ w k <= at_ w 0).
Proof.
  intros Hmax Hfuel.
  pose proof (vsize_nonneg v) as Hnn.
  rewrite to_int_small by (unfold INT_MIN, INT_MAX in *; lia).
  set (n := vsize v) in *.
  assert (Hhalf : 0 <= n ÷ 2 /\ n <= 2 * (n ÷ 2) + 1 /\ 2 * (n ÷ 2) <= n).
  { rewrite Z.quot_div_nonneg by lia.
    pose proof (Z.div_mod n 2 ltac:(lia)).
    pose proof (Z.mod_pos_bound n 2 ltac:(lia)). lia. }
  destruct (for_down_rule
    (fun i (w : vec) => vsize w = n /\ Permutation v w /\ heap_from w n (i + 1))
    (n ÷ 2 - 1) 0 (fun i w => max_heapify fuel w n i) v)
    as (w & Hrun & Hsz & Hperm & Hheap).
  - lia.
  - split; [reflexivity|]. split; [reflexivity|].
    intros p c Hp Hc Hcn. lia.
  - intros i u Hi (Hsz & Hperm & Hheap).
    destruct (max_heapify_correct fuel u n i i) as (u' & Hrun & Hsz' & Hperm' & _ & Hu');
      try lia.
    { split.
      - intros p c Hp Hne. apply Hheap. lia.
      - intros p c Hp Hc. lia. }
    exists u'. split; [exact Hrun|]. split; [lia|].
    split; [etransitivity; eauto|].
    now replace (i - 1 + 1) with i by lia.
  - replace (0 - 1 + 1) with 0 in Hheap by lia.
    exists w. split; [exact Hrun|]. split; [exact Hperm|]. split; [exact Hheap|].
    now apply heap_root_max.
Qed.

Lemma heap_sort_builds_heap_witness :
  exists w,
    for_down (to_int (vsize [1; 5; 4; 9; 2]) ÷ 2 - 1) 0
      (fun i w => max_heapify 6 w (to_int (vsize [1; 5; 4; 9; 2])) i) [1; 5; 4; 9; 2] = Ok w /\
    Permutation [1; 5; 4; 9; 2] w /\ heap_from w (vsize [1; 5; 4; 9; 2]) 0 /\
    (forall k, 0 <= k < vsize [1; 5; 4; 9; 2] -> at_ w k <= at_ w 0).
Proof.
  apply (heap_sort_builds_heap 6 [1; 5; 4; 9; 2]); vm_compute; congruence.
Defined.

(** ** The command line, for every run *)






(** ** The lines on which code and specification agree *)







(** ** The tokens on which code and specification differ *)





